(** * shizai-downloader: the package walker and the image puller

    A shallow embedding of [src/npm.js] (the recursive tarball walker) and of
    the image puller (download-docker.js), with the properties of the
    specification stated over it.

    Both programs are sequential [async] functions that talk to a registry,
    touch the disk and write to the console.  They are embedded in one small
    monad: a state monad over the program's mutable world, a writer for the
    observable events (requests, prompts, console lines, disk writes) and an
    outcome that is either a normal return, a thrown exception or the end
    of the process ([process.exit], or an error event nobody listens to).
    Recursion that is not structural takes a fuel argument;
    running out of fuel is an outcome of its own, which no [try]/[catch]
    intercepts, and the termination results show that it is never reached
    with enough fuel. *)

From stdpp Require Import gmap strings list.
From Stdlib Require Import ZArith Lia Ascii.

Local Open Scope string_scope.
Local Open Scope list_scope.

(** ** Effects *)

Module Eff.

Inductive Outcome (E A : Type) : Type :=
| Done (a : A)             (* the promise resolves *)
| Threw (e : E)            (* the promise rejects / an exception is thrown *)
| Exited (code : Z)        (* the process ends: process.exit(code), uncaught error *)
| OutOfFuel.               (* the model's recursion budget is exhausted *)

Arguments Done {E A} a.
Arguments Threw {E A} e.
Arguments Exited {E A} code.
Arguments OutOfFuel {E A}.

Section Monad.
Context {St Ev E : Type}.

(** A run yields an outcome, the world it leaves and the events it emitted. *)
Definition Run (A : Type) : Type := Outcome E A * St * list Ev.

Definition M (A : Type) : Type := St -> Run A.

Definition outcome {A} (r : Run A) : Outcome E A := r.1.1.
Definition final {A} (r : Run A) : St := r.1.2.
Definition trace {A} (r : Run A) : list Ev := r.2.

Definition ret {A} (a : A) : M A := fun s => (Done a, s, []).

Definition bind {A B} (m : M A) (k : A -> M B) : M B :=
  fun s =>
    match m s with
    | (Done a, s1, t1) =>
        match k a s1 with
        | (o, s2, t2) => (o, s2, t1 ++ t2)
        end
    | (Threw e, s1, t1) => (Threw e, s1, t1)
    | (Exited c, s1, t1) => (Exited c, s1, t1)
    | (OutOfFuel, s1, t1) => (OutOfFuel, s1, t1)
    end.

Definition throw {A} (e : E) : M A := fun s => (Threw e, s, []).
Definition exit {A} (c : Z) : M A := fun s => (Exited c, s, []).
Definition outOfFuel {A} : M A := fun s => (OutOfFuel, s, []).
Definition emit (ev : Ev) : M unit := fun s => (Done tt, s, [ev]).
Definition gets {A} (f : St -> A) : M A := fun s => (Done (f s), s, []).
Definition modify (f : St -> St) : M unit := fun s => (Done tt, f s, []).

(** [try { m } catch (e) { h e }]: only a thrown exception reaches the
    handler; the end of the process and fuel exhaustion pass through. *)
Definition tryCatch {A} (m : M A) (h : E -> M A) : M A :=
  fun s =>
    match m s with
    | (Threw e, s1, t1) =>
        match h e s1 with
        | (o, s2, t2) => (o, s2, t1 ++ t2)
        end
    | r => r
    end.

(** [for (const x of l) { await body(x) }] *)
Fixpoint forEach {A} (l : list A) (body : A -> M unit) : M unit :=
  match l with
  | [] => ret tt
  | x :: l' => bind (body x) (fun _ => forEach l' body)
  end.

(** A program respects a relation between the world before, the world
    after and the trace when every run of it is in the relation. *)
Definition respects (R : St -> St -> list Ev -> Prop) {A} (m : M A) : Prop :=
  forall s, R s (final (m s)) (trace (m s)).

(** The same for the runs that return normally. *)
Definition respectsDone (R : St -> St -> list Ev -> Prop) {A} (m : M A) : Prop :=
  forall s a, outcome (m s) = Done a -> R s (final (m s)) (trace (m s)).

(** Whether every event of the runs of a program satisfies [P]. *)
Definition emitsOnly (P : Ev -> Prop) {A} (m : M A) : Prop :=
  forall s, Forall P (trace (m s)).

End Monad.

Arguments M : clear implicits.
Arguments Run : clear implicits.

Module Notations.
Notation "x <- m ;; k" := (bind m (fun x => k))
  (at level 100, m at next level, right associativity,
   format "'[v' x  <-  m  ;; '/' k ']'").
Notation "m ;;; k" := (bind m (fun _ => k))
  (at level 100, right associativity,
   format "'[v' m  ;;; '/' k ']'").
End Notations.

End Eff.

Import Eff Eff.Notations.

(** JavaScript truthiness of a string: only the empty string is falsy. *)
Definition truthy (s : string) : bool :=
  match s with
  | EmptyString => false
  | String _ _ => true
  end.

(** [a || b] on values that are either [undefined] or a string. *)
Definition js_or (a b : option string) : option string :=
  match a with
  | Some s => if truthy s then Some s else b
  | None => b
  end.

(** [s.split(c)] *)
Fixpoint split (c : ascii) (s : string) : list string :=
  match s with
  | EmptyString => [EmptyString]
  | String a s' =>
      if Ascii.eqb a c then EmptyString :: split c s'
      else match split c s' with
           | h :: t => String a h :: t
           | [] => [String a EmptyString]
           end
  end.

(** [s.includes(c)] *)
Fixpoint includes (c : ascii) (s : string) : bool :=
  match s with
  | EmptyString => false
  | String a s' => Ascii.eqb a c || includes c s'
  end.

(** [s.replace(/[cs]/g, by)] for a class of single characters. *)
Fixpoint replaceAll (cs : list ascii) (by_ : ascii) (s : string) : string :=
  match s with
  | EmptyString => EmptyString
  | String a s' =>
      String (if existsb (Ascii.eqb a) cs then by_ else a) (replaceAll cs by_ s')
  end.

(** ** The package walker, [src/npm.js] *)

Module Npm.

(** The document served at [/{name}/{version}]: the fields the walker reads.
    [dependencies] may be absent ([metadata.dependencies || {}]); an object's
    entries are listed in [Object.entries] order. *)
Record VersionDoc := {
  dependencies : option (list (string * string));
  dist_tarball : string
}.

(** How the transfer of a tarball ends: the request itself rejects (nothing
    is written), the stream breaks after the destination was opened, or the
    pipeline completes. *)
Inductive Transfer := Rejected | Broken | Completed.

(** What is on disk at a path.  The walker only ever asks whether the path
    exists; the state records whether a past transfer completed. *)
Inductive FileState := Whole | Partial.

Inductive Error :=
| FetchError (url : string)     (* a rejected registry request *)
| StreamError (url : string).   (* a failed stream pipeline *)

Inductive Event :=
| LogProcessing (pkgSpec : string)
| GetVersionDoc (name version : string)      (* npmFetch.json(`/${name}/${version}`) *)
| Mkdirp (dir : string)
| LogDownloading (url : string)
| GetTarball (pkgSpec url : string)          (* npmFetch(tarballUrl), for pkgSpec *)
| LogDownloaded (tarballName : string)
| LogAlreadyDownloaded (tarballName : string)
| GetPackageDoc (name : string)              (* npmFetch.json(`/${name}`) *)
| ErrPackageDoc (name : string)              (* console.error in fetchPackageMetadata *)
| WarnNoVersion (depName range : string)     (* console.warn in the edge loop *)
| PromptVersion (name : string) (choices : list string)
| LogPackageDone (name : string)
| ErrPackage (name : string).                (* console.error in processPackage *)

#[global] Instance Event_eq_dec : EqDecision Event.
Proof. solve_decision. Defined.

(** The process state: the module-level [downloadedPackages] set and the
    files below the download directory. *)
Record World := {
  downloadedPackages : gset string;
  disk : gmap string FileState
}.

Definition addDownloaded (k : string) (w : World) : World :=
  {| downloadedPackages := {[k]} ∪ downloadedPackages w; disk := disk w |}.

Definition writeFile (p : string) (f : FileState) (w : World) : World :=
  {| downloadedPackages := downloadedPackages w; disk := <[p := f]> (disk w) |}.

(** The registry as the walker sees it during one run.  [None] is a rejected
    request. *)
Record Registry := {
  versionDoc : string -> string -> option VersionDoc;
  packageDoc : string -> option (list string);   (* Object.keys(metadata.versions) *)
  tarball : string -> Transfer
}.

Abbreviation Act := (M World Event Error).

Section Walker.
Variable reg : Registry.
(** Library functions the walker calls. *)
Variable maxSatisfying : list string -> string -> option string.  (* semver *)
Variable basename : string -> string.   (* path.basename(url.parse(u).pathname) *)
Variable path_join : string -> string -> string.
Variable promptForVersion : string -> list string -> string.      (* inquirer *)

Definition pkgSpecOf (name version : string) : string :=
  name +:+ "@" +:+ version.

Definition outputDir : string := path_join "downloads" "npm-packages".

Definition destPathOf (tarballUrl : string) : string :=
  path_join outputDir (basename tarballUrl).

Definition fetchPackageMetadata (name : string) : Act (list string) :=
  emit (GetPackageDoc name) ;;;
  match packageDoc reg name with
  | Some versions => ret versions
  | None => emit (ErrPackageDoc name) ;;; throw (FetchError ("/" +:+ name))
  end.

Definition fetchVersionDoc (name version : string) : Act VersionDoc :=
  emit (GetVersionDoc name version) ;;;
  match versionDoc reg name version with
  | Some d => ret d
  | None => throw (FetchError ("/" +:+ name +:+ "/" +:+ version))
  end.

(** Lines 64-83: request the tarball and pipe it to [destPath]. *)
Definition streamTarball (pkgSpec tarballUrl destPath : string) : Act unit :=
  emit (GetTarball pkgSpec tarballUrl) ;;;
  match tarball reg tarballUrl with
  | Rejected => throw (FetchError tarballUrl)
  | Broken => modify (writeFile destPath Partial) ;;; throw (StreamError tarballUrl)
  | Completed => modify (writeFile destPath Whole)
  end.

(** Lines 93-102: the body of the loop over the dependency entries;
    [walk] is the recursive call. *)
Definition resolveEdge (walk : string -> string -> Act unit)
    (entry : string * string) : Act unit :=
  let '(depName, depVersionRange) := entry in
  versions <- fetchPackageMetadata depName ;;
  match maxSatisfying versions depVersionRange with
  | Some v =>
      if truthy v then walk depName v
      else emit (WarnNoVersion depName depVersionRange)
  | None => emit (WarnNoVersion depName depVersionRange)
  end.

Fixpoint downloadTarball (fuel : nat) (name version : string) : Act unit :=
  match fuel with
  | O => outOfFuel
  | S fuel' =>
      let pkgSpec := pkgSpecOf name version in
      seen <- gets downloadedPackages ;;
      if decide (pkgSpec ∈ seen) then ret tt
      else
        modify (addDownloaded pkgSpec) ;;;
        emit (LogProcessing pkgSpec) ;;;
        metadata <- fetchVersionDoc name version ;;
        let deps := default [] (dependencies metadata) in
        let tarballUrl := dist_tarball metadata in
        let tarballName := basename tarballUrl in
        emit (Mkdirp outputDir) ;;;
        let destPath := path_join outputDir tarballName in
        files <- gets disk ;;
        (match files !! destPath with
         | None =>
             emit (LogDownloading tarballUrl) ;;;
             streamTarball pkgSpec tarballUrl destPath ;;;
             emit (LogDownloaded tarballName)
         | Some _ => emit (LogAlreadyDownloaded tarballName)
         end) ;;;
        forEach deps (resolveEdge (downloadTarball fuel'))
  end.

(** Lines 44-89 taken alone: what one invocation does for its own
    identity, from the insertion into the set to the end of the download.
    It yields the dependency entries the loop then walks. *)
Definition acquire (name version : string) : Act (list (string * string)) :=
  let pkgSpec := pkgSpecOf name version in
  modify (addDownloaded pkgSpec) ;;;
  emit (LogProcessing pkgSpec) ;;;
  metadata <- fetchVersionDoc name version ;;
  let tarballUrl := dist_tarball metadata in
  emit (Mkdirp outputDir) ;;;
  files <- gets disk ;;
  (match files !! destPathOf tarballUrl with
   | None =>
       emit (LogDownloading tarballUrl) ;;;
       streamTarball pkgSpec tarballUrl (destPathOf tarballUrl) ;;;
       emit (LogDownloaded (basename tarballUrl))
   | Some _ => emit (LogAlreadyDownloaded (basename tarballUrl))
   end) ;;;
  ret (default [] (dependencies metadata)).

(** [versions[0]] inside a template literal: [undefined] prints as such. *)
Definition firstOrUndefined (versions : list string) : string :=
  match versions with
  | [] => "undefined"
  | v :: _ => v
  end.

Definition processPackage (fuel : nat) (packageName : string) : Act unit :=
  tryCatch
    (versions <- fetchPackageMetadata packageName ;;
     selectedVersion <-
       (if decide (1 < length versions)%nat then
          emit (PromptVersion packageName (rev versions)) ;;;
          ret (promptForVersion packageName (rev versions))
        else ret (firstOrUndefined versions)) ;;
     downloadTarball fuel packageName selectedVersion ;;;
     emit (LogPackageDone packageName))
    (fun _ => emit (ErrPackage packageName)).

(** The [for (const pkg of packageNames)] loop of [main]. *)
Definition processPackages (fuel : nat) (packageNames : list string) : Act unit :=
  forEach packageNames (processPackage fuel).

End Walker.

(** *** Observations on a trace *)

(** The identities whose version document was requested, in order. *)
Definition versionDocKeys (t : list Event) : list string :=
  omap (fun e => match e with
                 | GetVersionDoc n v => Some (pkgSpecOf n v)
                 | _ => None
                 end) t.

(** The identities for which a tarball was requested, in order. *)
Definition tarballKeys (t : list Event) : list string :=
  omap (fun e => match e with
                 | GetTarball k _ => Some k
                 | _ => None
                 end) t.

(** The URLs of the tarball requests, in order. *)
Definition tarballUrls (t : list Event) : list string :=
  omap (fun e => match e with
                 | GetTarball _ u => Some u
                 | _ => None
                 end) t.

(** What a piece of the walker may do to the world, from [w] to [w'] with
    trace [t]: the set and the disk only grow, the identities it requests are
    exactly new ones, each at most once, and it requests no tarball whose
    destination was there at the start. *)
Record grows (dest : string -> string) (w w' : World) (t : list Event) : Prop := {
  grows_seen : downloadedPackages w ⊆ downloadedPackages w';
  grows_disk : disk w ⊆ disk w';
  grows_vkeys : forall k, k ∈ versionDocKeys t ->
                          k ∈ downloadedPackages w' /\ k ∉ downloadedPackages w;
  grows_tkeys : forall k, k ∈ tarballKeys t ->
                          k ∈ downloadedPackages w' /\ k ∉ downloadedPackages w;
  grows_vnodup : NoDup (versionDocKeys t);
  grows_tnodup : NoDup (tarballKeys t);
  grows_dest : forall u, u ∈ tarballUrls t -> disk w !! dest u = None
}.

(** The events of the walker proper: no prompt and no line of
    [processPackage], and a tarball request only for a URL the registry
    announced, that is for an identity whose version document names it. *)
Definition walkerEvent (reg : Registry) (e : Event) : Prop :=
  match e with
  | GetTarball k u =>
      exists n v d, k = pkgSpecOf n v /\ versionDoc reg n v = Some d /\ u = dist_tarball d
  | PromptVersion _ _ | LogPackageDone _ | ErrPackage _ => False
  | _ => True
  end.

(** Whether a piece of the walker, from [w] to [w'] with trace [t], has
    requested the version document of every identity it added to the set. *)
Definition visits (w w' : World) (t : list Event) : Prop :=
  forall k, k ∈ downloadedPackages w' ->
            k ∈ downloadedPackages w \/ k ∈ versionDocKeys t.

(** What a piece of the walker that returned normally has done, from [w] to
    [w'] with trace [t]: the files it found are as they were, the files it
    added are whole, and the tarball of every version document it requested
    is on disk. *)
Record delivers (reg : Registry) (dest : string -> string)
    (w w' : World) (t : list Event) : Prop := {
  delivers_disk : disk w ⊆ disk w';
  delivers_whole : forall p f, disk w' !! p = Some f ->
                     disk w !! p = Some f \/ (disk w !! p = None /\ f = Whole);
  delivers_files : forall n v, GetVersionDoc n v ∈ t ->
                     exists d, versionDoc reg n v = Some d /\
                               is_Some (disk w' !! dest (dist_tarball d))
}.

End Npm.

(** ** The image puller, download-docker.js *)

Module Docker.

Record Platform := {
  os : string;
  architecture : string;
  variant : option string          (* guarded by [m.platform.variant ? .. : ''] *)
}.

(** One descriptor of [manifest.manifests]. *)
Record Descriptor := {
  platform : Platform;
  digest : string
}.

(** A manifest response: the body's fields the puller reads, and the
    [content-type] response header it falls back to. *)
Record ManifestDoc := {
  mediaType : option string;       (* manifest.mediaType *)
  contentType : option string;     (* manifestResponse.headers['content-type'] *)
  manifests : list Descriptor;     (* read for an index only *)
  layers : list string;            (* the layers' digests, in manifest order *)
  config_digest : string           (* manifest.config.digest *)
}.

(** An entry of a tar file: the name in its header and, when content
    follows the header, the digest of the blob that was written there.
    [None] is a header that declares size 0 and has no content. *)
Record Entry := {
  entry_name : string;
  entry_blob : option string
}.

(** A tar file on disk. *)
Record Archive := {
  entries : list Entry;
  finalized : bool                 (* the end-of-archive marker was written *)
}.

(** The packer [tar.pack()] of tar-stream.  An entry that is not given its
    content as a string or a Buffer is written through a sink that [entry]
    returns; until that sink is ended the packer is busy with it. *)
Record Pack := {
  piping : option string;          (* pack._stream: the entry whose sink is open *)
  pending : list string;           (* release 3: the entries queued behind it *)
  finalizing : bool                (* finalize() is waiting for the open sink *)
}.

Inductive Error :=
| RequestFailed (url : string)     (* a rejected axios request *)
| TypeError                        (* a property read on [undefined] *)
| MkdirFailed (dir : string)       (* a rejected mkdirp *)
| OpenFailed (path : string)       (* the 'error' event of a write stream *)
| AlreadyPiping.                   (* tar-stream 2: 'already piping an entry' *)

Inductive Event :=
| LogStart (imageName : string)
| Mkdirp (dir : string)
| GetToken (name : string)
| GetTags (name token : string)
| PromptTag (choices : list string)
| ErrNoTags
| ErrTags (e : Error)
| LogAlreadyDownloaded (destPath : string)
| GetManifest (name reference token : string) (accept : list string)
| PromptPlatform (choices : list (string * nat))
| GetBlob (name digest token : string)
| LogLayerFailed (url token : string)       (* the console.log block of the layer loop *)
| LogComplete (destPath : string)
| ErrUnsupported
| ErrImage (imageName : string) (e : Error)
| Uncaught (e : Error).                     (* the exception the process dies of *)

#[global] Instance Error_eq_dec : EqDecision Error.
Proof. solve_decision. Defined.

#[global] Instance Event_eq_dec : EqDecision Event.
Proof. solve_decision. Defined.

(** The files below the download directory, and the packer of the pull
    that is under way. *)
Record World := {
  disk : gmap string Archive;
  pack : Pack
}.

(** Docker Hub as the puller sees it during one run.  [None] and [false] are
    rejected requests. *)
Record Hub := {
  token : string -> option string;                     (* by repository *)
  tagsList : string -> option (option (list string));  (* tagsResponse.data.tags *)
  manifest : string -> string -> option ManifestDoc;   (* by repository and reference *)
  blob : string -> string -> bool                      (* by repository and digest *)
}.

(** The releases of tar-stream differ in what [entry] does while a sink is
    open: release 2 throws, release 3 queues the entry. *)
Inductive Release := TarStream2 | TarStream3.

(** The machine the puller runs on: its file system, as far as the puller
    meets it, and the tar-stream it has installed. *)
Record Machine := {
  mkdirs : string -> bool;         (* whether mkdirp(dir) resolves *)
  opens : string -> bool;          (* whether a file can be opened for writing at the path *)
  tarStream : Release
}.

Abbreviation Act := (M World Event Error).

Definition mtManifestList : string := "application/vnd.docker.distribution.manifest.list.v2+json".
Definition mtOciIndex : string := "application/vnd.oci.image.index.v1+json".
Definition mtOciManifest : string := "application/vnd.oci.image.manifest.v1+json".
Definition mtDockerManifest : string := "application/vnd.docker.distribution.manifest.v2+json".
Definition mtContainerImage : string := "application/vnd.docker.container.image.v1+json".
Definition mtJson : string := "application/json".

Definition acceptAny : list string :=
  [mtOciIndex; mtManifestList; mtOciManifest; mtDockerManifest; mtContainerImage; mtJson].
Definition acceptConcrete : list string :=
  [mtOciManifest; mtDockerManifest; mtContainerImage; mtJson].

Definition isIndex (mt : option string) : bool :=
  match mt with
  | Some s => String.eqb s mtManifestList || String.eqb s mtOciIndex
  | None => false
  end.

Definition isConcrete (mt : option string) : bool :=
  match mt with
  | Some s => String.eqb s mtOciManifest || String.eqb s mtDockerManifest
  | None => false
  end.

Definition registry : string := "registry-1.docker.io".

Definition blobUrl (name dgst : string) : string :=
  "https://" +:+ registry +:+ "/v2/" +:+ name +:+ "/blobs/" +:+ dgst.

Definition manifestUrl (name reference : string) : string :=
  "https://" +:+ registry +:+ "/v2/" +:+ name +:+ "/manifests/" +:+ reference.

(** The label of a platform choice: [`${os}/${architecture}${variant}`]. *)
Definition platformLabel (p : Platform) : string :=
  os p +:+ "/" +:+ architecture p +:+
  match variant p with
  | Some v => if truthy v then " (" +:+ v +:+ ")" else ""
  | None => ""
  end.

Definition platformChoices (ms : list Descriptor) : list (string * nat) :=
  imap (fun index m => (platformLabel (platform m), index)) ms.

Definition layerEntryName (dgst : string) : string :=
  "layer-" +:+ replaceAll [":"%char; "/"%char] "_"%char dgst +:+ ".tar.gz".

(** *** The file and the packer *)

(** A header of size 0: what [entry({ name }, ..)] writes when its second
    argument is neither a string nor a Buffer. *)
Definition emptyEntry (name : string) : Entry :=
  {| entry_name := name; entry_blob := None |}.

Definition newPack : Pack :=
  {| piping := None; pending := []; finalizing := false |}.

Definition setPack (pk : Pack) (w : World) : World :=
  {| disk := disk w; pack := pk |}.

(** The file a write stream opens: created, or truncated, and empty. *)
Definition createFile (p : string) (w : World) : World :=
  {| disk := <[p := {| entries := []; finalized := false |}]> (disk w);
     pack := pack w |}.

(** What the packer pushes reaches the file it is piped to. *)
Definition writeHeader (p name : string) (w : World) : World :=
  {| disk := alter (fun a => {| entries := entries a ++ [emptyEntry name];
                                finalized := finalized a |}) p (disk w);
     pack := pack w |}.

Definition writeEnd (p : string) (w : World) : World :=
  {| disk := alter (fun a => {| entries := entries a; finalized := true |}) p (disk w);
     pack := pack w |}.

Section Puller.
Variable machine : Machine.
Variable hub : Hub.
Variable path_join : string -> string -> string.
Variable sortTags : list string -> list string.          (* tags.sort(localeCompare ...) *)
Variable chooseTag : list string -> string.              (* inquirer, selectedTag *)
Variable choosePlatform : list (string * nat) -> nat.    (* inquirer, selectedManifestIndex *)

(** [await mkdirp(dir)]. *)
Definition mkdirp (dir : string) : Act unit :=
  emit (Mkdirp dir) ;;;
  if mkdirs machine dir then ret tt else throw (MkdirFailed dir).

(** [pack.entry({ name }, stream)], for a packer piped to the file at [p].
    The puller passes the response stream where [entry] takes the content
    as a string or a Buffer (or a callback): a stream is none of these, so
    the header is written with size 0 and the sink that [entry] returns,
    which the puller does not keep, stays open.  While it is open release 2
    throws on [entry] and release 3 queues the entry. *)
Definition packEntry (p name : string) : Act unit :=
  pk <- gets pack ;;
  match piping pk with
  | None =>
      modify (writeHeader p name) ;;;
      modify (setPack {| piping := Some name; pending := pending pk;
                         finalizing := finalizing pk |})
  | Some _ =>
      match tarStream machine with
      | TarStream2 => throw AlreadyPiping
      | TarStream3 =>
          modify (setPack {| piping := piping pk; pending := pending pk ++ [name];
                             finalizing := finalizing pk |})
      end
  end.

(** [pack.finalize()]: the end-of-archive marker is written once no sink
    is open and none is queued; until then the call only leaves a note. *)
Definition packFinalize (p : string) : Act unit :=
  pk <- gets pack ;;
  match piping pk, pending pk with
  | None, [] => modify (writeEnd p)
  | _, _ =>
      modify (setPack {| piping := piping pk; pending := pending pk;
                         finalizing := true |})
  end.

Definition getToken (name : string) : Act string :=
  emit (GetToken name) ;;;
  match token hub name with
  | Some t => ret t
  | None => throw (RequestFailed "https://auth.docker.io/token")
  end.

Definition getManifest (name reference tok : string) (accept : list string)
  : Act ManifestDoc :=
  emit (GetManifest name reference tok accept) ;;;
  match manifest hub name reference with
  | Some m => ret m
  | None => throw (RequestFailed (manifestUrl name reference))
  end.

Definition getBlob (name dgst tok : string) : Act unit :=
  emit (GetBlob name dgst tok) ;;;
  if blob hub name dgst then ret tt else throw (RequestFailed (blobUrl name dgst)).

Definition selectTag (name : string) : Act string :=
  tryCatch
    (tok <- getToken name ;;
     emit (GetTags name tok) ;;;
     match tagsList hub name with
     | None =>
         throw (RequestFailed ("https://registry-1.docker.io/v2/" +:+ name +:+ "/tags/list"))
     | Some None | Some (Some []) => emit ErrNoTags ;;; exit 1
     | Some (Some tags) =>
         let choices := rev (sortTags tags) in
         emit (PromptTag choices) ;;;
         ret (chooseTag choices)
     end)
    (fun e => emit (ErrTags e) ;;; exit 1).

(** Lines 55-113: the first manifest request and, for an index, the
    platform prompt and the request by digest. *)
Definition fetchManifest (name tag tok : string) : Act (ManifestDoc * option string) :=
  m <- getManifest name tag tok acceptAny ;;
  let mt := js_or (mediaType m) (contentType m) in
  if isIndex mt then
    let choices := platformChoices (manifests m) in
    emit (PromptPlatform choices) ;;;
    match manifests m !! choosePlatform choices with
    | None => throw TypeError
    | Some selectedManifest =>
        m' <- getManifest name (digest selectedManifest) tok acceptConcrete ;;
        ret (m', js_or (mediaType m') (contentType m'))
    end
  else ret (m, mt).

(** Lines 137-159: one iteration of the layer loop.  Both the request and
    the call of [pack.entry] are inside the [try]. *)
Definition addLayer (name tok destPath dgst : string) : Act unit :=
  tryCatch
    (getBlob name dgst tok ;;;
     packEntry destPath (layerEntryName dgst))
    (fun _ => emit (LogLayerFailed (blobUrl name dgst) tok)).

(** Lines 116-174: pack the layers and the configuration into the archive.

    [fs.createWriteStream(destPath)] returns at once and opens the file
    later, while the function is suspended on its next request.  The stream
    has no listener for ['error']; when the file cannot be opened the event
    is an uncaught exception: no [catch] of the program sees it and the
    process ends with status 1.  The file system is taken to answer before
    the registry does, so the process ends with that request sent and not
    yet answered. *)
Definition packImage (name tok destPath : string) (m : ManifestDoc) : Act unit :=
  modify (setPack newPack) ;;;
  if opens machine destPath then
    modify (createFile destPath) ;;;
    forEach (layers m) (addLayer name tok destPath) ;;;
    getBlob name (config_digest m) tok ;;;
    packEntry destPath "config.json" ;;;
    packFinalize destPath ;;;
    emit (LogComplete destPath)
  else
    emit (GetBlob name (List.hd (config_digest m) (layers m)) tok) ;;;
    emit (Uncaught (OpenFailed destPath)) ;;;
    exit 1.

Definition outputDir : string := path_join "downloads" "docker-images".

Definition destPathOf (name tag : string) : string :=
  path_join outputDir (replaceAll ["/"%char] "_"%char name +:+ "_" +:+ tag +:+ ".tar").

(** [let [name, tag] = imageName.split(':')], with the default namespace. *)
Definition imageRef (imageName : string) : string * option string :=
  let parts := split ":"%char imageName in
  let name := default "" (parts !! 0%nat) in
  (if includes "/"%char name then name else "library/" +:+ name, parts !! 1%nat).

(** [mkdirp] (line 17) and [selectTag] (line 28) are called before the
    [try] of line 41: what they throw leaves the function. *)
Definition downloadDockerImage (imageName : string) : Act unit :=
  emit (LogStart imageName) ;;;
  mkdirp outputDir ;;;
  let '(name, tag0) := imageRef imageName in
  tag <- (match tag0 with
          | Some t => if truthy t then ret t else selectTag name
          | None => selectTag name
          end) ;;
  let destPath := destPathOf name tag in
  files <- gets disk ;;
  match files !! destPath with
  | Some _ => emit (LogAlreadyDownloaded destPath)
  | None =>
      tryCatch
        (tok <- getToken name ;;
         r <- fetchManifest name tag tok ;;
         let '(m, mt) := r in
         if isConcrete mt then packImage name tok destPath m
         else emit ErrUnsupported)
        (fun e => emit (ErrImage imageName e))
  end.

(** The [for (const name of imageNames)] loop of [main]. *)
Definition downloadImages (imageNames : list string) : Act unit :=
  forEach imageNames downloadDockerImage.

End Puller.

(** *** Observations on the layer loop *)

(** The names of the entries the layer loop asks the packer for: one for
    each layer whose blob request succeeds, in manifest order. *)
Definition layerNames (hub : Hub) (name : string) (ds : list string) : list string :=
  map layerEntryName (List.filter (blob hub name) ds).

(** The names of all the entries a pull asks the packer for: the layers
    that arrived and, when its blob arrived, the configuration. *)
Definition entryNames (hub : Hub) (name : string) (m : ManifestDoc) : list string :=
  layerNames hub name (layers m) ++
  (if blob hub name (config_digest m) then ["config.json"] else []).

(** *** Observations on a trace *)

(** The digests of the blob requests, in order. *)
Definition blobRequests (t : list Event) : list string :=
  omap (fun e => match e with
                 | GetBlob _ d _ => Some d
                 | _ => None
                 end) t.

(** The references of the manifest requests, in order. *)
Definition manifestRequests (t : list Event) : list string :=
  omap (fun e => match e with
                 | GetManifest _ r _ _ => Some r
                 | _ => None
                 end) t.

(** An event that stays within one repository: a request names that
    repository, and a request to the registry carries a token the token
    service issued for it. *)
Definition scopedTo (hub : Hub) (name : string) (e : Event) : Prop :=
  match e with
  | GetToken n => n = name
  | GetTags n t | GetManifest n _ t _ | GetBlob n _ t =>
      n = name /\ token hub name = Some t
  | _ => True
  end.

End Docker.

(** ** The command loops *)

Module Session.

(** Both programs end with the same loop, [main] of [src/npm.js] and
    [main] of download-docker.js: the names come from the command line or,
    when there is none, from a prompt; [:q] at the prompt ends the process;
    each name is handed to the program's function; a confirmation decides
    on another round.  The events of that function are kept, tagged
    [Work], among those of the loop. *)
Inductive Event (Ev E : Type) : Type :=
| Work (e : Ev)              (* an event of the function called on a name *)
| PromptName                 (* promptForPackageName / promptForImageName *)
| LogBye                     (* console.log of the farewell line *)
| PromptContinue             (* the confirmation prompt *)
| ErrMain (e : E).           (* console.error in main's catch *)

Arguments Work {Ev E} e.
Arguments PromptName {Ev E}.
Arguments LogBye {Ev E}.
Arguments PromptContinue {Ev E}.
Arguments ErrMain {Ev E} e.

(** The events of the function called on the names, in order. *)
Definition work {Ev E : Type} (t : list (Event Ev E)) : list Ev :=
  omap (fun e => match e with
                 | Work e => Some e
                 | _ => None
                 end) t.

Section Loop.
Context {St Ev E : Type}.
Variable processItem : string -> M St Ev E unit.
Variable splitWords : string -> list string.   (* s.split(/\s+/) *)
Variable askName : nat -> string.    (* what the name prompt returns in a round *)
Variable askAgain : nat -> bool.     (* the answer to the confirmation in a round *)

Definition lift {A} (m : M St Ev E A) : M St (Event Ev E) E A :=
  fun s =>
    match m s with
    | (o, s', t) => (o, s', map Work t)
    end.

(** The [while (true)] loop; [fuel] bounds the number of rounds, [round]
    counts them, [names] is the list the round starts with. *)
Fixpoint rounds (fuel round : nat) (names : list string)
  : M St (Event Ev E) E unit :=
  match fuel with
  | O => outOfFuel
  | S fuel' =>
      names <- (match names with
                | [] =>
                    emit PromptName ;;;
                    if String.eqb (askName round) ":q"
                    then emit LogBye ;;; exit 0
                    else ret (splitWords (askName round))
                | _ :: _ => ret names
                end) ;;
      forEach names (fun name => lift (processItem name)) ;;;
      emit PromptContinue ;;;
      if askAgain round then rounds fuel' (S round) []
      else emit LogBye
  end.

Definition main (fuel : nat) (argv : list string) : M St (Event Ev E) E unit :=
  tryCatch (rounds fuel 0 argv) (fun e => emit (ErrMain e)).

End Loop.

End Session.

(** [main] of [src/npm.js]; [walkFuel] is the fuel of each walk. *)
Definition npmMain (reg : Npm.Registry)
    (maxSatisfying : list string -> string -> option string)
    (basename : string -> string) (path_join : string -> string -> string)
    (promptForVersion : string -> list string -> string)
    (splitWords : string -> list string)
    (askName : nat -> string) (askAgain : nat -> bool)
    (walkFuel fuel : nat) (argv : list string)
  : M Npm.World (Session.Event Npm.Event Npm.Error) Npm.Error unit :=
  Session.main
    (Npm.processPackage reg maxSatisfying basename path_join promptForVersion walkFuel)
    splitWords askName askAgain fuel argv.

(** [main] of download-docker.js. *)
Definition dockerMain (machine : Docker.Machine) (hub : Docker.Hub)
    (path_join : string -> string -> string)
    (sortTags : list string -> list string) (chooseTag : list string -> string)
    (choosePlatform : list (string * nat) -> nat)
    (splitWords : string -> list string)
    (askName : nat -> string) (askAgain : nat -> bool)
    (fuel : nat) (argv : list string)
  : M Docker.World (Session.Event Docker.Event Docker.Error) Docker.Error unit :=
  Session.main
    (Docker.downloadDockerImage machine hub path_join sortTags chooseTag choosePlatform)
    splitWords askName askAgain fuel argv.

(** ** The version resolver *)

Module Semver.

(** The walker resolves a range with [semver.maxSatisfying], a function of
    the [semver] package, whose code is not among the sources.  The
    definitions below follow the specification (section 4.1 and the first
    testable property). *)

(** Modelled from the spec: a pre-release identifier of a version, numeric or
    alphanumeric, as semver precedence distinguishes them. *)
Inductive Ident :=
| Numeric (n : N)
| Alphanumeric (s : string).

(** Modelled from the spec: what a version string denotes: the three
    numbers, the pre-release identifiers (empty for a release) and the
    identifiers of the build metadata.  Precedence reads all but the
    last. *)
Record Version := {
  major : N;
  minor : N;
  patch : N;
  prerelease : list Ident;
  build : list string
}.

(** A comparison that is a total order: equal only on equal arguments,
    antisymmetric, transitive. *)
Class TotalCmp {A : Type} (cmp : A -> A -> comparison) : Prop := {
  cmp_eq : forall a b, cmp a b = Eq -> a = b;
  cmp_antisym : forall a b, cmp b a = CompOpp (cmp a b);
  cmp_trans : forall a b c, cmp a b = Lt -> cmp b c = Lt -> cmp a c = Lt
}.

(** Compare on the first criterion, on the second when the first ties. *)
Definition thenCmp (c d : comparison) : comparison :=
  match c with
  | Eq => d
  | _ => c
  end.

(** Left-to-right comparison of two lists; a proper prefix is smaller. *)
Fixpoint lexCmp {A : Type} (cmp : A -> A -> comparison) (p q : list A) : comparison :=
  match p, q with
  | [], [] => Eq
  | [], _ :: _ => Lt
  | _ :: _, [] => Gt
  | a :: p', b :: q' => thenCmp (cmp a b) (lexCmp cmp p' q')
  end.

(** Modelled from the spec: semver precedence of two pre-release
    identifiers: numeric ones by value, alphanumeric ones in ASCII order, a
    numeric one below an alphanumeric one. *)
Definition compareIdent (a b : Ident) : comparison :=
  match a, b with
  | Numeric x, Numeric y => (x ?= y)%N
  | Numeric _, Alphanumeric _ => Lt
  | Alphanumeric _, Numeric _ => Gt
  | Alphanumeric s, Alphanumeric t => String.compare s t
  end.

(** Modelled from the spec: semver precedence of the pre-release parts: a
    release is above every pre-release of the same numbers; two pre-releases
    compare identifier by identifier. *)
Definition comparePre (p q : list Ident) : comparison :=
  match p, q with
  | [], [] => Eq
  | [], _ :: _ => Gt
  | _ :: _, [] => Lt
  | _, _ => lexCmp compareIdent p q
  end.

(** Modelled from the spec: semver precedence: major, minor, patch, then the
    pre-release part.  Build metadata takes no part in it. *)
Definition compare (v w : Version) : comparison :=
  thenCmp (major v ?= major w)%N
    (thenCmp (minor v ?= minor w)%N
       (thenCmp (patch v ?= patch w)%N
          (comparePre (prerelease v) (prerelease w)))).

(** Comparison of pairs, first component first. *)
Definition pairCmp {A B : Type} (cmpA : A -> A -> comparison)
    (cmpB : B -> B -> comparison) (x y : A * B) : comparison :=
  thenCmp (cmpA x.1 y.1) (cmpB x.2 y.2).

(** The fields of a version that precedence reads, in the order it reads
    them. *)
Definition fields (v : Version) : N * (N * (N * list Ident)) :=
  (major v, (minor v, (patch v, prerelease v))).

Section Resolve.
(** How a string is read as a version, the range language and what it
    means for a version to satisfy a range are those of semver; the
    resolver only reads, tests satisfaction and compares. *)
Variable parse : string -> option Version.
Variable Range : Type.
Variable satisfies : Version -> Range -> bool.

(** Whether a version string satisfies a range; a string that is not a
    version satisfies none. *)
Definition meets (R : Range) (s : string) : bool :=
  match parse s with
  | Some v => satisfies v R
  | None => false
  end.

(** Precedence of two version strings. *)
Definition precedence (s t : string) : comparison :=
  match parse s, parse t with
  | Some v, Some w => compare v w
  | _, _ => Eq
  end.

(** One step of the scan: a satisfying version replaces the best one so
    far when it is strictly above it. *)
Definition keepBest (R : Range) (best : option string) (s : string)
  : option string :=
  if meets R s then
    match best with
    | None => Some s
    | Some b => match precedence b s with
                | Lt => Some s
                | _ => Some b
                end
    end
  else best.

(** Modelled from the spec: [resolve(availableVersions, range)], the
    highest of the available version strings that satisfy the range,
    [None] standing for NotFound.  The code of [semver.maxSatisfying] is
    missing from the sources; the strings are scanned in the order they
    are listed. *)
Definition resolve (V : list string) (R : Range) : option string :=
  foldl (keepBest R) None V.
End Resolve.

End Semver.

(** ** Concrete registries *)

Module Scenario.

(** Stand-ins for the library functions: [path.join] on two plain segments,
    the last segment of a URL path, and [semver.maxSatisfying] on ranges
    that are exact versions. *)
Definition join (a b : string) : string := a +:+ "/" +:+ b.

Definition lastSegment (u : string) : string :=
  List.last (split "/"%char u) "".

Definition exactVersion (versions : list string) (range : string) : option string :=
  if bool_decide (range ∈ versions) then Some range else None.

Definition firstChoice (name : string) (choices : list string) : string :=
  List.hd "" choices.

(** An input line that holds one word: the whole line is the only word. *)
Definition oneWord (s : string) : list string := [s].

Module Packages.
Import Npm.

Definition empty : World := {| downloadedPackages := ∅; disk := ∅ |}.

Definition doc (deps : list (string * string)) (url : string) : VersionDoc :=
  {| dependencies := Some deps; dist_tarball := url |}.

(** A depends on B and B depends on A. *)
Definition cycle : Registry := {|
  versionDoc := fun n v =>
    if String.eqb v "1.0.0" then
      if String.eqb n "A" then Some (doc [("B", "1.0.0")] "https://r/A/-/A-1.0.0.tgz")
      else if String.eqb n "B" then Some (doc [("A", "1.0.0")] "https://r/B/-/B-1.0.0.tgz")
      else None
    else None;
  packageDoc := fun n =>
    if String.eqb n "A" || String.eqb n "B" then Some ["1.0.0"] else None;
  tarball := fun _ => Completed
|}.

Definition cycleIds : gset string := {["A@1.0.0"; "B@1.0.0"]}.

(** P depends on X, Y and Z, in that order; the registry refuses the
    package document of X, has no version of Z in the range asked, and
    serves Y. *)
Definition flaky : Registry := {|
  versionDoc := fun n v =>
    if String.eqb v "1.0.0" then
      if String.eqb n "P" then
        Some (doc [("X", "1.0.0"); ("Y", "1.0.0")] "https://r/P/-/P-1.0.0.tgz")
      else if String.eqb n "Q" then
        Some (doc [("Z", "2.0.0"); ("Y", "1.0.0")] "https://r/Q/-/Q-1.0.0.tgz")
      else if String.eqb n "Y" then Some (doc [] "https://r/Y/-/Y-1.0.0.tgz")
      else None
    else None;
  packageDoc := fun n =>
    if String.eqb n "X" then None
    else if String.eqb n "P" || String.eqb n "Q" || String.eqb n "Y" || String.eqb n "Z"
         then Some ["1.0.0"]
         else None;
  tarball := fun _ => Completed
|}.

(** A disk on which broken transfers left parts of the tarballs of P and
    of Q. *)
Definition leftover : World := {|
  downloadedPackages := ∅;
  disk := {[ "downloads/npm-packages/P-1.0.0.tgz" := Partial;
             "downloads/npm-packages/Q-1.0.0.tgz" := Partial ]}
|}.
(** P has no dependency and its transfer breaks; in [mended] the same
    registry serves the tarball. *)
Definition broken : Registry := {|
  versionDoc := fun n v =>
    if String.eqb n "P" && String.eqb v "1.0.0"
    then Some (doc [] "https://r/P/-/P-1.0.0.tgz") else None;
  packageDoc := fun n => if String.eqb n "P" then Some ["1.0.0"] else None;
  tarball := fun _ => Broken
|}.

Definition mended : Registry := {|
  versionDoc := versionDoc broken;
  packageDoc := packageDoc broken;
  tarball := fun _ => Completed
|}.

(** Two scoped packages whose tarballs have the same file name. *)
Definition twins : Registry := {|
  versionDoc := fun n v =>
    if String.eqb v "1.0.0" then
      if String.eqb n "@a/foo" then Some (doc [] "https://r/@a/foo/-/foo-1.0.0.tgz")
      else if String.eqb n "@b/foo" then Some (doc [] "https://r/@b/foo/-/foo-1.0.0.tgz")
      else None
    else None;
  packageDoc := fun n =>
    if String.eqb n "@a/foo" || String.eqb n "@b/foo" then Some ["1.0.0"] else None;
  tarball := fun _ => Completed
|}.

(** M has two versions, S one, E none. *)
Definition shelf : Registry := {|
  versionDoc := fun n v =>
    if String.eqb n "M" && (String.eqb v "1.0.0" || String.eqb v "2.0.0")
    then Some (doc [] ("https://r/M/-/M-" +:+ v +:+ ".tgz"))
    else if String.eqb n "S" && String.eqb v "1.0.0"
    then Some (doc [] "https://r/S/-/S-1.0.0.tgz")
    else None;
  packageDoc := fun n =>
    if String.eqb n "M" then Some ["1.0.0"; "2.0.0"]
    else if String.eqb n "S" then Some ["1.0.0"]
    else if String.eqb n "E" then Some []
    else None;
  tarball := fun _ => Completed
|}.
End Packages.

Module Images.
Import Docker.

Definition empty : World := {| disk := ∅; pack := newPack |}.

Definition amd64 : Descriptor :=
  {| platform := {| os := "linux"; architecture := "amd64"; variant := None |};
     digest := "sha256:aaa" |}.

Definition arm64 : Descriptor :=
  {| platform := {| os := "linux"; architecture := "arm64"; variant := Some "v8" |};
     digest := "sha256:bbb" |}.

Definition index : ManifestDoc :=
  {| mediaType := Some mtOciIndex; contentType := None;
     manifests := [amd64; arm64]; layers := []; config_digest := "" |}.

Definition concrete : ManifestDoc :=
  {| mediaType := None; contentType := Some mtDockerManifest;
     manifests := [];
     layers := ["sha256:l1"; "sha256:l2"; "sha256:l3"];
     config_digest := "sha256:cfg" |}.

(** A hub that serves alpine:3.18 as an index of two platforms, fails on
    the second layer of the arm64 image, and lists no tag for the
    repository library/untagged. *)
Definition hub : Hub := {|
  token := fun n =>
    if String.eqb n "library/alpine" then Some "tok"
    else if String.eqb n "library/untagged" then Some "tok2"
    else None;
  tagsList := fun n =>
    if String.eqb n "library/untagged" then Some (Some []) else None;
  manifest := fun n r =>
    if String.eqb r "3.18" then Some index
    else if String.eqb r "sha256:bbb" then Some concrete
    else None;
  blob := fun n d => negb (String.eqb d "sha256:l2")
|}.

(** The same hub when every blob arrives, and when only the
    configuration blob is refused. *)
Definition healthy : Hub := {|
  token := token hub; tagsList := tagsList hub; manifest := manifest hub;
  blob := fun n d => true
|}.

Definition noConfig : Hub := {|
  token := token hub; tagsList := tagsList hub; manifest := manifest hub;
  blob := fun n d => negb (String.eqb d "sha256:cfg")
|}.

(** A registry that serves the same image, in full, under every name. *)
Definition anyRepo : Hub := {|
  token := fun n => Some "tok";
  tagsList := fun n => None;
  manifest := fun n r => Some concrete;
  blob := fun n d => true
|}.

(** A disk with the archive of another image, left unfinished. *)
Definition other : World := {|
  disk := {[ "downloads/docker-images/library_busybox_1.36.tar" :=
               {| entries := [{| entry_name := "layer-sha256_b1.tar.gz";
                                 entry_blob := Some "sha256:b1" |}];
                  finalized := false |} ]};
  pack := newPack
|}.

(** A machine on which every directory can be made and every file opened,
    with either release of tar-stream; one on which a file opens only right
    below the output directory, its only directory; and one on which
    nothing can be written. *)
Definition sound2 : Machine :=
  {| mkdirs := fun _ => true; opens := fun _ => true; tarStream := TarStream2 |}.

Definition sound3 : Machine :=
  {| mkdirs := fun _ => true; opens := fun _ => true; tarStream := TarStream3 |}.

Definition flat : Machine :=
  {| mkdirs := fun _ => true;
     opens := fun p => bool_decide (length (split "/"%char p) = 3%nat);
     tarStream := TarStream3 |}.

Definition readOnly : Machine :=
  {| mkdirs := fun _ => false; opens := fun _ => false; tarStream := TarStream3 |}.

Definition second (choices : list (string * nat)) : nat := 1.
Definition anyTag (choices : list string) : string := List.hd "latest" choices.
Definition sorted (tags : list string) : list string := tags.
End Images.

Module Versions.
Import Semver.

(** A reader of version strings, enough for the examples: three numbers,
    then the pre-release identifiers after a hyphen and the build metadata
    after a plus sign. *)
Definition digitOf (c : ascii) : option N :=
  let n := N_of_ascii c in
  if (48 <=? n)%N && (n <=? 57)%N then Some (n - 48)%N else None.

Fixpoint numeral (acc : N) (s : string) : option N :=
  match s with
  | EmptyString => Some acc
  | String c s' =>
      match digitOf c with
      | Some d => numeral (acc * 10 + d)%N s'
      | None => None
      end
  end.

Definition readNumber (s : string) : option N :=
  match s with
  | EmptyString => None
  | String _ _ => numeral 0 s
  end.

Definition readIdent (s : string) : Ident :=
  match readNumber s with
  | Some n => Numeric n
  | None => Alphanumeric s
  end.

(** The text before the first [c] and, when there is one, the text after it. *)
Fixpoint cut (c : ascii) (s : string) : string * option string :=
  match s with
  | EmptyString => (EmptyString, None)
  | String x s' =>
      if Ascii.eqb x c then (EmptyString, Some s')
      else let '(a, b) := cut c s' in (String x a, b)
  end.

Definition readVersion (s : string) : option Version :=
  let '(rest, meta) := cut "+"%char s in
  let '(core, pre) := cut "-"%char rest in
  match split "."%char core with
  | [a; b; c] =>
      match readNumber a, readNumber b, readNumber c with
      | Some x, Some y, Some z =>
          Some {| major := x; minor := y; patch := z;
                  prerelease := match pre with
                                | Some p => map readIdent (split "."%char p)
                                | None => []
                                end;
                  build := match meta with
                           | Some m => split "."%char m
                           | None => []
                           end |}
      | _, _, _ => None
      end
  | _ => None
  end.

(** A range of the caret kind: the releases of one major version. *)
Definition sameMajor (v : Version) (m : N) : bool :=
  N.eqb (major v) m && bool_decide (prerelease v = []).

Definition available : list string :=
  ["1.2.0"; "2.0.0"; "1.10.1"; "1.11.0-beta.2"; "1.9.9"; "latest"].

Definition shuffled : list string :=
  ["1.9.9"; "1.10.1"; "latest"; "1.11.0-beta.2"; "1.2.0"; "2.0.0"; "1.10.1"].

(** Two builds of one version. *)
Definition builds : list string := ["1.0.0+a"; "1.0.0+b"].
End Versions.

End Scenario.

(** * Properties *)

(** ** Laws of the effect monad *)

Section EffFacts.
Context {St Ev E : Type}.
Local Abbreviation Act := (M St Ev E).

Lemma run_eta {A} (r : Run St Ev E A) : r = (outcome r, final r, trace r).
Proof. by destruct r as [[o s] t]. Qed.

Lemma bind_Done {A B} (m : Act A) (k : A -> Act B) s a s1 t1 :
  m s = (Done a, s1, t1) ->
  bind m k s = (outcome (k a s1), final (k a s1), t1 ++ trace (k a s1)).
Proof. intros H. unfold bind. rewrite H. by destruct (k a s1) as [[o s2] t2]. Qed.

Lemma bind_Threw {A B} (m : Act A) (k : A -> Act B) s e s1 t1 :
  m s = (Threw e, s1, t1) -> bind m k s = (Threw e, s1, t1).
Proof. intros H. unfold bind. by rewrite H. Qed.

Lemma bind_ret_l {A B} (a : A) (k : A -> Act B) s : bind (ret a) k s = k a s.
Proof. unfold bind, ret. by destruct (k a s) as [[o s2] t2]. Qed.

Lemma bind_assoc {A B C} (m : Act A) (k : A -> Act B) (h : B -> Act C) s :
  bind (bind m k) h s = bind m (fun a => bind (k a) h) s.
Proof.
  unfold bind. destruct (m s) as [[[a|e|c|] s1] t1]; try done.
  destruct (k a s1) as [[[b|e|c|] s2] t2]; try done.
  destruct (h b s2) as [[o s3] t3]. by rewrite app_assoc.
Qed.

(** Fuel exhaustion inside a sequence is fuel exhaustion of the sequence. *)
Lemma bind_fuel_l {A B} (m : Act A) (k : A -> Act B) s :
  outcome (m s) = OutOfFuel -> outcome (bind m k s) = OutOfFuel.
Proof.
  unfold bind. destruct (m s) as [[[a|e|c|] s1] t1]; try done.
Qed.

Lemma bind_has_fuel {A B} (m : Act A) (k : A -> Act B) s :
  outcome (m s) <> OutOfFuel ->
  (forall a, outcome (m s) = Done a -> outcome (k a (final (m s))) <> OutOfFuel) ->
  outcome (bind m k s) <> OutOfFuel.
Proof.
  unfold bind. destruct (m s) as [[[a|e|c|] s1] t1]; try done.
  intros _ Hk. specialize (Hk a eq_refl). cbn in Hk.
  by destruct (k a s1) as [[[]]].
Qed.

Lemma bind_Done_inv {A B} (m : Act A) (k : A -> Act B) s b :
  outcome (bind m k s) = Done b ->
  exists a s1 t1, m s = (Done a, s1, t1) /\ outcome (k a s1) = Done b.
Proof.
  unfold bind. destruct (m s) as [[[a|e|c|] s1] t1]; try done.
  intros H. exists a, s1, t1. split; [done|].
  by destruct (k a s1) as [[o s2] t2].
Qed.

Lemma forEach_cons {A} (x : A) l (body : A -> Act unit) s :
  forEach (x :: l) body s = bind (body x) (fun _ => forEach l body) s.
Proof. done. Qed.

Lemma forEach_app {A} (l1 l2 : list A) (body : A -> Act unit) s :
  forEach (l1 ++ l2) body s = bind (forEach l1 body) (fun _ => forEach l2 body) s.
Proof.
  revert s. induction l1 as [|x l1 IH]; intros s; cbn [app].
  - unfold bind. cbn. by destruct (forEach l2 body s) as [[o s2] t2].
  - rewrite forEach_cons. unfold bind. rewrite forEach_cons. unfold bind.
    destruct (body x s) as [[[[]|e|c|] s1] t1]; try done.
    rewrite IH. unfold bind.
    destruct (forEach l1 body s1) as [[[[]|e|c|] s2] t2]; try done.
    destruct (forEach l2 body s2) as [[o s3] t3]. by rewrite app_assoc.
Qed.

(** A thrown iteration ends the loop: the rest of the list is not run. *)
Lemma forEach_Threw {A} (x : A) l (body : A -> Act unit) s e s1 t1 :
  body x s = (Threw e, s1, t1) -> forEach (x :: l) body s = (Threw e, s1, t1).
Proof. intros H. by rewrite forEach_cons, (bind_Threw _ _ _ _ _ _ H). Qed.

(** A loop whose iterations keep an invariant and have enough fuel under
    it has enough fuel. *)
Lemma forEach_has_fuel {A} (P : St -> Prop) (l : list A) (body : A -> Act unit) :
  (forall x s, P s -> outcome (body x s) <> OutOfFuel /\ P (final (body x s))) ->
  forall s, P s -> outcome (forEach l body s) <> OutOfFuel.
Proof.
  intros Hb. induction l as [|x l IH]; intros s Hs; [done|].
  rewrite forEach_cons. destruct (Hb x s Hs) as [Ho Hp].
  apply bind_has_fuel; [done|]. intros _ _. by apply IH.
Qed.

(** *** Relations every step of a program keeps *)

Section Respects.
Variable R : St -> St -> list Ev -> Prop.
Hypothesis R_refl : forall s, R s s [].
Hypothesis R_trans : forall s1 s2 s3 t1 t2,
  R s1 s2 t1 -> R s2 s3 t2 -> R s1 s3 (t1 ++ t2).

Local Abbreviation respects := (Eff.respects R).

Lemma respects_ret {A} (a : A) : respects (ret a : Act A).
Proof. intros s. apply R_refl. Qed.

Lemma respects_throw {A} (e : E) : respects (@throw St Ev E A e).
Proof. intros s. apply R_refl. Qed.

Lemma respects_exit {A} c : respects (@exit St Ev E A c).
Proof. intros s. apply R_refl. Qed.

Lemma respects_outOfFuel {A} : respects (@outOfFuel St Ev E A).
Proof. intros s. apply R_refl. Qed.

Lemma respects_gets {A} (f : St -> A) : respects (gets f : Act A).
Proof. intros s. apply R_refl. Qed.

Lemma bind_at {A B} (m : Act A) (k : A -> Act B) s :
  R s (final (m s)) (trace (m s)) ->
  (forall a, respects (k a)) ->
  R s (final (bind m k s)) (trace (bind m k s)).
Proof.
  intros Hm Hk. unfold bind.
  destruct (m s) as [[[a|e|c|] s1] t1]; try done.
  specialize (Hk a s1). destruct (k a s1) as [[o s2] t2].
  by eapply R_trans.
Qed.

Lemma respects_bind {A B} (m : Act A) (k : A -> Act B) :
  respects m -> (forall a, respects (k a)) -> respects (bind m k).
Proof. intros Hm Hk s. by apply bind_at. Qed.

Lemma respects_tryCatch {A} (m : Act A) (h : E -> Act A) :
  respects m -> (forall e, respects (h e)) -> respects (tryCatch m h).
Proof.
  intros Hm Hh s. specialize (Hm s). unfold tryCatch.
  destruct (m s) as [[[a|e|c|] s1] t1]; try done.
  specialize (Hh e s1). destruct (h e s1) as [[o s2] t2].
  by eapply R_trans.
Qed.

Lemma respects_forEach {A} (l : list A) (body : A -> Act unit) :
  (forall x, x ∈ l -> respects (body x)) -> respects (forEach l body).
Proof.
  induction l as [|x l IH]; intros Hb.
  - apply respects_ret.
  - apply respects_bind.
    + apply Hb. left.
    + intros _. apply IH. intros y Hy. apply Hb. by right.
Qed.
End Respects.

End EffFacts.

(** ** The package walker *)

Section NpmFacts.
Import Npm.
Variable reg : Registry.
Variable maxSatisfying : list string -> string -> option string.
Variable basename : string -> string.
Variable path_join : string -> string -> string.

Local Abbreviation walk := (downloadTarball reg maxSatisfying basename path_join).
Local Abbreviation edge := (resolveEdge reg maxSatisfying).
Local Abbreviation own := (acquire reg basename path_join).
Local Abbreviation dest := (destPathOf basename path_join).
Local Abbreviation dir := (outputDir path_join).
Local Abbreviation G := (grows dest).

Implicit Types (w : World) (t : list Event) (name version : string).

(** *** One invocation, case by case *)

Lemma acquire_run name version w :
  own name version w =
    let k := pkgSpecOf name version in
    let w1 := addDownloaded k w in
    let head := [LogProcessing k; GetVersionDoc name version] in
    match versionDoc reg name version with
    | None =>
        (Threw (FetchError ("/" +:+ name +:+ "/" +:+ version)), w1, head)
    | Some d =>
        let u := dist_tarball d in
        let deps := default [] (dependencies d) in
        match disk w !! dest u with
        | Some _ =>
            (Done deps, w1,
             head ++ [Mkdirp dir; LogAlreadyDownloaded (basename u)])
        | None =>
            let req := head ++ [Mkdirp dir; LogDownloading u; GetTarball k u] in
            match tarball reg u with
            | Rejected => (Threw (FetchError u), w1, req)
            | Broken => (Threw (StreamError u), writeFile (dest u) Partial w1, req)
            | Completed =>
                (Done deps, writeFile (dest u) Whole w1,
                 req ++ [LogDownloaded (basename u)])
            end
        end
    end.
Proof.
  unfold acquire, fetchVersionDoc, streamTarball, bind, emit, modify, gets, ret, throw.
  cbn. destruct (versionDoc reg name version) as [d|]; [|done]. cbn.
  destruct (disk w !! dest (dist_tarball d)) as [f|] eqn:Hd; cbn; [done|].
  by destruct (tarball reg (dist_tarball d)).
Qed.

(** The walker is the membership test, then [acquire], then the loop. *)
Lemma downloadTarball_S fuel name version w :
  walk (S fuel) name version w =
    if decide (pkgSpecOf name version ∈ downloadedPackages w)
    then (Done tt, w, [])
    else bind (own name version) (fun deps => forEach deps (edge (walk fuel))) w.
Proof.
  cbn [downloadTarball]. unfold bind at 1. unfold gets at 1.
  destruct (decide (pkgSpecOf name version ∈ downloadedPackages w)) as [Hin|Hin];
    [done|].
  unfold acquire, fetchVersionDoc, streamTarball, bind, emit, modify, gets, ret, throw.
  cbn. destruct (versionDoc reg name version) as [d|]; [|done]. cbn.
  unfold destPathOf.
  destruct (disk w !! path_join dir (basename (dist_tarball d))) as [f|]; cbn.
  - by destruct (forEach _ _ _) as [[o s2] t2].
  - destruct (tarball reg (dist_tarball d)); cbn; try done.
    by destruct (forEach _ _ _) as [[o s2] t2].
Qed.

(** *** The world only grows *)

Lemma grows_refl w : G w w [].
Proof.
  split; try done; cbn; try apply NoDup_nil_2; intros k Hk; by apply elem_of_nil in Hk.
Qed.

Lemma versionDocKeys_app t1 t2 :
  versionDocKeys (t1 ++ t2) = versionDocKeys t1 ++ versionDocKeys t2.
Proof. apply omap_app. Qed.

Lemma tarballKeys_app t1 t2 :
  tarballKeys (t1 ++ t2) = tarballKeys t1 ++ tarballKeys t2.
Proof. apply omap_app. Qed.

Lemma tarballUrls_app t1 t2 :
  tarballUrls (t1 ++ t2) = tarballUrls t1 ++ tarballUrls t2.
Proof. apply omap_app. Qed.

Lemma grows_trans w1 w2 w3 t1 t2 :
  G w1 w2 t1 -> G w2 w3 t2 -> G w1 w3 (t1 ++ t2).
Proof.
  intros [S1 D1 V1 T1 NV1 NT1 P1] [S2 D2 V2 T2 NV2 NT2 P2].
  split.
  - set_solver.
  - by etrans.
  - intros k. rewrite versionDocKeys_app, elem_of_app.
    intros [Hk|Hk]; [apply V1 in Hk|apply V2 in Hk]; set_solver.
  - intros k. rewrite tarballKeys_app, elem_of_app.
    intros [Hk|Hk]; [apply T1 in Hk|apply T2 in Hk]; set_solver.
  - rewrite versionDocKeys_app. apply NoDup_app. split_and!; [done| |done].
    intros k Hk1 Hk2. apply V1 in Hk1. apply V2 in Hk2. set_solver.
  - rewrite tarballKeys_app. apply NoDup_app. split_and!; [done| |done].
    intros k Hk1 Hk2. apply T1 in Hk1. apply T2 in Hk2. set_solver.
  - intros u. rewrite tarballUrls_app, elem_of_app. intros [Hu|Hu]; [by apply P1|].
    apply P2 in Hu. destruct (disk w1 !! dest u) as [f|] eqn:Hf; [|done].
    eapply lookup_weaken in Hf; [|exact D1]. congruence.
Qed.

(** A trace without requests for a version document or a tarball leaves
    the world as it is. *)
Lemma grows_quiet w t :
  versionDocKeys t = [] -> tarballKeys t = [] -> G w w t.
Proof.
  intros Hv Ht.
  assert (tarballUrls t = []) as Hu.
  { clear Hv. induction t as [|[] t IH]; cbn in *; try done; auto. }
  split; rewrite ?Hv, ?Ht, ?Hu; try done; try apply NoDup_nil_2;
    intros k Hk; by apply elem_of_nil in Hk.
Qed.

Lemma fetchPackageMetadata_grows name : respects G (fetchPackageMetadata reg name).
Proof.
  intros w. unfold fetchPackageMetadata, bind, emit, ret, throw.
  destruct (packageDoc reg name); cbn; by apply grows_quiet.
Qed.

Lemma addDownloaded_seen k w :
  downloadedPackages (addDownloaded k w) = {[k]} ∪ downloadedPackages w.
Proof. done. Qed.

(** The invocation's own part, for an identity not yet in the set. *)
Lemma acquire_grows name version w :
  pkgSpecOf name version ∉ downloadedPackages w ->
  G w (final (own name version w)) (trace (own name version w)).
Proof.
  intros Hnew. rewrite acquire_run. cbn zeta.
  destruct (versionDoc reg name version) as [d|].
  2:{ split; cbn; try done; try set_solver.
      - apply NoDup_singleton.
      - apply NoDup_nil_2. }
  destruct (disk w !! dest (dist_tarball d)) as [f|] eqn:Hd.
  { split; cbn; try done; try set_solver.
    - apply NoDup_singleton.
    - apply NoDup_nil_2. }
  assert (forall f, disk w ⊆ <[dest (dist_tarball d) := f]> (disk w)) as Hins.
  { intros f. by apply insert_subseteq. }
  destruct (tarball reg (dist_tarball d)); split; cbn;
    try done; try set_solver; try apply NoDup_singleton.
Qed.

Lemma resolveEdge_grows (f : string -> string -> Act unit) entry :
  (forall n v, respects G (f n v)) -> respects G (edge f entry).
Proof.
  intros Hf. destruct entry as [depName range]. unfold resolveEdge.
  apply respects_bind; [apply grows_trans|apply fetchPackageMetadata_grows|].
  intros versions. destruct (maxSatisfying versions range) as [v|].
  - destruct (truthy v); [apply Hf|]. intros w. by apply grows_quiet.
  - intros w. by apply grows_quiet.
Qed.

(** Every run of the walker, with any fuel and from any world, only grows
    the world. *)
Lemma downloadTarball_grows fuel name version :
  respects G (walk fuel name version).
Proof.
  revert name version. induction fuel as [|fuel IH]; intros name version w.
  { apply grows_refl. }
  rewrite downloadTarball_S. case_decide as Hin; [apply grows_refl|].
  apply bind_at; [apply grows_trans|by apply acquire_grows|].
  intros deps. apply respects_forEach; [apply grows_refl|apply grows_trans|].
  intros entry _. by apply resolveEdge_grows.
Qed.

Lemma resolveEdge_walk_grows fuel entry : respects G (edge (walk fuel) entry).
Proof. apply resolveEdge_grows, downloadTarball_grows. Qed.

Lemma edges_grow fuel deps : respects G (forEach deps (edge (walk fuel))).
Proof.
  apply respects_forEach; [apply grows_refl|apply grows_trans|].
  intros entry _. apply resolveEdge_walk_grows.
Qed.

(** *** Fuel *)

(** More fuel does not change a run that had enough. *)
Lemma resolveEdge_fuel_mono f f' entry w :
  (forall n v w, outcome (f n v w) <> OutOfFuel -> f' n v w = f n v w) ->
  outcome (edge f entry w) <> OutOfFuel ->
  edge f' entry w = edge f entry w.
Proof.
  intros Hf. destruct entry as [depName range]. unfold resolveEdge, bind.
  destruct (fetchPackageMetadata reg depName w) as [[[versions|e|c|] w1] t1]; try done.
  destruct (maxSatisfying versions range) as [v|]; [|done].
  destruct (truthy v); [|done].
  intros Hout. rewrite Hf; [done|].
  intros Hv. apply Hout. by destruct (f depName v w1) as [[[]]].
Qed.

Lemma forEach_fuel_mono f f' deps w :
  (forall n v w, outcome (f n v w) <> OutOfFuel -> f' n v w = f n v w) ->
  outcome (forEach deps (edge f) w) <> OutOfFuel ->
  forEach deps (edge f') w = forEach deps (edge f) w.
Proof.
  intros Hf. revert w. induction deps as [|entry deps IH]; intros w; [done|].
  rewrite !forEach_cons. intros Hout.
  assert (outcome (edge f entry w) <> OutOfFuel) as He.
  { intros He. by apply Hout, bind_fuel_l. }
  unfold bind in *. rewrite (resolveEdge_fuel_mono f f' entry w Hf He).
  destruct (edge f entry w) as [[[[]|e|c|] w1] t1]; try done.
  rewrite IH; [done|]. intros Hr. apply Hout.
  by destruct (forEach deps (edge f) w1) as [[[]]].
Qed.

Lemma downloadTarball_fuel_mono fuel fuel' name version w :
  fuel <= fuel' ->
  outcome (walk fuel name version w) <> OutOfFuel ->
  walk fuel' name version w = walk fuel name version w.
Proof.
  revert fuel' name version w.
  induction fuel as [|fuel IH]; intros fuel' name version w Hle Hout; [done|].
  destruct fuel' as [|fuel']; [lia|].
  rewrite !downloadTarball_S in *. case_decide as Hin; [done|].
  unfold bind in *.
  destruct (own name version w) as [[[deps|e|c|] w1] t1]; try done.
  rewrite (forEach_fuel_mono (walk fuel) (walk fuel')); [done| |].
  - intros n v w' Hn. apply IH; [lia|done].
  - intros Hr. apply Hout.
    by destruct (forEach deps (edge (walk fuel)) w1) as [[[]]].
Qed.

Lemma fetchPackageMetadata_run name w :
  fetchPackageMetadata reg name w =
    match packageDoc reg name with
    | Some versions => (Done versions, w, [GetPackageDoc name])
    | None => (Threw (FetchError ("/" +:+ name)), w, [GetPackageDoc name; ErrPackageDoc name])
    end.
Proof.
  unfold fetchPackageMetadata, bind, emit, ret, throw.
  by destruct (packageDoc reg name).
Qed.

Section Termination.
(** The identities the registry has a version document for are finitely
    many: [U] lists them. *)
Variable U : gset string.
Hypothesis U_closed :
  forall n v d, versionDoc reg n v = Some d -> pkgSpecOf n v ∈ U.

(** The identities of the registry the walker has not met yet. *)
Local Abbreviation todo w := (size (U ∖ downloadedPackages w)).

Lemma todo_mono w w' :
  downloadedPackages w ⊆ downloadedPackages w' -> todo w' <= todo w.
Proof. intros Hs. apply subseteq_size. set_solver. Qed.

Lemma todo_add k w :
  k ∈ U -> k ∉ downloadedPackages w -> todo (addDownloaded k w) < todo w.
Proof.
  intros HU Hk. apply subset_size. rewrite addDownloaded_seen.
  apply strict_spec_alt. split; [set_solver|].
  intros Heq. assert (k ∈ U ∖ downloadedPackages w) as Hin by set_solver.
  rewrite <- Heq in Hin. set_solver.
Qed.

Lemma edges_enough_fuel fuel deps :
  (forall n v w, todo w < fuel -> outcome (walk fuel n v w) <> OutOfFuel) ->
  forall w, todo w < fuel ->
            outcome (forEach deps (edge (walk fuel)) w) <> OutOfFuel.
Proof.
  intros Hwalk. apply (forEach_has_fuel (fun w => todo w < fuel)).
  intros [depName range] w Hw. split.
  - unfold resolveEdge. apply bind_has_fuel.
    { rewrite fetchPackageMetadata_run. by destruct (packageDoc reg depName). }
    intros versions _.
    assert (final (fetchPackageMetadata reg depName w) = w) as ->.
    { rewrite fetchPackageMetadata_run. by destruct (packageDoc reg depName). }
    destruct (maxSatisfying versions range) as [v|]; [|done].
    destruct (truthy v); [by apply Hwalk|done].
  - eapply Nat.le_lt_trans; [|exact Hw].
    apply todo_mono, (grows_seen _ _ _ _ (resolveEdge_walk_grows fuel _ w)).
Qed.

(** With more fuel than the registry has unmet identities the walker
    does not run out of fuel. *)
Lemma downloadTarball_enough_fuel fuel name version w :
  todo w < fuel -> outcome (walk fuel name version w) <> OutOfFuel.
Proof.
  revert name version w.
  induction fuel as [|fuel IH]; intros name version w Hw; [lia|].
  rewrite downloadTarball_S. case_decide as Hin; [done|].
  apply bind_has_fuel.
  { rewrite acquire_run. cbn zeta.
    destruct (versionDoc reg name version) as [d|]; [|done].
    destruct (disk w !! dest (dist_tarball d)); [done|].
    by destruct (tarball reg (dist_tarball d)). }
  intros deps Hdone. apply edges_enough_fuel; [done|].
  assert (todo (addDownloaded (pkgSpecOf name version) w) < fuel) as Hw1.
  { rewrite acquire_run in Hdone. cbn zeta in Hdone.
    destruct (versionDoc reg name version) as [d|] eqn:Hd; [|done].
    pose proof (todo_add _ w (U_closed _ _ _ Hd) Hin). lia. }
  eapply Nat.le_lt_trans; [|exact Hw1]. apply todo_mono.
  rewrite acquire_run. cbn zeta.
  destruct (versionDoc reg name version) as [d|]; [|done].
  destruct (disk w !! dest (dist_tarball d)); [done|].
  by destruct (tarball reg (dist_tarball d)).
Qed.
End Termination.

(** *** The set marks an identity before its first request *)

(** Whatever happens to a run that started, its identity is in the set
    afterwards. *)
Lemma downloadTarball_marks fuel name version w :
  pkgSpecOf name version ∈
    downloadedPackages (final (walk (S fuel) name version w)).
Proof.
  rewrite downloadTarball_S. case_decide as Hin; [done|].
  assert (pkgSpecOf name version ∈
            downloadedPackages (final (own name version w))) as Hown.
  { rewrite acquire_run. cbn zeta.
    destruct (versionDoc reg name version) as [d|]; [|set_solver].
    destruct (disk w !! dest (dist_tarball d)); [set_solver|].
    destruct (tarball reg (dist_tarball d)); set_solver. }
  unfold bind. destruct (own name version w) as [[[deps|e|c|] w1] t1]; try done.
  pose proof (edges_grow fuel deps w1) as Hg. apply grows_seen in Hg.
  destruct (forEach deps (edge (walk fuel)) w1) as [[o w2] t2]. set_solver.
Qed.

(** A call for an identity in the set returns at once: no event, the
    world untouched. *)
Lemma downloadTarball_seen fuel name version w :
  pkgSpecOf name version ∈ downloadedPackages w ->
  walk (S fuel) name version w = (Done tt, w, []).
Proof. intros Hin. rewrite downloadTarball_S. by rewrite decide_True. Qed.

(** The first events of a call for a new identity: the console line, then
    the request for the version document. *)
Lemma downloadTarball_head fuel name version w :
  pkgSpecOf name version ∉ downloadedPackages w ->
  exists rest,
    trace (walk (S fuel) name version w) =
      LogProcessing (pkgSpecOf name version) :: GetVersionDoc name version :: rest.
Proof.
  intros Hin. rewrite downloadTarball_S, decide_False by done.
  unfold bind. rewrite acquire_run. cbn zeta.
  destruct (versionDoc reg name version) as [d|]; [|by eexists].
  destruct (disk w !! dest (dist_tarball d)).
  { destruct (forEach _ _ _) as [[o w2] t2]. by eexists. }
  destruct (tarball reg (dist_tarball d)); try by eexists.
  destruct (forEach _ _ _) as [[o w2] t2]. by eexists.
Qed.

(** No later run requests anything for an identity that is in the set. *)
Lemma downloadTarball_no_repeat fuel name version w k :
  k ∈ downloadedPackages w ->
  (k ∉ versionDocKeys (trace (walk fuel name version w))) /\
  (k ∉ tarballKeys (trace (walk fuel name version w))).
Proof.
  intros Hk. pose proof (downloadTarball_grows fuel name version w) as Hg.
  split; intros Hin.
  - apply (grows_vkeys _ _ _ _ Hg) in Hin. tauto.
  - apply (grows_tkeys _ _ _ _ Hg) in Hin. tauto.
Qed.

(** *** Idempotence and at-most-once *)

(** C3.  A second call of the walker with the same (name, version) is a
    no-op that returns immediately: whatever the first call did, and
    however it ended, its identity is in [downloadedPackages] afterwards,
    and a call that finds it there emits no event and leaves the world as
    it is.  The identity enters the set before the first request of the
    call (the trace of a first call opens with the console line and the
    version-document request, and the identity is in the set even when
    that request is rejected), so within one run, re-entrant calls
    included, the version document and the tarball of an identity are
    requested at most once, and never again by any later run. *)
Theorem downloadTarball_idempotent fuel fuel' name version w :
  let k := pkgSpecOf name version in
  let r := walk (S fuel) name version w in
  k ∈ downloadedPackages (final r) /\
  walk (S fuel') name version (final r) = (Done tt, final r, []) /\
  (k ∈ downloadedPackages w -> r = (Done tt, w, [])) /\
  (k ∉ downloadedPackages w ->
     exists rest, trace r = LogProcessing k :: GetVersionDoc name version :: rest) /\
  NoDup (versionDocKeys (trace r)) /\
  NoDup (tarballKeys (trace r)) /\
  (forall fuel2 name2 version2 w2,
      downloadedPackages (final r) ⊆ downloadedPackages w2 ->
      let r2 := walk fuel2 name2 version2 w2 in
      (k ∉ versionDocKeys (trace r2)) /\ (k ∉ tarballKeys (trace r2))).
Proof.
  intros k r. pose proof (downloadTarball_marks fuel name version w) as Hk.
  pose proof (downloadTarball_grows (S fuel) name version w) as Hg.
  split_and!.
  - done.
  - by apply downloadTarball_seen.
  - apply downloadTarball_seen.
  - apply downloadTarball_head.
  - apply (grows_vnodup _ _ _ _ Hg).
  - apply (grows_tnodup _ _ _ _ Hg).
  - intros fuel2 name2 version2 w2 Hsub. apply downloadTarball_no_repeat.
    by apply Hsub.
Qed.

(** C9.  A call that fails after the insertion (the version-document
    request or the tarball transfer throws, in the call itself or in a
    call nested in it) leaves its identity in [downloadedPackages]: the
    set never shrinks, so every later call with that identity, from the
    world the failure left or from any world reached after it, returns at
    once with an empty trace.  The failed acquisition is not retried. *)
Theorem downloadTarball_failure_not_retried fuel name version w e :
  outcome (walk fuel name version w) = Threw e ->
  let k := pkgSpecOf name version in
  let r := walk fuel name version w in
  k ∈ downloadedPackages (final r) /\
  forall w', downloadedPackages (final r) ⊆ downloadedPackages w' ->
    forall fuel', walk (S fuel') name version w' = (Done tt, w', []).
Proof.
  intros Hthrew k r. destruct fuel as [|fuel]; [done|].
  pose proof (downloadTarball_marks fuel name version w) as Hk.
  split; [done|]. intros w' Hsub fuel'.
  apply downloadTarball_seen. by apply Hsub.
Qed.

(** *** Termination *)

(** C8.  On a registry with finitely many identities ([U] contains every
    identity that has a version document), cyclic or not, the walk
    terminates: with fuel beyond the number of identities not yet met the
    run ends by returning or by an exception, more fuel gives the same
    run, and in that run each identity's version document and tarball are
    requested at most once. *)
Theorem downloadTarball_terminates (U : gset string) name version w :
  (forall n v d, versionDoc reg n v = Some d -> pkgSpecOf n v ∈ U) ->
  exists fuel,
    let r := walk fuel name version w in
    outcome r <> OutOfFuel /\
    (forall fuel', fuel <= fuel' -> walk fuel' name version w = r) /\
    NoDup (versionDocKeys (trace r)) /\
    NoDup (tarballKeys (trace r)).
Proof.
  intros HU. exists (S (size (U ∖ downloadedPackages w))). intros r.
  assert (outcome r <> OutOfFuel) as Hout.
  { apply (downloadTarball_enough_fuel U HU). lia. }
  pose proof (downloadTarball_grows (S (size (U ∖ downloadedPackages w)))
                name version w) as Hg.
  split_and!.
  - done.
  - intros fuel' Hle. by apply downloadTarball_fuel_mono.
  - apply (grows_vnodup _ _ _ _ Hg).
  - apply (grows_tnodup _ _ _ _ Hg).
Qed.

(** *** The file on disk *)

(** C5.  When the destination derived from the tarball URL exists on disk,
    the walker requests no tarball body for it: the whole run, nested
    calls included, contains no tarball request for that URL nor any for
    this identity, the console says the file is already there, and the
    file is left as it was, whatever its state: a file a broken transfer
    left behind passes as well as a whole one. *)
Theorem existing_file_not_fetched fuel name version w d f :
  pkgSpecOf name version ∉ downloadedPackages w ->
  versionDoc reg name version = Some d ->
  disk w !! dest (dist_tarball d) = Some f ->
  let r := walk (S fuel) name version w in
  (dist_tarball d ∉ tarballUrls (trace r)) /\
  (pkgSpecOf name version ∉ tarballKeys (trace r)) /\
  LogAlreadyDownloaded (basename (dist_tarball d)) ∈ trace r /\
  disk (final r) !! dest (dist_tarball d) = Some f.
Proof.
  intros Hnew Hd Hf r.
  pose proof (downloadTarball_grows (S fuel) name version w) as Hg.
  split_and!.
  - intros Hin. apply (grows_dest _ _ _ _ Hg) in Hin. congruence.
  - subst r. rewrite downloadTarball_S, decide_False by done.
    unfold bind. rewrite acquire_run. cbn zeta. rewrite Hd, Hf.
    pose proof (edges_grow fuel (default [] (dependencies d))
                  (addDownloaded (pkgSpecOf name version) w)) as Hl.
    destruct (forEach _ _ _) as [[o w2] t2]. cbn.
    intros Hin. apply (grows_tkeys _ _ _ _ Hl) in Hin.
    rewrite addDownloaded_seen in Hin. set_solver.
  - subst r. rewrite downloadTarball_S, decide_False by done.
    unfold bind. rewrite acquire_run. cbn zeta. rewrite Hd, Hf.
    destruct (forEach _ _ _) as [[o w2] t2]. cbn. set_solver.
  - eapply lookup_weaken; [exact Hf|]. apply (grows_disk _ _ _ _ Hg).
Qed.

(** *** Every identity that enters the set is visited *)

Lemma visits_refl w : visits w w [].
Proof. intros k Hk. by left. Qed.

Lemma visits_trans w1 w2 w3 t1 t2 :
  visits w1 w2 t1 -> visits w2 w3 t2 -> visits w1 w3 (t1 ++ t2).
Proof.
  intros H1 H2 k Hk. rewrite versionDocKeys_app, elem_of_app.
  destruct (H2 k Hk) as [Hk2|Hk2]; [|by right; right].
  destruct (H1 k Hk2) as [Hk1|Hk1]; [by left|by right; left].
Qed.

Lemma acquire_visits name version : respects visits (own name version).
Proof.
  intros w. rewrite acquire_run. cbn zeta.
  assert (forall w' t,
            downloadedPackages w' = {[pkgSpecOf name version]} ∪ downloadedPackages w ->
            visits w w' ([LogProcessing (pkgSpecOf name version);
                          GetVersionDoc name version] ++ t)) as Hv.
  { intros w' t Hw' k Hk. rewrite Hw' in Hk.
    apply elem_of_union in Hk as [->%elem_of_singleton|Hk]; [right|by left].
    cbn. left. }
  destruct (versionDoc reg name version) as [d|].
  2:{ by apply (Hv _ []). }
  destruct (disk w !! dest (dist_tarball d)); [by apply Hv|].
  destruct (tarball reg (dist_tarball d)); rewrite <- ?app_assoc; by apply Hv.
Qed.

Lemma resolveEdge_visits (f : string -> string -> Act unit) entry :
  (forall n v, respects visits (f n v)) -> respects visits (edge f entry).
Proof.
  intros Hf. destruct entry as [depName range]. unfold resolveEdge.
  apply respects_bind; [apply visits_trans| |].
  - intros w k Hk. left. rewrite fetchPackageMetadata_run in Hk.
    by destruct (packageDoc reg depName).
  - intros versions. destruct (maxSatisfying versions range) as [v|].
    + destruct (truthy v); [apply Hf|]. intros w k Hk. by left.
    + intros w k Hk. by left.
Qed.

Lemma downloadTarball_visits fuel name version :
  respects visits (walk fuel name version).
Proof.
  revert name version. induction fuel as [|fuel IH]; intros name version w.
  { apply visits_refl. }
  rewrite downloadTarball_S. case_decide as Hin; [apply visits_refl|].
  apply bind_at; [apply visits_trans|apply acquire_visits|].
  intros deps. apply respects_forEach; [apply visits_refl|apply visits_trans|].
  intros entry _. by apply resolveEdge_visits.
Qed.

Lemma edges_visit fuel deps : respects visits (forEach deps (edge (walk fuel))).
Proof.
  apply respects_forEach; [apply visits_refl|apply visits_trans|].
  intros entry _. apply resolveEdge_visits, downloadTarball_visits.
Qed.

(** *** The loop over the dependency entries *)

(** An entry whose range resolves is its package-document request and
    then the run of the walker on the resolved version. *)
Lemma resolveEdge_resolved (f : string -> string -> Act unit)
    depName range versions v w :
  packageDoc reg depName = Some versions ->
  maxSatisfying versions range = Some v ->
  truthy v = true ->
  edge f (depName, range) w =
    (outcome (f depName v w), final (f depName v w),
     GetPackageDoc depName :: trace (f depName v w)).
Proof.
  intros Hdoc Hmax Hv. unfold resolveEdge, bind.
  rewrite fetchPackageMetadata_run, Hdoc, Hmax, Hv.
  by destruct (f depName v w) as [[o w1] t1].
Qed.

Lemma resolveEdge_starts (f : string -> string -> Act unit) depName range w :
  exists rest, trace (edge f (depName, range) w) = GetPackageDoc depName :: rest.
Proof.
  unfold resolveEdge, bind. rewrite fetchPackageMetadata_run.
  destruct (packageDoc reg depName) as [versions|]; [|by eexists].
  destruct (maxSatisfying versions range) as [v|]; [|by eexists].
  destruct (truthy v); [|by eexists].
  destruct (f depName v w) as [[o w1] t1]. by eexists.
Qed.

(** The loop, cut before one of its entries: when the entries before it
    returned, the loop goes on with that entry, from the world they left. *)
Lemma edges_reach fuel pre entry post w :
  let body := edge (walk fuel) in
  let before := forEach pre body w in
  outcome before = Done tt ->
  let here := body entry (final before) in
  exists rest,
    trace (forEach (pre ++ entry :: post) body w) = trace before ++ trace here ++ rest /\
    (outcome here = OutOfFuel ->
     outcome (forEach (pre ++ entry :: post) body w) = OutOfFuel).
Proof.
  intros body before Hbefore here.
  rewrite forEach_app.
  rewrite (bind_Done _ _ _ tt (final before) (trace before))
    by (rewrite (run_eta (forEach pre body w)); fold before; by rewrite Hbefore).
  cbn [outcome final trace fst snd]. rewrite forEach_cons. unfold bind. fold here.
  destruct here as [[[[]|e|c|] w1] t1]; cbn [outcome final trace fst snd].
  - destruct (forEach post body w1) as [[o w2] t2]. cbn. by eexists.
  - exists []. by rewrite app_nil_r.
  - exists []. by rewrite app_nil_r.
  - exists []. by rewrite app_nil_r.
Qed.

Lemma edges_prefix_Done fuel pre post w :
  let body := edge (walk fuel) in
  outcome (forEach (pre ++ post) body w) = Done tt ->
  outcome (forEach pre body w) = Done tt.
Proof.
  intros body. rewrite forEach_app. intros H.
  apply bind_Done_inv in H as ([] & w1 & t1 & Hpre & _). by rewrite Hpre.
Qed.

(** C10, as the walker has it.  For an identity not yet in the set whose
    tarball is already on disk, the run opens with the console line, the
    version-document request and the line about the existing file, and
    then takes the dependency entries in order: the file check leaves out
    the tarball request and nothing else.  Every entry the loop reaches
    (the entries before it returned) has its package document requested;
    when its range resolves the walker is called on the resolved version,
    there and then, and its run is part of the trace: unless that identity
    was in the set before this run, its version document is requested in
    this run.  In a run that returns normally every entry is reached. *)
Theorem existing_file_still_walks fuel name version w d f :
  let k := pkgSpecOf name version in
  let r := walk (S fuel) name version w in
  let deps := default [] (dependencies d) in
  let head := [LogProcessing k; GetVersionDoc name version; Mkdirp dir;
               LogAlreadyDownloaded (basename (dist_tarball d))] in
  let reached pre := forEach pre (edge (walk fuel)) (addDownloaded k w) in
  let walked depName v :=
    pkgSpecOf depName v ∈ downloadedPackages w \/
    pkgSpecOf depName v ∈ versionDocKeys (trace r) in
  k ∉ downloadedPackages w ->
  versionDoc reg name version = Some d ->
  disk w !! dest (dist_tarball d) = Some f ->
  (exists rest, trace r = head ++ rest) /\
  (forall pre depName range post,
     deps = pre ++ (depName, range) :: post ->
     outcome (reached pre) = Done tt ->
     (exists rest,
        trace r = head ++ trace (reached pre) ++ GetPackageDoc depName :: rest) /\
     forall versions v,
       packageDoc reg depName = Some versions ->
       maxSatisfying versions range = Some v ->
       truthy v = true ->
       (exists rest,
          trace r = head ++ trace (reached pre) ++ GetPackageDoc depName ::
                    trace (walk fuel depName v (final (reached pre))) ++ rest) /\
       (outcome r <> OutOfFuel -> walked depName v)) /\
  (outcome r = Done tt ->
   forall depName range, (depName, range) ∈ deps ->
     GetPackageDoc depName ∈ trace r /\
     forall versions v,
       packageDoc reg depName = Some versions ->
       maxSatisfying versions range = Some v ->
       truthy v = true ->
       walked depName v).
Proof.
  intros k r deps head reached walked Hnew Hd Hf.
  set (loop := forEach deps (edge (walk fuel)) (addDownloaded k w)).
  assert (r = (outcome loop, final loop, head ++ trace loop)) as Hr.
  { subst r. rewrite downloadTarball_S, decide_False by done.
    unfold bind. rewrite acquire_run. cbn zeta. rewrite Hd, Hf.
    subst loop deps k head. by destruct (forEach _ _ _) as [[o w2] t2]. }
  assert (forall pre depName range post,
     deps = pre ++ (depName, range) :: post ->
     outcome (reached pre) = Done tt ->
     (exists rest,
        trace r = head ++ trace (reached pre) ++ GetPackageDoc depName :: rest) /\
     forall versions v,
       packageDoc reg depName = Some versions ->
       maxSatisfying versions range = Some v ->
       truthy v = true ->
       (exists rest,
          trace r = head ++ trace (reached pre) ++ GetPackageDoc depName ::
                    trace (walk fuel depName v (final (reached pre))) ++ rest) /\
       (outcome r <> OutOfFuel -> walked depName v)) as Hreach.
  { intros pre depName range post Hdeps Hpre.
    destruct (edges_reach fuel pre (depName, range) post (addDownloaded k w) Hpre)
      as (rest & Htrace & Hfuel).
    fold (reached pre) in Htrace, Hfuel. rewrite <- Hdeps in Htrace, Hfuel.
    fold loop in Htrace, Hfuel.
    split.
    - destruct (resolveEdge_starts (walk fuel) depName range (final (reached pre)))
        as [rest' Hstart].
      rewrite Hstart in Htrace. rewrite Hr. cbn [trace snd]. rewrite Htrace.
      by eexists.
    - intros versions v Hdoc Hmax Hv.
      rewrite (resolveEdge_resolved _ _ _ _ _ _ Hdoc Hmax Hv) in Htrace, Hfuel.
      cbn [outcome trace fst snd] in Htrace, Hfuel.
      split.
      { rewrite Hr. cbn [trace snd]. rewrite Htrace. cbn. by eexists. }
      intros Hout. subst walked. cbn beta.
      assert (versionDocKeys (trace r) =
              pkgSpecOf name version ::
              versionDocKeys (trace (reached pre)) ++
              versionDocKeys (trace (walk fuel depName v (final (reached pre)))) ++
              versionDocKeys rest) as Hkeys.
      { rewrite Hr. cbn [trace snd]. rewrite Htrace, !versionDocKeys_app. done. }
      rewrite Hkeys.
      destruct (decide (pkgSpecOf depName v ∈ downloadedPackages (final (reached pre))))
        as [Hseen|Hseen].
      + destruct (edges_visit fuel pre (addDownloaded k w) _ Hseen) as [Hk|Hk].
        * rewrite addDownloaded_seen in Hk.
          apply elem_of_union in Hk as [->%elem_of_singleton|Hk]; [|by left].
          right. left.
        * right. right. apply elem_of_app. by left.
      + destruct fuel as [|fuel'].
        { exfalso. apply Hout. rewrite Hr. cbn [outcome fst]. by apply Hfuel. }
        destruct (downloadTarball_head fuel' depName v _ Hseen) as [rest' Hhead].
        right. right. apply elem_of_app. right. apply elem_of_app. left.
        rewrite Hhead. cbn. left. }
  split; [by rewrite Hr; eexists|]. split; [exact Hreach|].
  intros Hdone depName range Hin.
  apply list_elem_of_split in Hin as (pre & post & Hdeps).
  assert (outcome (reached pre) = Done tt) as Hpre.
  { apply (edges_prefix_Done fuel pre ((depName, range) :: post)).
    rewrite <- Hdeps. fold loop. rewrite Hr in Hdone. exact Hdone. }
  destruct (Hreach pre depName range post Hdeps Hpre) as [[rest Htrace] Hwalk].
  split.
  - rewrite Htrace. apply elem_of_app. right. apply elem_of_app. right. left.
  - intros versions v Hdoc Hmax Hv.
    apply (Hwalk versions v Hdoc Hmax Hv). by rewrite Hdone.
Qed.

(** *** Failures in the loop *)

Variable promptForVersion : string -> list string -> string.

Local Abbreviation top := (processPackage reg maxSatisfying basename path_join promptForVersion).

(** The version [processPackage] walks. *)
Lemma processPackage_run fuel packageName versions w :
  packageDoc reg packageName = Some versions ->
  let selected :=
    if decide (1 < length versions)
    then promptForVersion packageName (rev versions)
    else firstOrUndefined versions in
  let asked :=
    if decide (1 < length versions)
    then [PromptVersion packageName (rev versions)] else [] in
  let r := walk fuel packageName selected w in
  top fuel packageName w =
    match outcome r with
    | Done _ =>
        (Done tt, final r,
         GetPackageDoc packageName :: asked ++ trace r ++ [LogPackageDone packageName])
    | Threw _ =>
        (Done tt, final r,
         (GetPackageDoc packageName :: asked ++ trace r) ++ [ErrPackage packageName])
    | Exited c => (Exited c, final r, GetPackageDoc packageName :: asked ++ trace r)
    | OutOfFuel => (OutOfFuel, final r, GetPackageDoc packageName :: asked ++ trace r)
    end.
Proof.
  intros Hdoc selected asked r. subst selected asked r.
  unfold processPackage, tryCatch, bind. rewrite fetchPackageMetadata_run, Hdoc.
  case_decide; cbn.
  - by destruct (walk fuel _ _ w) as [[[[]|e|c|] w1] t1].
  - by destruct (walk fuel _ _ w) as [[[[]|e|c|] w1] t1].
Qed.

(** C1, as the walker has it.  An entry whose range no version satisfies
    costs a warning and the loop goes on with the entries after it.  An
    entry whose processing throws (its package document is refused, or the
    walk of the resolved version throws) ends the loop there: the run of
    the loop is the run of that entry, the entries after it are not
    touched, and the exception leaves the walker.  It is caught once, by
    [processPackage], which reports it for the package that was asked for
    and returns normally. *)
Theorem edge_failure_ends_loop fuel rest w :
  let body := edge (walk fuel) in
  (forall depName range versions,
      packageDoc reg depName = Some versions ->
      maxSatisfying versions range = None ->
      let r := forEach rest body w in
      forEach ((depName, range) :: rest) body w =
        (outcome r, final r,
         [GetPackageDoc depName; WarnNoVersion depName range] ++ trace r)) /\
  (forall entry e,
      outcome (body entry w) = Threw e ->
      forEach (entry :: rest) body w =
        (Threw e, final (body entry w), trace (body entry w))) /\
  (forall packageName versions e,
      packageDoc reg packageName = Some versions ->
      let selected :=
        if decide (1 < length versions)
        then promptForVersion packageName (rev versions)
        else firstOrUndefined versions in
      outcome (walk fuel packageName selected w) = Threw e ->
      outcome (top fuel packageName w) = Done tt /\
      exists t, trace (top fuel packageName w) = t ++ [ErrPackage packageName]).
Proof.
  intros body. split_and!.
  - intros depName range versions Hdoc Hnone r. subst r body.
    rewrite forEach_cons. unfold bind, resolveEdge at 1, bind.
    rewrite fetchPackageMetadata_run, Hdoc, Hnone. cbn.
    by destruct (forEach rest _ w) as [[o w2] t2].
  - intros entry e He. apply forEach_Threw.
    rewrite (run_eta (body entry w)). by rewrite He.
  - intros packageName versions e Hdoc selected He.
    rewrite (processPackage_run fuel packageName versions w Hdoc).
    cbn zeta. fold selected. rewrite He. split; [done|]. by eexists.
Qed.

End NpmFacts.

(** ** The image puller *)

Section DockerFacts.
Import Docker.
Variable machine : Machine.
Variable hub : Hub.
Variable path_join : string -> string -> string.
Variable sortTags : list string -> list string.
Variable chooseTag : list string -> string.
Variable choosePlatform : list (string * nat) -> nat.

Local Abbreviation pull :=
  (downloadDockerImage machine hub path_join sortTags chooseTag choosePlatform).
Local Abbreviation pullAll :=
  (downloadImages machine hub path_join sortTags chooseTag choosePlatform).
Local Abbreviation dir := (outputDir path_join).

Implicit Types (w : World) (name tag tok : string).

(** *** The output directory *)

Lemma mkdirp_run d w :
  mkdirp machine d w =
    if mkdirs machine d then (Done tt, w, [Mkdirp d])
    else (Threw (MkdirFailed d), w, [Mkdirp d]).
Proof. unfold mkdirp, bind, emit. by destruct (mkdirs machine d). Qed.

(** *** Tags *)

Lemma selectTag_no_tags name tok w :
  token hub name = Some tok ->
  tagsList hub name = Some None \/ tagsList hub name = Some (Some []) ->
  selectTag hub sortTags chooseTag name w =
    (Exited 1, w, [GetToken name; GetTags name tok; ErrNoTags]).
Proof.
  intros Htok Htags. unfold selectTag, tryCatch, bind, getToken, bind, emit.
  rewrite Htok. cbn. by destruct Htags as [-> | ->].
Qed.

(** C2, as the puller has it.  For an image reference without a tag whose
    tag list comes back empty or without a [tags] array, the puller, once
    the output directory is made, prints an error and calls
    [process.exit(1)]: the run of the whole batch ends there with exit
    status 1, the image is not pulled and the images after it in the batch
    are not started. *)
Theorem no_tags_exits_process imageName name given tok rest w :
  mkdirs machine dir = true ->
  imageRef imageName = (name, given) ->
  given = None \/ given = Some "" ->
  token hub name = Some tok ->
  tagsList hub name = Some None \/ tagsList hub name = Some (Some []) ->
  pullAll (imageName :: rest) w =
    (Exited 1, w,
     [LogStart imageName; Mkdirp dir; GetToken name; GetTags name tok; ErrNoTags]).
Proof.
  intros Hdir Href Htag Htok Htags. unfold downloadImages.
  rewrite forEach_cons. unfold downloadDockerImage. rewrite Href.
  pose proof (selectTag_no_tags name tok w Htok Htags) as Hsel.
  unfold bind at 1. unfold bind at 1, emit at 1. unfold bind at 1.
  rewrite mkdirp_run, Hdir. unfold bind at 1.
  by destruct Htag as [-> | ->]; cbn; rewrite Hsel.
Qed.

(** *** The manifest *)

Lemma getManifest_run name reference tok accept w :
  getManifest hub name reference tok accept w =
    match manifest hub name reference with
    | Some m => (Done m, w, [GetManifest name reference tok accept])
    | None => (Threw (RequestFailed (manifestUrl name reference)), w,
               [GetManifest name reference tok accept])
    end.
Proof.
  unfold getManifest, bind, emit, ret, throw.
  by destruct (manifest hub name reference).
Qed.

(** The choices of the platform prompt list the descriptors of the index
    in order, each under its own position. *)
Lemma platformChoices_lookup (ms : list Descriptor) (j : nat) :
  platformChoices ms !! j =
    (fun d => (platformLabel (platform d), j)) <$> ms !! j.
Proof. unfold platformChoices. by rewrite list_lookup_imap. Qed.

(** C6.  When the first manifest response carries the media type of a
    manifest list or of an OCI index, the puller prompts with one choice
    per descriptor of the index, labelled by its os, architecture and
    variant and valued by its position, and the next manifest request
    names the digest of the descriptor at the position the prompt
    answers: answering [i] requests the digest of entry [i].  Nothing
    stands in for the answer: at a position where the index has no
    descriptor the pull throws and no second request is made. *)
Theorem index_selection_fetches_digest name tag tok w m :
  manifest hub name tag = Some m ->
  isIndex (js_or (mediaType m) (contentType m)) = true ->
  let choices := platformChoices (manifests m) in
  let r := fetchManifest hub choosePlatform name tag tok w in
  length choices = length (manifests m) /\
  (forall j d, manifests m !! j = Some d ->
               choices !! j = Some (platformLabel (platform d), j)) /\
  (forall selected,
      manifests m !! choosePlatform choices = Some selected ->
      trace r = [GetManifest name tag tok acceptAny;
                 PromptPlatform choices;
                 GetManifest name (digest selected) tok acceptConcrete]) /\
  (manifests m !! choosePlatform choices = None ->
   r = (Threw TypeError, w,
        [GetManifest name tag tok acceptAny; PromptPlatform choices])).
Proof.
  intros Hm Hidx choices r. split_and!.
  - unfold choices, platformChoices. by rewrite length_imap.
  - intros j d Hd. unfold choices. by rewrite platformChoices_lookup, Hd.
  - intros selected Hsel. subst r.
    unfold fetchManifest, bind at 1. rewrite getManifest_run, Hm, Hidx.
    fold choices. unfold bind at 1, emit at 1. rewrite Hsel.
    unfold bind at 1. rewrite getManifest_run.
    by destruct (manifest hub name (digest selected)).
  - intros Hnone. subst r.
    unfold fetchManifest, bind at 1. rewrite getManifest_run, Hm, Hidx.
    fold choices. unfold bind at 1, emit at 1. by rewrite Hnone.
Qed.

(** With an explicit tag, the output directory made and no archive on disk
    yet, a pull is the token request, then the manifest requests, then the
    rest. *)
Lemma downloadDockerImage_requests imageName name tag tok w :
  mkdirs machine dir = true ->
  imageRef imageName = (name, Some tag) ->
  truthy tag = true ->
  disk w !! destPathOf path_join name tag = None ->
  token hub name = Some tok ->
  exists rest,
    trace (pull imageName w) =
      [LogStart imageName; Mkdirp dir; GetToken name] ++
      trace (fetchManifest hub choosePlatform name tag tok w) ++ rest.
Proof.
  intros Hdir Href Htag Hdisk Htok. unfold downloadDockerImage. rewrite Href, Htag.
  unfold bind at 1, emit at 1. unfold bind at 1. rewrite mkdirp_run, Hdir.
  rewrite bind_ret_l. unfold bind at 1, gets at 1. rewrite Hdisk.
  unfold tryCatch, bind at 1, getToken, bind at 1, emit at 1. rewrite Htok.
  unfold ret at 1. unfold bind at 1.
  destruct (fetchManifest hub choosePlatform name tag tok w)
    as [[[[m mt]|e|c|] w1] t1]; cbn.
  - destruct (isConcrete mt).
    + destruct (packImage machine hub name tok _ m w1) as [[[[]|e|c|] w2] t2]; cbn;
        eexists; rewrite <- ?app_assoc; reflexivity.
    + eexists. rewrite <- ?app_assoc. reflexivity.
  - eexists. rewrite <- ?app_assoc. reflexivity.
  - exists []. by rewrite app_nil_r.
  - exists []. by rewrite app_nil_r.
Qed.

(** *** The packer *)

Lemma packEntry_run p n w :
  packEntry machine p n w =
    match piping (pack w) with
    | None =>
        (Done tt,
         setPack {| piping := Some n; pending := pending (pack w);
                    finalizing := finalizing (pack w) |} (writeHeader p n w), [])
    | Some _ =>
        match tarStream machine with
        | TarStream2 => (Threw AlreadyPiping, w, [])
        | TarStream3 =>
            (Done tt,
             setPack {| piping := piping (pack w); pending := pending (pack w) ++ [n];
                        finalizing := finalizing (pack w) |} w, [])
        end
    end.
Proof.
  unfold packEntry, bind, gets, modify, throw.
  destruct (piping (pack w)); [|done]. by destruct (tarStream machine).
Qed.

(** While a sink is open [finalize] writes nothing. *)
Lemma packFinalize_busy p n w :
  piping (pack w) = Some n ->
  packFinalize p w =
    (Done tt,
     setPack {| piping := Some n; pending := pending (pack w); finalizing := true |} w,
     []).
Proof. intros Hp. unfold packFinalize, bind, gets, modify. by rewrite Hp. Qed.

Local Arguments packEntry : simpl never.
Local Arguments packFinalize : simpl never.

(** One iteration of the layer loop always returns: a refused blob request
    and, with release 2, an entry refused by the busy packer are printed. *)
Lemma addLayer_run name tok p d w :
  addLayer machine hub name tok p d w =
    if blob hub name d then
      match piping (pack w) with
      | None =>
          (Done tt,
           setPack {| piping := Some (layerEntryName d); pending := pending (pack w);
                      finalizing := finalizing (pack w) |}
             (writeHeader p (layerEntryName d) w),
           [GetBlob name d tok])
      | Some _ =>
          match tarStream machine with
          | TarStream2 =>
              (Done tt, w, [GetBlob name d tok; LogLayerFailed (blobUrl name d) tok])
          | TarStream3 =>
              (Done tt,
               setPack {| piping := piping (pack w);
                          pending := pending (pack w) ++ [layerEntryName d];
                          finalizing := finalizing (pack w) |} w,
               [GetBlob name d tok])
          end
      end
    else (Done tt, w, [GetBlob name d tok; LogLayerFailed (blobUrl name d) tok]).
Proof.
  unfold addLayer, tryCatch, bind at 1, getBlob, bind at 1, emit at 1.
  destruct (blob hub name d); [|done].
  unfold ret at 1. rewrite packEntry_run.
  destruct (piping (pack w)); [|done]. by destruct (tarStream machine).
Qed.

Lemma addLayer_Done name tok p d w :
  outcome (addLayer machine hub name tok p d w) = Done tt.
Proof.
  rewrite addLayer_run. destruct (blob hub name d); [|done].
  destruct (piping (pack w)); [|done]. by destruct (tarStream machine).
Qed.

(** The layer loop never stops early: it returns normally and has asked
    for every layer, in manifest order. *)
Lemma layers_loop_requests name tok p ds w :
  let r := forEach ds (addLayer machine hub name tok p) w in
  outcome r = Done tt /\
  blobRequests (trace r) = ds /\
  (forall d, d ∈ ds -> GetBlob name d tok ∈ trace r) /\
  (forall d, d ∈ ds -> blob hub name d = false ->
             LogLayerFailed (blobUrl name d) tok ∈ trace r).
Proof.
  revert w. induction ds as [|d ds IH]; intros w r.
  { subst r. cbn. split_and!; [done|done|set_solver|set_solver]. }
  subst r. rewrite forEach_cons.
  pose proof (addLayer_Done name tok p d w) as Hd.
  pose proof (addLayer_run name tok p d w) as Hrun.
  destruct (addLayer machine hub name tok p d w) as [[o w1] t1] eqn:Hadd.
  cbn in Hd. subst o. rewrite (bind_Done _ _ _ _ _ _ Hadd).
  destruct (IH w1) as (Ho & Hb & Hasked & Hfailed).
  cbn [outcome final trace fst snd].
  assert (blobRequests t1 = [d] /\ GetBlob name d tok ∈ t1 /\
          (blob hub name d = false -> LogLayerFailed (blobUrl name d) tok ∈ t1))
    as (Hb1 & Ha1 & Hf1).
  { destruct (blob hub name d).
    - destruct (piping (pack w)); [destruct (tarStream machine)|];
        injection Hrun as _ ->; split_and!; (done || left).
    - injection Hrun as _ ->. split_and!; [done|left|]. intros _. right. left. }
  split_and!.
  - done.
  - unfold blobRequests in *. by rewrite omap_app, Hb1, Hb.
  - intros d' [->|Hin]%elem_of_cons; apply elem_of_app; [by left|right; by apply Hasked].
  - intros d' [->|Hin]%elem_of_cons Hno; apply elem_of_app;
      [left; by apply Hf1|right; by apply Hfailed].
Qed.

(** What the layer loop leaves in the file and in the packer: the header
    of the first layer that arrived, if the packer was free, and nothing
    more; the sink of that entry is open from then on. *)
Lemma layers_loop_file name tok p ds w a :
  disk w !! p = Some a ->
  let r := forEach ds (addLayer machine hub name tok p) w in
  (forall q, q <> p -> disk (final r) !! q = disk w !! q) /\
  disk (final r) !! p =
    Some {| entries := entries a ++
                       map emptyEntry
                         (match piping (pack w) with
                          | Some _ => []
                          | None => take 1 (layerNames hub name ds)
                          end);
            finalized := finalized a |} /\
  piping (pack (final r)) =
    match piping (pack w) with
    | Some n => Some n
    | None => head (layerNames hub name ds)
    end.
Proof.
  revert w a. induction ds as [|d ds IH]; intros w a Ha r.
  { subst r. cbn. split_and!; [done| |by destruct (piping (pack w))].
    rewrite Ha. f_equal. destruct a, (piping (pack w)); cbn; by rewrite app_nil_r. }
  subst r. rewrite forEach_cons.
  pose proof (addLayer_Done name tok p d w) as Hd.
  pose proof (addLayer_run name tok p d w) as Hrun.
  destruct (addLayer machine hub name tok p d w) as [[o w1] t1] eqn:Hadd.
  cbn in Hd. subst o. rewrite (bind_Done _ _ _ _ _ _ Hadd).
  cbn [final fst snd]. unfold layerNames. cbn [List.filter].
  destruct (blob hub name d).
  - destruct (piping (pack w)) as [n|] eqn:Hp.
    + assert (disk w1 = disk w /\ piping (pack w1) = Some n) as [Hdisk Hp1].
      { destruct (tarStream machine); injection Hrun as -> _; by rewrite ?Hp. }
      assert (disk w1 !! p = Some a) as Ha1 by (by rewrite Hdisk).
      destruct (IH w1 a Ha1) as (Hq & Hfile & Hpipe).
      rewrite Hp1 in Hfile, Hpipe. split_and!; [|done|done].
      intros q Hne. by rewrite Hq, Hdisk.
    + injection Hrun as -> _.
      set (w1 := setPack _ (writeHeader p (layerEntryName d) w)).
      assert (disk w1 !! p =
                Some {| entries := entries a ++ [emptyEntry (layerEntryName d)];
                        finalized := finalized a |}) as Ha1.
      { cbn. by rewrite lookup_alter_eq, Ha. }
      destruct (IH w1 _ Ha1) as (Hq & Hfile & Hpipe).
      cbn [pack setPack piping] in Hfile, Hpipe.
      split_and!; [|by rewrite Hfile, app_nil_r|done].
      intros q Hne. rewrite Hq by done. cbn. by rewrite lookup_alter_ne.
  - injection Hrun as -> _. by apply IH.
Qed.

Lemma take_1_head {A} (l : list A) : take 1 l = option_list (head l).
Proof. by destruct l. Qed.

Lemma packImage_opened_run name tok p m w w1 t1 :
  opens machine p = true ->
  forEach (layers m) (addLayer machine hub name tok p)
    (createFile p (setPack newPack w)) = (Done tt, w1, t1) ->
  let cfg := config_digest m in
  packImage machine hub name tok p m w =
    if blob hub name cfg then
      match piping (pack w1) with
      | None =>
          (Done tt,
           setPack {| piping := Some "config.json"; pending := pending (pack w1);
                      finalizing := true |} (writeHeader p "config.json" w1),
           t1 ++ [GetBlob name cfg tok; LogComplete p])
      | Some n =>
          match tarStream machine with
          | TarStream2 => (Threw AlreadyPiping, w1, t1 ++ [GetBlob name cfg tok])
          | TarStream3 =>
              (Done tt,
               setPack {| piping := Some n; pending := pending (pack w1) ++ ["config.json"];
                          finalizing := true |} w1,
               t1 ++ [GetBlob name cfg tok; LogComplete p])
          end
      end
    else (Threw (RequestFailed (blobUrl name cfg)), w1, t1 ++ [GetBlob name cfg tok]).
Proof.
  intros Hopen Hloop cfg. unfold packImage. rewrite Hopen.
  unfold bind, modify, getBlob, emit, ret, throw. rewrite Hloop. fold cfg.
  destruct (blob hub name cfg); [|done].
  unfold bind. cbn. rewrite packEntry_run.
  destruct (piping (pack w1)) as [n|] eqn:Hp.
  - destruct (tarStream machine); [done|].
    rewrite (packFinalize_busy p n) by done. done.
  - rewrite (packFinalize_busy p "config.json") by done. done.
Qed.

(** What [packImage] does once the destination could be opened. *)
Lemma packImage_opened name tok p m w :
  opens machine p = true ->
  let r := packImage machine hub name tok p m w in
  let loop := forEach (layers m) (addLayer machine hub name tok p)
                (createFile p (setPack newPack w)) in
  let busy := head (layerNames hub name (layers m)) in
  outcome r =
    (if blob hub name (config_digest m) then
       match busy, tarStream machine with
       | Some _, TarStream2 => Threw AlreadyPiping
       | _, _ => Done tt
       end
     else Threw (RequestFailed (blobUrl name (config_digest m)))) /\
  trace r = trace loop ++ GetBlob name (config_digest m) tok ::
            match outcome r with
            | Done _ => [LogComplete p]
            | _ => []
            end /\
  (forall q, q <> p -> disk (final r) !! q = disk w !! q) /\
  disk (final r) !! p =
    Some {| entries := map emptyEntry (take 1 (entryNames hub name m));
            finalized := false |} /\
  (outcome r = Done tt -> is_Some (piping (pack (final r))) /\
                          finalizing (pack (final r)) = true).
Proof.
  intros Hopen r loop busy.
  assert (disk (createFile p (setPack newPack w)) !! p =
            Some {| entries := []; finalized := false |}) as Hnew.
  { cbn. apply lookup_insert_eq. }
  destruct (layers_loop_requests name tok p (layers m) (createFile p (setPack newPack w)))
    as (Ho & _).
  destruct (layers_loop_file name tok p (layers m) _ _ Hnew) as (Hq & Hfile & Hpipe).
  cbn [pack createFile setPack newPack piping entries finalized app] in Hfile, Hpipe.
  fold loop in Ho, Hq, Hfile, Hpipe. subst busy.
  assert (forall q, q <> p -> disk (final loop) !! q = disk w !! q) as Hq'.
  { intros q Hne. rewrite Hq by done. cbn. by rewrite lookup_insert_ne. }
  clear Hq.
  destruct loop as [[o w1] t1] eqn:Hloop. cbn [outcome final trace fst snd] in *.
  subst o r. rewrite (packImage_opened_run name tok p m w w1 t1 Hopen Hloop). cbn zeta.
  unfold entryNames. rewrite take_1_head in Hfile. rewrite take_1_head.
  rewrite Hpipe.
  destruct (blob hub name (config_digest m)).
  2:{ cbn [outcome final trace fst snd]. rewrite app_nil_r. by split_and!. }
  destruct (head (layerNames hub name (layers m))) as [n|] eqn:Hbusy.
  - assert (head (layerNames hub name (layers m) ++ ["config.json"]) = Some n) as ->.
    { by destruct (layerNames hub name (layers m)). }
    destruct (tarStream machine); cbn [outcome final trace fst snd];
      (split_and!; [done|done|done|done|]); [done|].
    intros _. by split; [eexists|].
  - assert (layerNames hub name (layers m) = []) as Hnil.
    { by destruct (layerNames hub name (layers m)). }
    rewrite Hnil in *. cbn [app head option_list map] in *.
    cbn [outcome final trace fst snd].
    assert (disk (writeHeader p "config.json" w1) !! p =
              Some {| entries := [emptyEntry "config.json"]; finalized := false |}) as Hcfg.
    { cbn. by rewrite lookup_alter_eq, Hfile. }
    assert (forall q, q <> p -> disk (writeHeader p "config.json" w1) !! q = disk w !! q)
      as Hcfg'.
    { intros q Hne. cbn. by rewrite lookup_alter_ne, Hq'. }
    destruct (tarStream machine); (split_and!; [done|done|done|done|]);
      intros _; by split; [eexists|].
Qed.

(** When the destination cannot be opened the process dies of the write
    stream's error while the first blob request is under way; nothing is
    written. *)
Lemma packImage_unopened name tok p m w :
  opens machine p = false ->
  packImage machine hub name tok p m w =
    (Exited 1, setPack newPack w,
     [GetBlob name (List.hd (config_digest m) (layers m)) tok; Uncaught (OpenFailed p)]).
Proof. intros Hopen. unfold packImage. by rewrite Hopen. Qed.

(** C7, as the puller has it.  Layers whose blob request fails do not stop
    the pull: every layer of the manifest is asked for, those before and
    those after a failed one, and each failed layer is printed.  But the
    archive the claim describes is not what the assembler leaves.  The
    response stream is passed to [pack.entry] where the content is
    expected, and the sink [entry] returns is dropped, so no content is
    ever written and the first entry is never ended: whatever arrives, the
    file holds the header of the first entry asked for, with size 0, and
    nothing else; it is never finalized, and with release 2 of the packer
    every later entry throws. *)
Theorem layer_failure_leaves_header name tok p m w :
  opens machine p = true ->
  let r := packImage machine hub name tok p m w in
  (forall d, d ∈ layers m -> GetBlob name d tok ∈ trace r) /\
  (forall d, d ∈ layers m -> blob hub name d = false ->
             LogLayerFailed (blobUrl name d) tok ∈ trace r) /\
  disk (final r) !! p =
    Some {| entries := map emptyEntry (take 1 (entryNames hub name m));
            finalized := false |} /\
  (blob hub name (config_digest m) = true ->
   outcome r = Done tt \/
   (tarStream machine = TarStream2 /\ outcome r = Threw AlreadyPiping)).
Proof.
  intros Hopen r.
  destruct (packImage_opened name tok p m w Hopen) as (Hout & Htrace & _ & Hfile & _).
  fold r in Hout, Htrace, Hfile.
  destruct (layers_loop_requests name tok p (layers m) (createFile p (setPack newPack w)))
    as (_ & _ & Hasked & Hfailed).
  split_and!.
  - intros d Hd. rewrite Htrace. apply elem_of_app. left. by apply Hasked.
  - intros d Hd Hno. rewrite Htrace. apply elem_of_app. left. by apply Hfailed.
  - exact Hfile.
  - intros Hcfg. rewrite Hcfg in Hout.
    destruct (head (layerNames hub name (layers m))); [|by left].
    destruct (tarStream machine); [by right|by left].
Qed.

End DockerFacts.

(** ** The version resolver *)

Section SemverFacts.
Import Semver.

(** *** Precedence *)

Lemma cmp_refl {A} (cmp : A -> A -> comparison) `{!TotalCmp cmp} a : cmp a a = Eq.
Proof. pose proof (cmp_antisym (cmp := cmp) a a) as H. by destruct (cmp a a). Qed.

#[local] Instance N_TotalCmp : TotalCmp N.compare.
Proof.
  split.
  - apply N.compare_eq.
  - intros a b. apply N.compare_antisym.
  - intros a b c. rewrite !N.compare_lt_iff. lia.
Qed.

#[local] Instance ascii_TotalCmp : TotalCmp Ascii.compare.
Proof.
  split.
  - apply Ascii.compare_eq_iff.
  - intros a b. apply Ascii.compare_antisym.
  - intros a b c. unfold Ascii.compare. apply cmp_trans.
Qed.

#[local] Instance string_TotalCmp : TotalCmp String.compare.
Proof.
  split.
  - apply String.compare_eq_iff.
  - intros a b. apply String.compare_antisym.
  - intros a. induction a as [|x a IH]; intros [|y b] [|z c]; cbn; try done.
    destruct (Ascii.compare x y) eqn:Hxy; try done.
    + apply cmp_eq in Hxy as ->.
      destruct (Ascii.compare y z); try done. apply IH.
    + destruct (Ascii.compare y z) eqn:Hyz; try done.
      * apply cmp_eq in Hyz as <-. by rewrite Hxy.
      * by rewrite (cmp_trans _ _ _ Hxy Hyz).
Qed.

(** Comparing on two criteria in turn keeps the order properties. *)
Lemma thenCmp_eq c d : thenCmp c d = Eq -> c = Eq /\ d = Eq.
Proof. by destruct c. Qed.

Lemma thenCmp_opp c d : CompOpp (thenCmp c d) = thenCmp (CompOpp c) (CompOpp d).
Proof. by destruct c. Qed.

Lemma thenCmp_Lt c d : thenCmp c d = Lt <-> c = Lt \/ (c = Eq /\ d = Lt).
Proof. destruct c; cbn; naive_solver. Qed.

#[local] Instance lexCmp_TotalCmp {A} (cmp : A -> A -> comparison) `{!TotalCmp cmp} :
  TotalCmp (lexCmp cmp).
Proof.
  split.
  - intros p. induction p as [|a p IH]; intros [|b q]; cbn; try done.
    intros [Hab Hpq]%thenCmp_eq. apply cmp_eq in Hab as ->.
    by rewrite (IH q Hpq).
  - intros p. induction p as [|a p IH]; intros [|b q]; cbn; try done.
    by rewrite thenCmp_opp, <- IH, <- cmp_antisym.
  - intros p. induction p as [|a p IH]; intros [|b q] [|c r]; cbn; try done.
    rewrite !thenCmp_Lt. intros [Hab|[Hab Hpq]] [Hbc|[Hbc Hqr]].
    + left. by eapply cmp_trans.
    + left. apply cmp_eq in Hbc as <-. done.
    + left. apply cmp_eq in Hab as ->. done.
    + right. apply cmp_eq in Hab as ->. split; [done|]. by eapply IH.
Qed.

#[local] Instance compareIdent_TotalCmp : TotalCmp compareIdent.
Proof.
  split.
  - intros [x|s] [y|t]; cbn; try done; intros H; f_equal; by apply cmp_eq in H.
  - intros [x|s] [y|t]; cbn; try done; apply cmp_antisym.
  - intros [x|s] [y|t] [z|u]; cbn; try done; apply cmp_trans.
Qed.

#[local] Instance comparePre_TotalCmp : TotalCmp comparePre.
Proof.
  split.
  - intros [|a p] [|b q]; cbn [comparePre]; try done. apply cmp_eq.
  - intros [|a p] [|b q]; cbn [comparePre]; try done. apply cmp_antisym.
  - intros [|a p] [|b q] [|c r]; cbn [comparePre]; try done. apply cmp_trans.
Qed.

#[local] Instance pairCmp_TotalCmp {A B} (cmpA : A -> A -> comparison)
    (cmpB : B -> B -> comparison) `{!TotalCmp cmpA, !TotalCmp cmpB} :
  TotalCmp (pairCmp cmpA cmpB).
Proof.
  split.
  - intros [a b] [a' b'] [Ha Hb]%thenCmp_eq. cbn in *.
    apply cmp_eq in Ha, Hb. by subst.
  - intros [a b] [a' b']. unfold pairCmp. cbn.
    by rewrite thenCmp_opp, <- (cmp_antisym (cmp := cmpA)),
      <- (cmp_antisym (cmp := cmpB)).
  - intros [a1 b1] [a2 b2] [a3 b3]. unfold pairCmp. cbn. rewrite !thenCmp_Lt.
    intros [H12|[H12 K12]] [H23|[H23 K23]].
    + left. by eapply cmp_trans.
    + left. by apply cmp_eq in H23 as <-.
    + left. by apply cmp_eq in H12 as ->.
    + right. apply cmp_eq in H12 as ->. split; [done|]. by eapply cmp_trans.
Qed.

Local Abbreviation byFields :=
  (pairCmp N.compare (pairCmp N.compare (pairCmp N.compare comparePre))).

Lemma compare_fields v w : compare v w = byFields (fields v) (fields w).
Proof. done. Qed.

(** Precedence is a total order on what it reads of a version: two versions
    tie exactly when they differ in build metadata at most. *)
Lemma compare_Eq v w : compare v w = Eq <-> fields v = fields w.
Proof.
  rewrite compare_fields. split.
  - apply (cmp_eq (cmp := byFields)).
  - intros ->. apply (cmp_refl byFields).
Qed.

Lemma compare_antisym v w : compare w v = CompOpp (compare v w).
Proof. rewrite !compare_fields. apply (cmp_antisym (cmp := byFields)). Qed.

Lemma compare_trans u v w : compare u v = Lt -> compare v w = Lt -> compare u w = Lt.
Proof. rewrite !compare_fields. apply (cmp_trans (cmp := byFields)). Qed.

Lemma compare_Eq_l u v w : compare u v = Eq -> compare u w = compare v w.
Proof. intros H%compare_Eq. by rewrite !compare_fields, H. Qed.

(** *** The scan *)

Section Resolver.
Variable parse : string -> option Version.
Variable Range : Type.
Variable satisfies : Version -> Range -> bool.

Local Abbreviation res := (resolve parse Range satisfies).
Local Abbreviation sat := (meets parse Range satisfies).
Local Abbreviation prec := (precedence parse).

Implicit Types (V : list string) (R : Range) (s t u r : string).

Lemma precedence_refl s : prec s s = Eq.
Proof.
  unfold precedence. destruct (parse s) as [v|]; [|done]. by apply compare_Eq.
Qed.

Lemma precedence_antisym s t : prec t s = CompOpp (prec s t).
Proof.
  unfold precedence. destruct (parse s) as [v|], (parse t) as [w|]; try done.
  apply compare_antisym.
Qed.

Lemma precedence_trans s t u : prec s t = Lt -> prec t u = Lt -> prec s u = Lt.
Proof.
  unfold precedence.
  destruct (parse s) as [v|], (parse t) as [w|], (parse u) as [x|]; try done.
  apply compare_trans.
Qed.

Lemma precedence_Eq_l R s t u :
  sat R s = true -> sat R t = true -> prec s t = Eq -> prec s u = prec t u.
Proof.
  unfold meets, precedence.
  destruct (parse s) as [v|], (parse t) as [w|]; try done.
  intros _ _ H. destruct (parse u); [|done]. by apply compare_Eq_l.
Qed.

Lemma resolve_snoc V s R :
  res (V ++ [s]) R = keepBest parse Range satisfies R (res V R) s.
Proof. unfold resolve. by rewrite foldl_snoc. Qed.

(** What the scan returns: a satisfying member no satisfying member is
    above, or nothing when no member satisfies. *)
Lemma resolve_highest V R :
  match res V R with
  | Some r =>
      r ∈ V /\ sat R r = true /\
      forall s, s ∈ V -> sat R s = true -> prec s r <> Gt
  | None => forall s, s ∈ V -> sat R s = false
  end.
Proof.
  induction V as [|x V IH] using rev_ind.
  { cbn. intros v Hv. by apply elem_of_nil in Hv. }
  rewrite resolve_snoc. unfold keepBest.
  destruct (sat R x) eqn:Hx.
  - destruct (res V R) as [b|].
    + destruct IH as (Hb & Hsat & Hmax).
      destruct (prec b x) eqn:Hbx.
      * split_and!; [set_solver|done|].
        intros v [Hv|Hv]%elem_of_app Hs; [by apply Hmax|].
        apply list_elem_of_singleton in Hv as ->.
        rewrite (precedence_antisym b x), Hbx. done.
      * split_and!; [set_solver|done|].
        intros v [Hv|Hv]%elem_of_app Hs.
        -- specialize (Hmax v Hv Hs).
           destruct (prec v b) eqn:Hvb; [| |done].
           ++ by rewrite (precedence_Eq_l R v b x Hs Hsat Hvb), Hbx.
           ++ by rewrite (precedence_trans _ _ _ Hvb Hbx).
        -- apply list_elem_of_singleton in Hv as ->.
           by rewrite precedence_refl.
      * split_and!; [set_solver|done|].
        intros v [Hv|Hv]%elem_of_app Hs; [by apply Hmax|].
        apply list_elem_of_singleton in Hv as ->.
        rewrite (precedence_antisym b x), Hbx. done.
    + split_and!; [set_solver|done|].
      intros v [Hv|Hv]%elem_of_app Hs.
      * rewrite (IH v Hv) in Hs. done.
      * apply list_elem_of_singleton in Hv as ->. by rewrite precedence_refl.
  - destruct (res V R) as [b|].
    + destruct IH as (Hb & Hsat & Hmax). split_and!; [set_solver|done|].
      intros v [Hv|Hv]%elem_of_app Hs; [by apply Hmax|].
      apply list_elem_of_singleton in Hv as ->. congruence.
    + intros v [Hv|Hv]%elem_of_app; [by apply IH|].
      by apply list_elem_of_singleton in Hv as ->.
Qed.

(** Two highest satisfying members of a set have the same precedence. *)
Lemma highest_tie (P : string -> Prop) r r' :
  P r -> (forall s, P s -> prec s r <> Gt) ->
  P r' -> (forall s, P s -> prec s r' <> Gt) ->
  prec r' r = Eq.
Proof.
  intros Hr Hmax Hr' Hmax'.
  specialize (Hmax r' Hr'). specialize (Hmax' r Hr).
  rewrite (precedence_antisym r' r) in Hmax'.
  by destruct (prec r' r).
Qed.

End Resolver.

End SemverFacts.

(** ** The properties on the concrete registries *)

Section PackageChecks.
Import Npm Scenario Scenario.Packages.

Local Abbreviation walkOn reg := (downloadTarball reg exactVersion lastSegment join).
Local Abbreviation edgeOn reg := (resolveEdge reg exactVersion).

(** C1, as stated, fails: P depends on X and then on Y, the package
    document of X is refused, and the walk of P ends with that exception:
    Y, the sibling entry after X, is neither resolved (its package
    document is never requested) nor walked (its identity is not in the
    set), although the registry serves it. *)
Lemma sibling_edge_not_processed :
  let r := walkOn flaky 3 "P" "1.0.0" empty in
  versionDoc flaky "P" "1.0.0" =
    Some (doc [("X", "1.0.0"); ("Y", "1.0.0")] "https://r/P/-/P-1.0.0.tgz") /\
  outcome (walkOn flaky 3 "Y" "1.0.0" empty) = Done tt /\
  outcome r = Threw (FetchError "/X") /\
  (GetPackageDoc "Y" ∉ trace r) /\
  ("Y@1.0.0" ∉ downloadedPackages (final r)).
Proof.
  cbv zeta. split_and!; [reflexivity|reflexivity|reflexivity| |];
    compute_done.
Qed.

Lemma edge_failure_ends_loop_witness :
  let body := edgeOn flaky (walkOn flaky 2) in
  let rest := [("Y", "1.0.0")] in
  (let r := forEach rest body empty in
   forEach (("Z", "2.0.0") :: rest) body empty =
     (outcome r, final r, [GetPackageDoc "Z"; WarnNoVersion "Z" "2.0.0"] ++ trace r)) /\
  forEach (("X", "1.0.0") :: rest) body empty =
    (Threw (FetchError "/X"), final (body ("X", "1.0.0") empty),
     trace (body ("X", "1.0.0") empty)) /\
  (outcome (processPackage flaky exactVersion lastSegment join firstChoice 2 "P" empty)
     = Done tt /\
   exists t,
     trace (processPackage flaky exactVersion lastSegment join firstChoice 2 "P" empty)
       = t ++ [ErrPackage "P"]).
Proof.
  destruct (edge_failure_ends_loop flaky exactVersion lastSegment join firstChoice
              2 [("Y", "1.0.0")] empty) as (Hwarn & Hthrow & Htop).
  split; [|split].
  - exact (Hwarn "Z" "2.0.0" ["1.0.0"] eq_refl eq_refl).
  - exact (Hthrow ("X", "1.0.0") (FetchError "/X") eq_refl).
  - exact (Htop "P" ["1.0.0"] (FetchError "/X") eq_refl eq_refl).
Defined.

Lemma downloadTarball_idempotent_witness :
  let r := walkOn cycle 3 "A" "1.0.0" empty in
  "A@1.0.0" ∈ downloadedPackages (final r) /\
  walkOn cycle 1 "A" "1.0.0" (final r) = (Done tt, final r, []) /\
  (exists rest, trace r = LogProcessing "A@1.0.0" :: GetVersionDoc "A" "1.0.0" :: rest) /\
  NoDup (versionDocKeys (trace r)) /\
  ("A@1.0.0" ∉ versionDocKeys (trace (walkOn cycle 3 "B" "1.0.0" (final r)))).
Proof.
  destruct (downloadTarball_idempotent cycle exactVersion lastSegment join
              2 0 "A" "1.0.0" empty) as (Hin & Hagain & _ & Hhead & Hnodup & _ & Hlater).
  split_and!.
  - exact Hin.
  - exact Hagain.
  - apply Hhead. compute_done.
  - exact Hnodup.
  - apply (Hlater 3 "B" "1.0.0"). reflexivity.
Defined.

Lemma downloadTarball_failure_not_retried_witness :
  let r := walkOn flaky 3 "X" "1.0.0" empty in
  outcome r = Threw (FetchError "/X/1.0.0") /\
  "X@1.0.0" ∈ downloadedPackages (final r) /\
  walkOn flaky 3 "X" "1.0.0" (final r) = (Done tt, final r, []).
Proof.
  assert (outcome (walkOn flaky 3 "X" "1.0.0" empty) = Threw (FetchError "/X/1.0.0"))
    as Hthrew by reflexivity.
  destruct (downloadTarball_failure_not_retried flaky exactVersion lastSegment join
              3 "X" "1.0.0" empty (FetchError "/X/1.0.0") Hthrew) as (Hin & Hnoop).
  split_and!.
  - exact Hthrew.
  - exact Hin.
  - apply (Hnoop _ (reflexivity _) 2).
Defined.

Lemma cycleIds_closed n v d :
  versionDoc cycle n v = Some d -> pkgSpecOf n v ∈ cycleIds.
Proof.
  cbn. destruct (String.eqb_spec v "1.0.0") as [->|]; [|discriminate].
  destruct (String.eqb_spec n "A") as [->|].
  { intros _. compute_done. }
  destruct (String.eqb_spec n "B") as [->|]; [|discriminate].
  intros _. compute_done.
Defined.

Lemma downloadTarball_terminates_witness :
  exists fuel,
    let r := walkOn cycle fuel "A" "1.0.0" empty in
    outcome r <> OutOfFuel /\
    (forall fuel', fuel <= fuel' -> walkOn cycle fuel' "A" "1.0.0" empty = r) /\
    NoDup (versionDocKeys (trace r)) /\
    NoDup (tarballKeys (trace r)).
Proof.
  apply (downloadTarball_terminates cycle exactVersion lastSegment join cycleIds).
  exact cycleIds_closed.
Defined.

Lemma existing_file_not_fetched_witness :
  let r := walkOn flaky 3 "P" "1.0.0" leftover in
  ("https://r/P/-/P-1.0.0.tgz" ∉ tarballUrls (trace r)) /\
  ("P@1.0.0" ∉ tarballKeys (trace r)) /\
  LogAlreadyDownloaded "P-1.0.0.tgz" ∈ trace r /\
  disk (final r) !! "downloads/npm-packages/P-1.0.0.tgz" = Some Partial.
Proof.
  apply (existing_file_not_fetched flaky exactVersion lastSegment join 2 "P" "1.0.0"
           leftover (doc [("X", "1.0.0"); ("Y", "1.0.0")] "https://r/P/-/P-1.0.0.tgz")
           Partial).
  - compute_done.
  - reflexivity.
  - vm_compute. reflexivity.
Defined.

(** C10, as stated, fails: the tarball of P is on disk and P is not in
    the set; P depends on X and then on Y, and the registry serves Y.  The
    walk requests the version document of P and finds the file, but the
    package document of X is refused and the loop ends there: Y is never
    resolved and the walker is never called on it. *)
Lemma existing_file_edge_not_walked :
  let r := walkOn flaky 3 "P" "1.0.0" leftover in
  ("P@1.0.0" ∉ downloadedPackages leftover) /\
  versionDoc flaky "P" "1.0.0" =
    Some (doc [("X", "1.0.0"); ("Y", "1.0.0")] "https://r/P/-/P-1.0.0.tgz") /\
  disk leftover !! "downloads/npm-packages/P-1.0.0.tgz" = Some Partial /\
  packageDoc flaky "Y" = Some ["1.0.0"] /\
  exactVersion ["1.0.0"] "1.0.0" = Some "1.0.0" /\
  GetVersionDoc "P" "1.0.0" ∈ trace r /\
  LogAlreadyDownloaded "P-1.0.0.tgz" ∈ trace r /\
  outcome r = Threw (FetchError "/X") /\
  (GetPackageDoc "Y" ∉ trace r) /\
  ("Y@1.0.0" ∉ versionDocKeys (trace r)) /\
  ("Y@1.0.0" ∉ downloadedPackages (final r)).
Proof.
  cbv zeta. split_and!; try reflexivity; compute_done.
Qed.

Lemma existing_file_still_walks_witness :
  let r := walkOn flaky 3 "Q" "1.0.0" leftover in
  (exists rest,
     trace r = [LogProcessing "Q@1.0.0"; GetVersionDoc "Q" "1.0.0";
                Mkdirp (outputDir join); LogAlreadyDownloaded "Q-1.0.0.tgz"] ++ rest) /\
  GetPackageDoc "Z" ∈ trace r /\
  GetPackageDoc "Y" ∈ trace r /\
  "Y@1.0.0" ∈ versionDocKeys (trace r).
Proof.
  assert ("Q@1.0.0" ∉ downloadedPackages leftover) as Hnew.
  { compute_done. }
  assert ("Y@1.0.0" ∉ downloadedPackages leftover) as Hfresh.
  { compute_done. }
  assert (disk leftover !! destPathOf lastSegment join "https://r/Q/-/Q-1.0.0.tgz"
          = Some Partial) as Hfile.
  { vm_compute. reflexivity. }
  destruct (existing_file_still_walks flaky exactVersion lastSegment join
              2 "Q" "1.0.0" leftover
              (doc [("Z", "2.0.0"); ("Y", "1.0.0")] "https://r/Q/-/Q-1.0.0.tgz")
              Partial Hnew (reflexivity _) Hfile) as (Hhead & _ & Hedges).
  assert (outcome (walkOn flaky 3 "Q" "1.0.0" leftover) = Done tt) as Hdone
    by reflexivity.
  assert (("Z", "2.0.0") ∈ [("Z", "2.0.0"); ("Y", "1.0.0")]) as HZ by compute_done.
  assert (("Y", "1.0.0") ∈ [("Z", "2.0.0"); ("Y", "1.0.0")]) as HY by compute_done.
  split_and!.
  - exact Hhead.
  - exact (proj1 (Hedges Hdone "Z" "2.0.0" HZ)).
  - exact (proj1 (Hedges Hdone "Y" "1.0.0" HY)).
  - destruct (proj2 (Hedges Hdone "Y" "1.0.0" HY) ["1.0.0"] "1.0.0"
                eq_refl eq_refl eq_refl) as [Hk|Hk]; [by destruct Hfresh|exact Hk].
Defined.
End PackageChecks.

Section ImageChecks.
Import Docker Scenario Scenario.Images.

Local Abbreviation pullBatch := (downloadImages sound3 hub join sorted anyTag second).

(** C2, as stated, fails: in the batch of [untagged] and [alpine:3.18]
    the repository of the first image lists no tag, and the run of the
    batch ends with exit status 1 after the error line: the second image,
    which pulls fine when it is asked for alone, is never started. *)
Lemma untagged_image_stops_batch :
  let r := pullBatch ["untagged"; "alpine:3.18"] empty in
  tagsList hub "library/untagged" = Some (Some []) /\
  outcome (pullBatch ["alpine:3.18"] empty) = Done tt /\
  outcome r = Exited 1 /\
  (LogStart "alpine:3.18" ∉ trace r) /\
  trace r = [LogStart "untagged"; Mkdirp "downloads/docker-images";
             GetToken "library/untagged"; GetTags "library/untagged" "tok2";
             ErrNoTags].
Proof.
  cbv zeta. split_and!; [reflexivity|reflexivity|reflexivity| |reflexivity].
  compute_done.
Qed.

Lemma no_tags_exits_process_witness :
  pullBatch ["untagged"; "alpine:3.18"] empty =
    (Exited 1, empty,
     [LogStart "untagged"; Mkdirp (outputDir join); GetToken "library/untagged";
      GetTags "library/untagged" "tok2"; ErrNoTags]).
Proof.
  apply (no_tags_exits_process sound3 hub join sorted anyTag second
           "untagged" "library/untagged" None "tok2").
  - reflexivity.
  - reflexivity.
  - left. reflexivity.
  - reflexivity.
  - right. reflexivity.
Defined.

Lemma index_selection_fetches_digest_witness :
  manifests index = [amd64; arm64] /\
  second (platformChoices (manifests index)) = 1 /\
  trace (fetchManifest hub second "library/alpine" "3.18" "tok" empty) =
    [GetManifest "library/alpine" "3.18" "tok" acceptAny;
     PromptPlatform [("linux/amd64", 0); ("linux/arm64 (v8)", 1)];
     GetManifest "library/alpine" (digest arm64) "tok" acceptConcrete] /\
  GetManifest "library/alpine" "sha256:bbb" "tok" acceptConcrete
    ∈ trace (pullBatch ["alpine:3.18"] empty).
Proof.
  destruct (index_selection_fetches_digest hub second
              "library/alpine" "3.18" "tok" empty index eq_refl eq_refl)
    as (_ & _ & Hsel & _).
  split; [reflexivity|]. split; [reflexivity|]. split.
  - exact (Hsel arm64 eq_refl).
  - compute_done.
Defined.

(** The pull of alpine:3.18 from the hub that refuses the second layer.
    All three layers are asked for and the refused one is printed; the file
    is left with the header of the first layer alone, no content and no
    end-of-archive marker, under either release of the packer, where the
    claim has the first and third layer and the configuration in a
    finalized archive. *)
Lemma layer_failure_leaves_header_witness :
  let r := packImage sound3 hub "library/alpine" "tok" "alpine.tar" concrete empty in
  let r2 := packImage sound2 hub "library/alpine" "tok" "alpine.tar" concrete empty in
  blob hub "library/alpine" "sha256:l2" = false /\
  GetBlob "library/alpine" "sha256:l3" "tok" ∈ trace r /\
  LogLayerFailed (blobUrl "library/alpine" "sha256:l2") "tok" ∈ trace r /\
  outcome r = Done tt /\
  LogComplete "alpine.tar" ∈ trace r /\
  disk (final r) !! "alpine.tar" =
    Some {| entries := [emptyEntry "layer-sha256_l1.tar.gz"]; finalized := false |} /\
  outcome r2 = Threw AlreadyPiping /\
  disk (final r2) !! "alpine.tar" =
    Some {| entries := [emptyEntry "layer-sha256_l1.tar.gz"]; finalized := false |} /\
  disk (final (pullBatch ["alpine:3.18"] empty))
    !! "downloads/docker-images/library_alpine_3.18.tar" =
    Some {| entries := [emptyEntry "layer-sha256_l1.tar.gz"]; finalized := false |}.
Proof.
  destruct (layer_failure_leaves_header sound3 hub "library/alpine" "tok" "alpine.tar"
              concrete empty eq_refl) as (Hasked & Hfailed & Hdisk & _).
  destruct (layer_failure_leaves_header sound2 hub "library/alpine" "tok" "alpine.tar"
              concrete empty eq_refl) as (_ & _ & Hdisk2 & _).
  assert ("sha256:l3" ∈ layers concrete) as H3 by compute_done.
  assert ("sha256:l2" ∈ layers concrete) as H2 by compute_done.
  split_and!.
  - reflexivity.
  - exact (Hasked "sha256:l3" H3).
  - exact (Hfailed "sha256:l2" H2 eq_refl).
  - reflexivity.
  - compute_done.
  - exact Hdisk.
  - reflexivity.
  - exact Hdisk2.
  - vm_compute. reflexivity.
Defined.
End ImageChecks.

Section VersionChecks.
Import Semver Scenario Scenario.Versions.

Local Abbreviation pickFrom := (resolve readVersion N sameMajor).

Lemma shuffled_same_set v : v ∈ shuffled <-> v ∈ available.
Proof.
  unfold shuffled, available. rewrite !elem_of_cons, !elem_of_nil. tauto.
Defined.


End VersionChecks.

(** * Further properties *)

(** ** Runs that return normally, and what a program may emit *)

Section EffMore.
Context {St Ev E : Type}.
Local Abbreviation Act := (M St Ev E).

Lemma outcome_bind_not_Threw {A B} (m : Act A) (k : A -> Act B) s :
  (forall e, outcome (m s) <> Threw e) ->
  (forall a e, outcome (k a (final (m s))) <> Threw e) ->
  forall e, outcome (bind m k s) <> Threw e.
Proof.
  unfold bind. intros Hm Hk e.
  destruct (m s) as [[[a|e'|c|] s1] t1]; try done.
  - specialize (Hk a e). cbn in Hk. by destruct (k a s1) as [[[]]].
  - by specialize (Hm e').
Qed.

Lemma tryCatch_not_Threw {A} (m : Act A) (h : E -> Act A) s :
  (forall e s' e', outcome (h e s') <> Threw e') ->
  forall e, outcome (tryCatch m h s) <> Threw e.
Proof.
  intros Hh e. unfold tryCatch.
  destruct (m s) as [[[a|e'|c|] s1] t1]; try done.
  specialize (Hh e' s1 e). by destruct (h e' s1) as [[[]]].
Qed.

Lemma forEach_not_Threw {A} (l : list A) (body : A -> Act unit) :
  (forall x s e, outcome (body x s) <> Threw e) ->
  forall s e, outcome (forEach l body s) <> Threw e.
Proof.
  intros Hb. induction l as [|x l IH]; intros s e; [done|].
  rewrite forEach_cons. apply outcome_bind_not_Threw; [apply Hb|].
  intros _ e'. apply IH.
Qed.

Lemma forEach_not_Exited {A} (l : list A) (body : A -> Act unit) :
  (forall x s c, outcome (body x s) <> Exited c) ->
  forall s c, outcome (forEach l body s) <> Exited c.
Proof.
  intros Hb. induction l as [|x l IH]; intros s c; [done|].
  rewrite forEach_cons. unfold bind. specialize (Hb x s).
  destruct (body x s) as [[[[]|e'|c'|] s1] t1]; try done.
  specialize (IH s1 c). by destruct (forEach l body s1) as [[[]]].
Qed.

(** A loop that returned normally ran every iteration to a normal return:
    the trace of each is a part of the loop's trace. *)
Lemma forEach_Done_inv {A} (l : list A) (body : A -> Act unit) s :
  outcome (forEach l body s) = Done tt ->
  forall x, x ∈ l ->
    exists s' t1 t2,
      outcome (body x s') = Done tt /\
      trace (forEach l body s) = t1 ++ trace (body x s') ++ t2.
Proof.
  revert s. induction l as [|y l IH]; intros s Hdone x Hx.
  { by apply elem_of_nil in Hx. }
  rewrite forEach_cons in *.
  apply bind_Done_inv in Hdone as ([] & s1 & t1 & Hy & Hrest).
  rewrite (bind_Done _ _ _ _ _ _ Hy). cbn [trace snd].
  apply elem_of_cons in Hx as [->|Hx].
  - exists s, [], (trace (forEach l body s1)). rewrite Hy. by cbn.
  - destruct (IH s1 Hrest x Hx) as (s' & u1 & u2 & Hd & Ht).
    exists s', (t1 ++ u1), u2. split; [done|]. by rewrite Ht, <- app_assoc.
Qed.

(** Two loops whose iterations agree wherever the first has fuel agree
    wherever the first loop has fuel. *)
Lemma forEach_more_fuel {A} (l : list A) (body body' : A -> Act unit) :
  (forall x s, outcome (body x s) <> OutOfFuel -> body' x s = body x s) ->
  forall s, outcome (forEach l body s) <> OutOfFuel ->
            forEach l body' s = forEach l body s.
Proof.
  intros Hb. induction l as [|x l IH]; intros s Hout; [done|].
  rewrite !forEach_cons in *.
  assert (outcome (body x s) <> OutOfFuel) as Hx.
  { intros Hx. by apply Hout, bind_fuel_l. }
  unfold bind in *. rewrite (Hb x s Hx).
  destruct (body x s) as [[[[]|e|c|] s1] t1]; try done.
  rewrite IH; [done|]. intros Hr. apply Hout.
  by destruct (forEach l body s1) as [[[]]].
Qed.

Lemma forEach_all_Done {A} (l : list A) (body : A -> Act unit) :
  (forall x s, x ∈ l -> outcome (body x s) = Done tt) ->
  forall s, outcome (forEach l body s) = Done tt.
Proof.
  induction l as [|x l IH]; intros Hb s; [done|].
  rewrite forEach_cons. unfold bind.
  pose proof (Hb x s ltac:(left)) as Hx.
  destruct (body x s) as [[o s1] t1]. cbn in Hx. subst o.
  assert (outcome (forEach l body s1) = Done tt) as Hl.
  { apply IH. intros y s' Hy. apply Hb. by right. }
  by destruct (forEach l body s1) as [[o s2] t2].
Qed.

Lemma forEach_Exited_trace {A} (l : list A) (body : A -> Act unit) s c :
  outcome (forEach l body s) = Exited c ->
  exists x s' t1,
    x ∈ l /\ outcome (body x s') = Exited c /\
    trace (forEach l body s) = t1 ++ trace (body x s').
Proof.
  revert s. induction l as [|x l IH]; intros s; [done|].
  rewrite forEach_cons. unfold bind.
  destruct (body x s) as [[[[]|e|c'|] s1] t1] eqn:Hx; try done.
  - intros Hl. destruct (IH s1) as (y & s' & t2 & Hy & Hc & Ht).
    { by destruct (forEach l body s1) as [[o s2] t2]. }
    exists y, s', (t1 ++ t2). split; [by right|]. split; [done|].
    destruct (forEach l body s1) as [[o s2] t3]. cbn in *.
    by rewrite Ht, app_assoc.
  - intros [= <-]. exists x, s, []. rewrite Hx. split; [left|done].
Qed.

Lemma forEach_Threw_inv {A} (l : list A) (body : A -> Act unit) s e :
  outcome (forEach l body s) = Threw e ->
  exists x s', x ∈ l /\ outcome (body x s') = Threw e.
Proof.
  revert s. induction l as [|x l IH]; intros s; [done|].
  rewrite forEach_cons. unfold bind.
  destruct (body x s) as [[[[]|e'|c'|] s1] t1] eqn:Hx; try done.
  - intros Hl. destruct (IH s1) as (y & s' & Hy & Hc).
    { by destruct (forEach l body s1) as [[o s2] t2]. }
    exists y, s'. split; [by right|done].
  - intros [= <-]. exists x, s. split; [left|by rewrite Hx].
Qed.

Lemma forEach_Exited_inv {A} (l : list A) (body : A -> Act unit) s c :
  outcome (forEach l body s) = Exited c ->
  exists x s', x ∈ l /\ outcome (body x s') = Exited c.
Proof.
  revert s. induction l as [|x l IH]; intros s; [done|].
  rewrite forEach_cons. unfold bind.
  destruct (body x s) as [[[[]|e|c'|] s1] t1] eqn:Hx; try done.
  - intros Hl. destruct (IH s1) as (y & s' & Hy & Hc).
    { by destruct (forEach l body s1) as [[o s2] t2]. }
    exists y, s'. split; [by right|done].
  - intros [= ->]. exists x, s. split; [left|by rewrite Hx].
Qed.

Section RespectsDone.
Variable R : St -> St -> list Ev -> Prop.
Hypothesis R_refl : forall s, R s s [].
Hypothesis R_trans : forall s1 s2 s3 t1 t2,
  R s1 s2 t1 -> R s2 s3 t2 -> R s1 s3 (t1 ++ t2).

Lemma bind_Done_at {A B} (m : Act A) (k : A -> Act B) s b :
  outcome (bind m k s) = Done b ->
  R s (final (m s)) (trace (m s)) ->
  (forall a, respectsDone R (k a)) ->
  R s (final (bind m k s)) (trace (bind m k s)).
Proof.
  intros Hdone Hm Hk.
  apply bind_Done_inv in Hdone as (a & s1 & t1 & Hms & Hks).
  rewrite (bind_Done _ _ _ _ _ _ Hms). rewrite Hms in Hm. cbn in *.
  eapply R_trans; [done|]. by eapply Hk.
Qed.

Lemma respectsDone_bind {A B} (m : Act A) (k : A -> Act B) :
  respectsDone R m -> (forall a, respectsDone R (k a)) -> respectsDone R (bind m k).
Proof.
  intros Hm Hk s b Hdone. eapply bind_Done_at; [done| |done].
  apply bind_Done_inv in Hdone as (a & s1 & t1 & Hms & _).
  eapply (Hm s a). by rewrite Hms.
Qed.

Lemma respectsDone_forEach {A} (l : list A) (body : A -> Act unit) :
  (forall x, x ∈ l -> respectsDone R (body x)) -> respectsDone R (forEach l body).
Proof.
  induction l as [|x l IH]; intros Hb.
  - intros s a _. apply R_refl.
  - apply respectsDone_bind.
    + apply Hb. left.
    + intros _. apply IH. intros y Hy. apply Hb. by right.
Qed.
End RespectsDone.

(** *** Events *)

Lemma emitsOnly_respects (P : Ev -> Prop) {A} (m : Act A) :
  emitsOnly P m <-> respects (fun _ _ t => Forall P t) m.
Proof. done. Qed.

Lemma emitsOnly_bind (P : Ev -> Prop) {A B} (m : Act A) (k : A -> Act B) :
  emitsOnly P m -> (forall a, emitsOnly P (k a)) -> emitsOnly P (bind m k).
Proof.
  intros Hm Hk. apply (respects_bind (fun _ _ t => Forall P t)); try done.
  intros. by apply Forall_app.
Qed.

(** The same when the rest of the sequence is only known to behave for the
    values the first part returns. *)
Lemma emitsOnly_bind_Done (P : Ev -> Prop) {A B} (m : Act A) (k : A -> Act B) :
  emitsOnly P m ->
  (forall s a, outcome (m s) = Done a -> Forall P (trace (k a (final (m s))))) ->
  emitsOnly P (bind m k).
Proof.
  intros Hm Hk s. specialize (Hm s). specialize (Hk s). unfold bind.
  destruct (m s) as [[[a|e|c|] s1] t1]; try done.
  specialize (Hk a eq_refl). cbn in *. destruct (k a s1) as [[o s2] t2].
  by apply Forall_app.
Qed.

Lemma emitsOnly_tryCatch (P : Ev -> Prop) {A} (m : Act A) (h : E -> Act A) :
  emitsOnly P m -> (forall e, emitsOnly P (h e)) -> emitsOnly P (tryCatch m h).
Proof.
  intros Hm Hh. apply (respects_tryCatch (fun _ _ t => Forall P t)); try done.
  intros. by apply Forall_app.
Qed.

Lemma emitsOnly_forEach (P : Ev -> Prop) {A} (l : list A) (body : A -> Act unit) :
  (forall x, x ∈ l -> emitsOnly P (body x)) -> emitsOnly P (forEach l body).
Proof.
  intros Hb. apply (respects_forEach (fun _ _ t => Forall P t)); try done.
  intros. by apply Forall_app.
Qed.

Lemma emitsOnly_emit (P : Ev -> Prop) (e : Ev) :
  P e -> emitsOnly P (emit e : Act unit).
Proof. intros He s. cbn. by constructor. Qed.

Lemma emitsOnly_silent (P : Ev -> Prop) {A} (m : Act A) :
  (forall s, trace (m s) = []) -> emitsOnly P m.
Proof. intros Hm s. by rewrite Hm. Qed.

End EffMore.

(** ** The package walker: batches *)

Section NpmBatch.
Import Npm.
Variable reg : Registry.
Variable maxSatisfying : list string -> string -> option string.
Variable basename : string -> string.
Variable path_join : string -> string -> string.
Variable promptForVersion : string -> list string -> string.

Local Abbreviation walk := (downloadTarball reg maxSatisfying basename path_join).
Local Abbreviation edge := (resolveEdge reg maxSatisfying).
Local Abbreviation own := (acquire reg basename path_join).
Local Abbreviation dest := (destPathOf basename path_join).
Local Abbreviation dir := (outputDir path_join).
Local Abbreviation G := (grows dest).
Local Abbreviation top :=
  (processPackage reg maxSatisfying basename path_join promptForVersion).
Local Abbreviation batch :=
  (processPackages reg maxSatisfying basename path_join promptForVersion).

Implicit Types (w : World) (t : list Event) (name version : string).

(** *** The walker never ends the process *)

Lemma acquire_not_Exited name version w c :
  outcome (own name version w) <> Exited c.
Proof.
  rewrite acquire_run. cbn zeta.
  destruct (versionDoc reg name version) as [d|]; [|done].
  destruct (disk w !! dest (dist_tarball d)); [done|].
  by destruct (tarball reg (dist_tarball d)).
Qed.

Lemma resolveEdge_not_Exited (f : string -> string -> Act unit) entry :
  (forall n v w c, outcome (f n v w) <> Exited c) ->
  forall w c, outcome (edge f entry w) <> Exited c.
Proof.
  intros Hf w c. destruct entry as [depName range]. unfold resolveEdge, bind.
  rewrite fetchPackageMetadata_run.
  destruct (packageDoc reg depName) as [versions|]; [|done].
  destruct (maxSatisfying versions range) as [v|]; [|done].
  destruct (truthy v); [|done].
  specialize (Hf depName v w c). by destruct (f depName v w) as [[[]]].
Qed.

Lemma downloadTarball_not_Exited fuel name version w c :
  outcome (walk fuel name version w) <> Exited c.
Proof.
  revert name version w c. induction fuel as [|fuel IH]; intros name version w c; [done|].
  rewrite downloadTarball_S. case_decide; [done|].
  unfold bind. pose proof (acquire_not_Exited name version w) as Hown.
  destruct (own name version w) as [[[deps|e|c'|] w1] t1]; try done.
  - pose proof (forEach_not_Exited deps (edge (walk fuel))
                  (fun entry => resolveEdge_not_Exited (walk fuel) entry IH) w1 c) as Hl.
    by destruct (forEach deps (edge (walk fuel)) w1) as [[[]]].
  - by specialize (Hown c').
Qed.

(** *** One requested package *)

Lemma processPackage_refused fuel packageName w :
  packageDoc reg packageName = None ->
  top fuel packageName w =
    (Done tt, w,
     [GetPackageDoc packageName; ErrPackageDoc packageName; ErrPackage packageName]).
Proof.
  intros Hdoc. unfold processPackage, tryCatch, bind.
  by rewrite fetchPackageMetadata_run, Hdoc.
Qed.

Lemma processPackage_not_Threw fuel packageName w e :
  outcome (top fuel packageName w) <> Threw e.
Proof. by apply tryCatch_not_Threw. Qed.

Lemma processPackage_not_Exited fuel packageName w c :
  outcome (top fuel packageName w) <> Exited c.
Proof.
  destruct (packageDoc reg packageName) as [versions|] eqn:Hdoc.
  - rewrite (processPackage_run _ _ _ _ _ fuel packageName versions w Hdoc). cbn zeta.
    pose proof (downloadTarball_not_Exited fuel packageName
      (if decide (1 < length versions)
       then promptForVersion packageName (rev versions)
       else firstOrUndefined versions) w) as Hw.
    by destruct (outcome (walk fuel packageName _ w)) as [[]|e|c'|].
  - by rewrite processPackage_refused.
Qed.

(** A requested package opens with the request for its package document
    and, when it returns, closes with the line that it is done or with the
    line that it failed. *)
Lemma processPackage_reports fuel packageName w :
  GetPackageDoc packageName ∈ trace (top fuel packageName w) /\
  (outcome (top fuel packageName w) = Done tt ->
   LogPackageDone packageName ∈ trace (top fuel packageName w) \/
   ErrPackage packageName ∈ trace (top fuel packageName w)).
Proof.
  destruct (packageDoc reg packageName) as [versions|] eqn:Hdoc.
  - rewrite (processPackage_run _ _ _ _ _ fuel packageName versions w Hdoc). cbn zeta.
    destruct (outcome (walk fuel packageName _ w)) as [[]|e|c'|];
      cbn [outcome trace fst snd]; (split; [left|]); try done; intros _.
    + left. right. apply elem_of_app. right. apply elem_of_app. right. left.
    + right. apply elem_of_app. right. left.
  - rewrite processPackage_refused by done. cbn [outcome trace fst snd].
    split; [left|]. intros _. right. right. right. left.
Qed.

Lemma processPackage_grows fuel packageName : respects G (top fuel packageName).
Proof.
  unfold processPackage.
  apply respects_tryCatch; [apply grows_trans| |].
  - apply respects_bind; [apply grows_trans|apply fetchPackageMetadata_grows|].
    intros versions. apply respects_bind; [apply grows_trans| |].
    + case_decide.
      * apply respects_bind; [apply grows_trans| |].
        -- intros w. by apply grows_quiet.
        -- intros _ w. apply grows_refl.
      * intros w. apply grows_refl.
    + intros selected. apply respects_bind; [apply grows_trans| |].
      * apply downloadTarball_grows.
      * intros _ w. by apply grows_quiet.
  - intros e w. by apply grows_quiet.
Qed.

Lemma processPackages_grows fuel packageNames : respects G (batch fuel packageNames).
Proof.
  apply respects_forEach; [apply grows_refl|apply grows_trans|].
  intros name _. apply processPackage_grows.
Qed.

(** *** The batch *)

(** One requested package that fails does not stop the batch.  The loop
    over the requested packages never ends with an exception nor with
    [process.exit], and when it returns every requested package was
    attempted (its package document requested) and was either completed or
    reported as failed on the console. *)
Theorem processPackages_isolated fuel packageNames w :
  let r := batch fuel packageNames w in
  (forall e, outcome r <> Threw e) /\
  (forall c, outcome r <> Exited c) /\
  (outcome r = Done tt ->
   forall name, name ∈ packageNames ->
     GetPackageDoc name ∈ trace r /\
     (LogPackageDone name ∈ trace r \/ ErrPackage name ∈ trace r)).
Proof.
  intros r. split_and!.
  - intros e. apply forEach_not_Threw. intros; apply processPackage_not_Threw.
  - intros c. apply forEach_not_Exited. intros; apply processPackage_not_Exited.
  - intros Hdone name Hin.
    destruct (forEach_Done_inv _ _ _ Hdone name Hin) as (w' & t1 & t2 & Hd & Ht).
    destruct (processPackage_reports fuel name w') as [Hreq Hend].
    subst r. unfold processPackages. rewrite Ht. split.
    + apply elem_of_app. right. apply elem_of_app. by left.
    + destruct (Hend Hd) as [Hok|Herr]; [left|right];
        apply elem_of_app; right; apply elem_of_app; by left.
Qed.

(** Across a whole batch the set, which starts with the process and is
    never cleared, lets each identity through once: the version document
    and the tarball of an identity are requested at most once whatever the
    number of requested packages that depend on it, identities already in
    the set are not requested at all, and no file that was on disk before
    the batch is changed. *)
Theorem processPackages_at_most_once fuel packageNames w :
  let r := batch fuel packageNames w in
  downloadedPackages w ⊆ downloadedPackages (final r) /\
  (forall p f, disk w !! p = Some f -> disk (final r) !! p = Some f) /\
  NoDup (versionDocKeys (trace r)) /\
  NoDup (tarballKeys (trace r)) /\
  (forall k, k ∈ downloadedPackages w ->
             (k ∉ versionDocKeys (trace r)) /\ (k ∉ tarballKeys (trace r))).
Proof.
  intros r. pose proof (processPackages_grows fuel packageNames w) as Hg.
  split_and!.
  - apply (grows_seen _ _ _ _ Hg).
  - intros p f Hf. eapply lookup_weaken; [exact Hf|]. apply (grows_disk _ _ _ _ Hg).
  - apply (grows_vnodup _ _ _ _ Hg).
  - apply (grows_tnodup _ _ _ _ Hg).
  - intros k Hk. split; intros Hin.
    + apply (grows_vkeys _ _ _ _ Hg) in Hin. tauto.
    + apply (grows_tkeys _ _ _ _ Hg) in Hin. tauto.
Qed.

Lemma processPackage_fuel_mono fuel fuel' packageName w :
  fuel <= fuel' ->
  outcome (top fuel packageName w) <> OutOfFuel ->
  top fuel' packageName w = top fuel packageName w.
Proof.
  intros Hle Hout. destruct (packageDoc reg packageName) as [versions|] eqn:Hdoc.
  - rewrite (processPackage_run _ _ _ _ _ fuel _ versions w Hdoc) in *.
    rewrite (processPackage_run _ _ _ _ _ fuel' _ versions w Hdoc).
    cbn zeta in *.
    set (selected := if decide (1 < length versions)
                     then promptForVersion packageName (rev versions)
                     else firstOrUndefined versions) in *.
    rewrite (downloadTarball_fuel_mono _ _ _ _ fuel fuel' packageName selected w Hle);
      [done|].
    intros Hw. rewrite Hw in Hout. by apply Hout.
  - by rewrite !processPackage_refused.
Qed.

Lemma processPackage_enough_fuel (U : gset string) fuel packageName w :
  (forall n v d, versionDoc reg n v = Some d -> pkgSpecOf n v ∈ U) ->
  size (U ∖ downloadedPackages w) < fuel ->
  outcome (top fuel packageName w) <> OutOfFuel.
Proof.
  intros HU Hw. destruct (packageDoc reg packageName) as [versions|] eqn:Hdoc.
  - rewrite (processPackage_run _ _ _ _ _ fuel _ versions w Hdoc). cbn zeta.
    pose proof (downloadTarball_enough_fuel reg maxSatisfying basename path_join
      U HU fuel packageName
      (if decide (1 < length versions)
       then promptForVersion packageName (rev versions)
       else firstOrUndefined versions) w Hw) as Hwalk.
    by destruct (outcome (walk fuel packageName _ w)) as [[]|e|c'|].
  - by rewrite processPackage_refused.
Qed.

(** On a registry with finitely many identities a batch always comes to
    its end and returns normally, whatever fails on the way: with fuel
    beyond the number of identities not yet met the loop over the requested
    packages returns, and more fuel gives the same run. *)
Theorem processPackages_terminates (U : gset string) packageNames w :
  (forall n v d, versionDoc reg n v = Some d -> pkgSpecOf n v ∈ U) ->
  exists fuel,
    let r := batch fuel packageNames w in
    outcome r = Done tt /\
    forall fuel', fuel <= fuel' -> batch fuel' packageNames w = r.
Proof.
  intros HU. exists (S (size (U ∖ downloadedPackages w))). intros r.
  assert (outcome r <> OutOfFuel) as Hfuel.
  { apply (forEach_has_fuel
             (fun w' => size (U ∖ downloadedPackages w')
                        < S (size (U ∖ downloadedPackages w)))); [|lia].
    intros name w' Hw'. split.
    - by apply (processPackage_enough_fuel U).
    - eapply Nat.le_lt_trans; [|exact Hw']. apply subseteq_size.
      pose proof (grows_seen _ _ _ _ (processPackage_grows
        (S (size (U ∖ downloadedPackages w))) name w')) as Hs.
      set_solver. }
  split.
  - pose proof (forEach_not_Threw packageNames (top (S (size (U ∖ downloadedPackages w))))
                  (processPackage_not_Threw _) w) as Ht.
    pose proof (forEach_not_Exited packageNames (top (S (size (U ∖ downloadedPackages w))))
                  (processPackage_not_Exited _) w) as He.
    subst r. unfold processPackages in *.
    destruct (outcome (forEach packageNames _ w)) as [[]|e|c|]; try done.
    + by specialize (Ht e).
    + by specialize (He c).
  - intros fuel' Hle. apply forEach_more_fuel; [|done].
    intros name w' Hout. by apply processPackage_fuel_mono.
Qed.

(** *** What the walker emits *)

Lemma acquire_events name version : emitsOnly (walkerEvent reg) (own name version).
Proof.
  intros w. rewrite acquire_run. cbn zeta.
  destruct (versionDoc reg name version) as [d|] eqn:Hd.
  2:{ cbn. by repeat constructor. }
  assert (walkerEvent reg (GetTarball (pkgSpecOf name version) (dist_tarball d))) as Hreq.
  { by exists name, version, d. }
  destruct (disk w !! dest (dist_tarball d)).
  { cbn. by repeat constructor. }
  destruct (tarball reg (dist_tarball d)); cbn; by repeat constructor.
Qed.

Lemma resolveEdge_events (f : string -> string -> Act unit) entry :
  (forall n v, emitsOnly (walkerEvent reg) (f n v)) ->
  emitsOnly (walkerEvent reg) (edge f entry).
Proof.
  intros Hf. destruct entry as [depName range]. unfold resolveEdge.
  apply emitsOnly_bind.
  - intros w. rewrite fetchPackageMetadata_run.
    destruct (packageDoc reg depName); cbn; by repeat constructor.
  - intros versions. destruct (maxSatisfying versions range) as [v|].
    + destruct (truthy v); [apply Hf|by apply emitsOnly_emit].
    + by apply emitsOnly_emit.
Qed.

Lemma downloadTarball_events fuel name version :
  emitsOnly (walkerEvent reg) (walk fuel name version).
Proof.
  revert name version. induction fuel as [|fuel IH]; intros name version w.
  { constructor. }
  rewrite downloadTarball_S. case_decide; [constructor|].
  apply (emitsOnly_bind (walkerEvent reg) (own name version)
           (fun deps => forEach deps (edge (walk fuel)))).
  - apply acquire_events.
  - intros deps. apply emitsOnly_forEach. intros entry _.
    by apply resolveEdge_events.
Qed.

(** The walker downloads only what the registry announced: every tarball
    request of a run is made for an identity whose version document, as the
    registry serves it, names the requested URL as its [dist.tarball].  And
    the walker itself never prompts. *)
Theorem tarball_requests_announced fuel name version w :
  let r := walk fuel name version w in
  (forall k u, GetTarball k u ∈ trace r ->
     exists n v d,
       k = pkgSpecOf n v /\ versionDoc reg n v = Some d /\ u = dist_tarball d) /\
  (forall n choices, PromptVersion n choices ∉ trace r).
Proof.
  intros r. pose proof (downloadTarball_events fuel name version w) as Hev.
  rewrite Forall_forall in Hev. split.
  - intros k u Hin. exact (Hev _ Hin).
  - intros n choices Hin. exact (Hev _ Hin).
Qed.

(** *** What a walk that returned has on disk *)

Local Abbreviation D := (delivers reg dest).

Lemma delivers_refl w : D w w [].
Proof.
  split; [done|by left|]. intros n v Hin. by apply elem_of_nil in Hin.
Qed.

Lemma delivers_trans w1 w2 w3 t1 t2 :
  D w1 w2 t1 -> D w2 w3 t2 -> D w1 w3 (t1 ++ t2).
Proof.
  intros [D1 W1 F1] [D2 W2 F2]. split.
  - by etrans.
  - intros p f Hf. destruct (W2 p f Hf) as [H2|[H2 ->]].
    + by apply W1.
    + right. split; [|done].
      destruct (disk w1 !! p) as [g|] eqn:Hg; [|done].
      eapply lookup_weaken in Hg; [|exact D1]. congruence.
  - intros n v [Hin|Hin]%elem_of_app.
    + destruct (F1 n v Hin) as (d & Hd & [f Hf]). exists d. split; [done|].
      exists f. eapply lookup_weaken; [exact Hf|exact D2].
    + by apply F2.
Qed.

Lemma delivers_quiet w t :
  (forall n v, GetVersionDoc n v ∉ t) -> D w w t.
Proof.
  intros Hq. split; [done|by left|]. intros n v Hin. by apply Hq in Hin.
Qed.

Lemma acquire_delivers name version : respectsDone D (own name version).
Proof.
  intros w deps. rewrite acquire_run. cbn zeta.
  destruct (versionDoc reg name version) as [d|] eqn:Hd; [|done].
  destruct (disk w !! dest (dist_tarball d)) as [f|] eqn:Hf.
  - intros _. cbn. split; [done|by left|].
    intros n v Hin. exists d.
    assert (n = name /\ v = version) as [-> ->]; [|by eauto].
    rewrite !elem_of_cons, elem_of_nil in Hin.
    destruct Hin as [Hin|[Hin|[Hin|[Hin|[]]]]]; by try injection Hin.
  - destruct (tarball reg (dist_tarball d)); try done.
    intros _. cbn. split; cbn.
    + by apply insert_subseteq.
    + intros p f. rewrite lookup_insert. case_decide as Hp.
      * intros [= <-]. right. by subst p.
      * by left.
    + intros n v Hin. exists d.
      assert (n = name /\ v = version) as [-> ->].
      { rewrite !elem_of_cons, elem_of_nil in Hin.
        destruct Hin as [Hin|[Hin|[Hin|[Hin|[Hin|[Hin|[]]]]]]]; by try injection Hin. }
      split; [done|]. rewrite lookup_insert_eq. by eexists.
Qed.

Lemma resolveEdge_delivers (f : string -> string -> Act unit) entry :
  (forall n v, respectsDone D (f n v)) -> respectsDone D (edge f entry).
Proof.
  intros Hf. destruct entry as [depName range]. unfold resolveEdge.
  apply respectsDone_bind; [apply delivers_trans| |].
  - intros w versions. rewrite fetchPackageMetadata_run.
    destruct (packageDoc reg depName); [|done]. intros _. cbn.
    apply delivers_quiet. intros n v Hin.
    apply list_elem_of_singleton in Hin. discriminate Hin.
  - intros versions.
    assert (respectsDone D (emit (WarnNoVersion depName range) : Act unit)) as Hwarn.
    { intros w a _. cbn. apply delivers_quiet. intros n v Hin.
      apply list_elem_of_singleton in Hin. discriminate Hin. }
    destruct (maxSatisfying versions range) as [v|]; [|done].
    destruct (truthy v); [apply Hf|done].
Qed.

Lemma downloadTarball_delivers_all fuel name version :
  respectsDone D (walk fuel name version).
Proof.
  revert name version. induction fuel as [|fuel IH]; intros name version w a; [done|].
  rewrite downloadTarball_S. case_decide as Hin.
  { intros _. apply delivers_refl. }
  intros Hdone. eapply bind_Done_at; [apply delivers_trans|exact Hdone| |].
  - apply bind_Done_inv in Hdone as (deps & w1 & t1 & Hown & _).
    apply (acquire_delivers name version w deps). by rewrite Hown.
  - intros deps. apply respectsDone_forEach; [apply delivers_refl|apply delivers_trans|].
    intros entry _. by apply resolveEdge_delivers.
Qed.

(** A walk that returns normally has delivered: the tarball of every
    identity it visited (every version document it requested, that of the
    package asked for included when it was new) is on disk, each file that
    was there before is as it was, and each file the walk added is whole. *)
Theorem downloadTarball_delivers fuel name version w :
  let r := walk fuel name version w in
  outcome r = Done tt ->
  (forall n v, GetVersionDoc n v ∈ trace r ->
     exists d, versionDoc reg n v = Some d /\
               is_Some (disk (final r) !! dest (dist_tarball d))) /\
  (forall p f, disk (final r) !! p = Some f ->
     disk w !! p = Some f \/ (disk w !! p = None /\ f = Whole)) /\
  (pkgSpecOf name version ∉ downloadedPackages w ->
   exists d, versionDoc reg name version = Some d /\
             is_Some (disk (final r) !! dest (dist_tarball d))).
Proof.
  intros r Hdone.
  destruct (downloadTarball_delivers_all fuel name version w tt Hdone) as [_ Hw Hf].
  split_and!; [done|done|].
  intros Hnew. apply Hf. subst r. destruct fuel as [|fuel]; [done|].
  destruct (downloadTarball_head reg maxSatisfying basename path_join
              fuel name version w Hnew) as [rest ->].
  right. left.
Qed.

End NpmBatch.

(** *** Files that are in the way *)

Section NpmFiles.
Import Npm.
Variable basename : string -> string.
Variable path_join : string -> string -> string.

Local Abbreviation dest := (destPathOf basename path_join).

(** Whatever is at a destination stays there: no run, of any package and
    against any registry, requests a tarball that would land on a path that
    holds a file, and the file keeps its state. *)
Lemma existing_destination_kept reg maxSatisfying fuel name version (w : World) p f :
  disk w !! p = Some f ->
  let r := downloadTarball reg maxSatisfying basename path_join fuel name version w in
  (forall u, dest u = p -> u ∉ tarballUrls (trace r)) /\
  disk (final r) !! p = Some f.
Proof.
  intros Hf r.
  pose proof (downloadTarball_grows reg maxSatisfying basename path_join
                fuel name version w) as Hg.
  split.
  - intros u <- Hin. apply (grows_dest _ _ _ _ Hg) in Hin. congruence.
  - eapply lookup_weaken; [exact Hf|]. apply (grows_disk _ _ _ _ Hg).
Qed.

(** A transfer that breaks after the destination was opened ends the walk
    with the stream's exception and leaves a partial file, and that file is
    never repaired: any later run, in this process or in a new one with an
    empty set, against the same or another registry, finds the path taken,
    requests no tarball for it and leaves the partial file as it is. *)
Theorem broken_transfer_never_repaired reg maxSatisfying fuel name version w d :
  pkgSpecOf name version ∉ downloadedPackages w ->
  versionDoc reg name version = Some d ->
  disk w !! dest (dist_tarball d) = None ->
  tarball reg (dist_tarball d) = Broken ->
  let r := downloadTarball reg maxSatisfying basename path_join (S fuel) name version w in
  outcome r = Threw (StreamError (dist_tarball d)) /\
  disk (final r) !! dest (dist_tarball d) = Some Partial /\
  forall reg' maxSatisfying' fuel' name' version' w',
    disk (final r) ⊆ disk w' ->
    let r' := downloadTarball reg' maxSatisfying' basename path_join
                fuel' name' version' w' in
    (forall u, dest u = dest (dist_tarball d) -> u ∉ tarballUrls (trace r')) /\
    disk (final r') !! dest (dist_tarball d) = Some Partial.
Proof.
  intros Hnew Hd Hnone Hbroken r.
  assert (r = (Threw (StreamError (dist_tarball d)),
               writeFile (dest (dist_tarball d)) Partial
                 (addDownloaded (pkgSpecOf name version) w),
               [LogProcessing (pkgSpecOf name version); GetVersionDoc name version;
                Mkdirp (outputDir path_join); LogDownloading (dist_tarball d);
                GetTarball (pkgSpecOf name version) (dist_tarball d)])) as Hr.
  { subst r. rewrite downloadTarball_S, decide_False by done.
    unfold bind. rewrite acquire_run. cbn zeta. by rewrite Hd, Hnone, Hbroken. }
  assert (disk (final r) !! dest (dist_tarball d) = Some Partial) as Hpart.
  { rewrite Hr. cbn. apply lookup_insert_eq. }
  split_and!; [by rewrite Hr|done|].
  intros reg' maxSatisfying' fuel' name' version' w' Hsub.
  apply existing_destination_kept. eapply lookup_weaken; [exact Hpart|exact Hsub].
Qed.

(** Two tarballs with the same file name share a destination.  Once a
    walk has returned normally for a package, no later run fetches a
    tarball whose URL ends in the same file name, whichever package or
    registry names it: the second package is taken as downloaded. *)
Theorem same_file_name_not_fetched reg maxSatisfying fuel name version w d :
  pkgSpecOf name version ∉ downloadedPackages w ->
  versionDoc reg name version = Some d ->
  let r := downloadTarball reg maxSatisfying basename path_join fuel name version w in
  outcome r = Done tt ->
  forall reg' maxSatisfying' fuel' name' version' w' u,
    disk (final r) ⊆ disk w' ->
    basename u = basename (dist_tarball d) ->
    u ∉ tarballUrls
          (trace (downloadTarball reg' maxSatisfying' basename path_join
                    fuel' name' version' w')).
Proof.
  intros Hnew Hd r Hdone reg' maxSatisfying' fuel' name' version' w' u Hsub Hname.
  destruct (downloadTarball_delivers_all reg maxSatisfying basename path_join
              fuel name version w tt Hdone) as [_ _ Hfiles].
  destruct fuel as [|fuel]; [done|].
  destruct (downloadTarball_head reg maxSatisfying basename path_join
              fuel name version w Hnew) as [rest Hrest].
  destruct (Hfiles name version) as (d' & Hd' & [f Hf]).
  { rewrite Hrest. right. left. }
  assert (d' = d) as -> by congruence.
  apply (existing_destination_kept reg' maxSatisfying' fuel' name' version' w'
           (dest (dist_tarball d)) f).
  - eapply lookup_weaken; [exact Hf|exact Hsub].
  - unfold destPathOf. by rewrite Hname.
Qed.
End NpmFiles.

(** *** The version of a requested package *)

Section NpmChoice.
Import Npm.
Variable reg : Registry.
Variable maxSatisfying : list string -> string -> option string.
Variable basename : string -> string.
Variable path_join : string -> string -> string.
Variable promptForVersion : string -> list string -> string.

Local Abbreviation walk := (downloadTarball reg maxSatisfying basename path_join).
Local Abbreviation top :=
  (processPackage reg maxSatisfying basename path_join promptForVersion).

(** [processPackage] asks for a version only when the registry lists more
    than one.  With several versions the prompt shows them last first and
    the answer is the version walked; with exactly one version it is walked
    without a prompt; and with an empty list the walker is called with
    [undefined]: the identity [name@undefined] enters the set and the
    registry is asked for [/name/undefined]. *)
Theorem processPackage_version_choice fuel packageName versions w :
  packageDoc reg packageName = Some versions ->
  let r := top (S fuel) packageName w in
  let walked v := pkgSpecOf packageName v ∈ downloadedPackages (final r) in
  (1 < length versions ->
     PromptVersion packageName (rev versions) ∈ trace r /\
     walked (promptForVersion packageName (rev versions))) /\
  (forall v, versions = [v] ->
     (forall n choices, PromptVersion n choices ∉ trace r) /\ walked v) /\
  (versions = [] ->
     (forall n choices, PromptVersion n choices ∉ trace r) /\
     walked "undefined" /\
     (pkgSpecOf packageName "undefined" ∉ downloadedPackages w ->
      GetVersionDoc packageName "undefined" ∈ trace r)).
Proof.
  intros Hdoc r walked.
  pose proof (processPackage_run reg maxSatisfying basename path_join promptForVersion
                (S fuel) packageName versions w Hdoc) as Hrun.
  cbn zeta in Hrun. fold r in Hrun.
  assert (forall v,
    r = match outcome (walk (S fuel) packageName v w) with
        | Done _ => (Done tt, final (walk (S fuel) packageName v w),
                     GetPackageDoc packageName ::
                     [] ++ trace (walk (S fuel) packageName v w)
                     ++ [LogPackageDone packageName])
        | Threw _ => (Done tt, final (walk (S fuel) packageName v w),
                      (GetPackageDoc packageName ::
                       [] ++ trace (walk (S fuel) packageName v w))
                      ++ [ErrPackage packageName])
        | Exited c => (Exited c, final (walk (S fuel) packageName v w),
                       GetPackageDoc packageName ::
                       [] ++ trace (walk (S fuel) packageName v w))
        | OutOfFuel => (OutOfFuel, final (walk (S fuel) packageName v w),
                        GetPackageDoc packageName ::
                        [] ++ trace (walk (S fuel) packageName v w))
        end ->
    (forall n choices, PromptVersion n choices ∉ trace r) /\
    walked v /\
    (pkgSpecOf packageName v ∉ downloadedPackages w ->
     GetVersionDoc packageName v ∈ trace r)) as Hplain.
  { intros v Hr.
    pose proof (downloadTarball_marks reg maxSatisfying basename path_join
                  fuel packageName v w) as Hmark.
    pose proof (downloadTarball_events reg maxSatisfying basename path_join
                  (S fuel) packageName v w) as Hev.
    rewrite Forall_forall in Hev.
    assert (forall n choices,
              PromptVersion n choices ∉ trace (walk (S fuel) packageName v w)) as Hno.
    { intros n choices Hin. exact (Hev _ Hin). }
    assert (final r = final (walk (S fuel) packageName v w)) as Hfin.
    { rewrite Hr. by destruct (outcome (walk (S fuel) packageName v w)). }
    split_and!.
    - intros n choices. rewrite Hr.
      destruct (outcome (walk (S fuel) packageName v w)); cbn [trace snd app];
        rewrite ?elem_of_cons, ?elem_of_app, ?elem_of_cons, ?elem_of_nil;
        specialize (Hno n choices); naive_solver.
    - unfold walked. by rewrite Hfin.
    - intros Hnew.
      destruct (downloadTarball_head reg maxSatisfying basename path_join
                  fuel packageName v w Hnew) as [rest Hrest].
      rewrite Hr, Hrest.
      destruct (outcome (walk (S fuel) packageName v w)); cbn [trace snd app];
        rewrite ?elem_of_cons; naive_solver. }
  split_and!.
  - intros Hlen. destruct (decide (1 < length versions)) as [_|Hn]; [|done].
    pose proof (downloadTarball_marks reg maxSatisfying basename path_join fuel
                  packageName (promptForVersion packageName (rev versions)) w) as Hmark.
    split.
    + rewrite Hrun. destruct (outcome (walk (S fuel) packageName _ w));
        cbn [trace snd app]; right; left.
    + unfold walked. rewrite Hrun.
      by destruct (outcome (walk (S fuel) packageName _ w)).
  - intros v ->. destruct (decide (1 < length [v])) as [Hl|_]; [cbn in Hl; lia|].
    destruct (Hplain v Hrun) as (Hno & Hwalk & _). by split.
  - intros ->. destruct (decide (1 < length (@nil string))) as [Hl|_]; [cbn in Hl; lia|].
    exact (Hplain "undefined" Hrun).
Qed.
End NpmChoice.

(** ** The image puller: the rest of a pull *)

Section DockerMore.
Import Docker.
Variable machine : Machine.
Variable hub : Hub.
Variable path_join : string -> string -> string.
Variable sortTags : list string -> list string.
Variable chooseTag : list string -> string.
Variable choosePlatform : list (string * nat) -> nat.

Local Abbreviation pull :=
  (downloadDockerImage machine hub path_join sortTags chooseTag choosePlatform).
Local Abbreviation pullAll :=
  (downloadImages machine hub path_join sortTags chooseTag choosePlatform).
Local Abbreviation pick := (selectTag hub sortTags chooseTag).
Local Abbreviation manifestOf := (fetchManifest hub choosePlatform).
Local Abbreviation assemble := (packImage machine hub).
Local Abbreviation dir := (outputDir path_join).
Local Abbreviation destOf := (destPathOf path_join).

Implicit Types (w : World) (name tag tok : string).

Local Arguments packImage : simpl never.
Local Arguments fetchManifest : simpl never.

(** *** Tags *)

Lemma getToken_run name w :
  getToken hub name w =
    match token hub name with
    | Some t => (Done t, w, [GetToken name])
    | None => (Threw (RequestFailed "https://auth.docker.io/token"), w, [GetToken name])
    end.
Proof. unfold getToken, bind, emit, ret, throw. by destruct (token hub name). Qed.

Lemma selectTag_run name w :
  pick name w =
    match token hub name with
    | None =>
        (Exited 1, w,
         [GetToken name; ErrTags (RequestFailed "https://auth.docker.io/token")])
    | Some tok =>
        match tagsList hub name with
        | None =>
            (Exited 1, w,
             [GetToken name; GetTags name tok;
              ErrTags (RequestFailed
                         ("https://registry-1.docker.io/v2/" +:+ name +:+ "/tags/list"))])
        | Some None | Some (Some []) =>
            (Exited 1, w, [GetToken name; GetTags name tok; ErrNoTags])
        | Some (Some tags) =>
            (Done (chooseTag (rev (sortTags tags))), w,
             [GetToken name; GetTags name tok; PromptTag (rev (sortTags tags))])
        end
    end.
Proof.
  unfold selectTag, tryCatch, bind at 1. rewrite getToken_run.
  destruct (token hub name) as [tok|]; [|done]. unfold bind, emit. cbn.
  by destruct (tagsList hub name) as [[[|t l]|]|].
Qed.

Lemma selectTag_ends name w :
  let r := pick name w in
  final r = w /\
  (forall e, outcome r <> Threw e) /\
  outcome r <> OutOfFuel /\
  (forall c, outcome r = Exited c ->
     c = 1%Z /\ (ErrNoTags ∈ trace r \/ exists e, ErrTags e ∈ trace r)).
Proof.
  intros r. subst r. rewrite selectTag_run.
  destruct (token hub name) as [tok|].
  2:{ split_and!; try done.
      intros c [= <-]. split; [done|]. right. eexists. right. left. }
  destruct (tagsList hub name) as [[[|t0 l]|]|]; split_and!; try done.
  - intros c [= <-]. split; [done|]. left. right. right. left.
  - intros c [= <-]. split; [done|]. left. right. right. left.
  - intros c [= <-]. split; [done|]. right. eexists. right. right. left.
Qed.

(** [selectTag] either returns the tag the user picked or ends the
    process: it never throws and never touches the disk.  It returns only
    when the token and a non-empty tag list arrived, with the answer to a
    prompt that shows the sorted tags last first; a refused token request, a
    refused tag-list request and an empty or missing list all end the
    process with status 1 after an error line: no tag stands in. *)
Theorem selectTag_returns_or_exits name w :
  let r := pick name w in
  final r = w /\
  (forall e, outcome r <> Threw e) /\
  outcome r <> OutOfFuel /\
  (forall c, outcome r = Exited c ->
     c = 1%Z /\ (ErrNoTags ∈ trace r \/ exists e, ErrTags e ∈ trace r)) /\
  (forall t, outcome r = Done t ->
     exists tok tags,
       token hub name = Some tok /\
       tagsList hub name = Some (Some tags) /\
       tags <> [] /\
       t = chooseTag (rev (sortTags tags)) /\
       trace r = [GetToken name; GetTags name tok; PromptTag (rev (sortTags tags))]).
Proof.
  intros r. destruct (selectTag_ends name w) as (Hw & Hthrow & Hfuel & Hexit).
  split; [exact Hw|]. split; [exact Hthrow|]. split; [exact Hfuel|].
  split; [exact Hexit|].
  subst r. rewrite selectTag_run.
  destruct (token hub name) as [tok|]; [|done].
  destruct (tagsList hub name) as [[[|t0 l]|]|]; try done.
  intros t [= <-]. by exists tok, (t0 :: l).
Qed.

(** *** The run of a pull *)

Lemma fetchManifest_run name tag tok w :
  manifestOf name tag tok w =
    let first := GetManifest name tag tok acceptAny in
    match manifest hub name tag with
    | None => (Threw (RequestFailed (manifestUrl name tag)), w, [first])
    | Some m =>
        let mt := js_or (mediaType m) (contentType m) in
        if isIndex mt then
          let choices := platformChoices (manifests m) in
          match manifests m !! choosePlatform choices with
          | None => (Threw TypeError, w, [first; PromptPlatform choices])
          | Some selected =>
              let second := GetManifest name (digest selected) tok acceptConcrete in
              match manifest hub name (digest selected) with
              | None =>
                  (Threw (RequestFailed (manifestUrl name (digest selected))), w,
                   [first; PromptPlatform choices; second])
              | Some m' =>
                  (Done (m', js_or (mediaType m') (contentType m')), w,
                   [first; PromptPlatform choices; second])
              end
          end
        else (Done (m, mt), w, [first])
    end.
Proof.
  unfold fetchManifest, bind at 1. rewrite getManifest_run. cbn zeta.
  destruct (manifest hub name tag) as [m|]; [|done].
  destruct (isIndex (js_or (mediaType m) (contentType m))); [|done].
  unfold bind at 1, emit at 1.
  destruct (manifests m !! choosePlatform (platformChoices (manifests m)))
    as [selected|]; [|done].
  unfold bind. rewrite getManifest_run.
  by destruct (manifest hub name (digest selected)).
Qed.

Lemma fetchManifest_outcome name tag tok w :
  final (manifestOf name tag tok w) = w /\
  ((exists r, outcome (manifestOf name tag tok w) = Done r) \/
   (exists e, outcome (manifestOf name tag tok w) = Threw e)).
Proof.
  rewrite fetchManifest_run. cbn zeta.
  destruct (manifest hub name tag) as [m|]; [|by eauto].
  destruct (isIndex _); [|by eauto].
  destruct (manifests m !! _) as [selected|]; [|by eauto].
  destruct (manifest hub name (digest selected)); by eauto.
Qed.

(** The part of a pull that follows the choice of the tag. *)
Local Abbreviation afterTag imageName name :=
  (fun tag : string =>
     files <- gets disk ;;
     match files !! destOf name tag with
     | Some _ => emit (LogAlreadyDownloaded (destOf name tag))
     | None =>
         tryCatch
           (tok <- getToken hub name ;;
            r <- manifestOf name tag tok ;;
            let '(m, mt) := r in
            if isConcrete mt then assemble name tok (destOf name tag) m
            else emit ErrUnsupported)
           (fun e => emit (ErrImage imageName e))
     end).

(** The choice of the tag: the one given, or the one [selectTag] returns. *)
Local Abbreviation tagOf name given :=
  (match given return Act string with
   | Some t => if truthy t then ret t else pick name
   | None => pick name
   end).

(** A pull is its start line and [mkdirp]; when the directory is there,
    the choice of the tag and what follows it. *)
Lemma downloadDockerImage_run imageName w :
  let name := (imageRef imageName).1 in
  let rest := bind (tagOf name (imageRef imageName).2) (afterTag imageName name) w in
  pull imageName w =
    if mkdirs machine dir
    then (outcome rest, final rest, LogStart imageName :: Mkdirp dir :: trace rest)
    else (Threw (MkdirFailed dir), w, [LogStart imageName; Mkdirp dir]).
Proof.
  intros name rest. unfold downloadDockerImage.
  unfold bind at 1, emit at 1. unfold bind at 1. rewrite mkdirp_run.
  destruct (mkdirs machine dir); [|done].
  subst rest name. destruct (imageRef imageName) as [name given]. cbn [fst snd].
  by destruct (bind _ _ w) as [[o w1] t1].
Qed.

Lemma afterTag_existing imageName name tag w a :
  disk w !! destOf name tag = Some a ->
  afterTag imageName name tag w = (Done tt, w, [LogAlreadyDownloaded (destOf name tag)]).
Proof. intros Ha. unfold bind, gets. by rewrite Ha. Qed.

(** What follows the tag when no archive is in the way. *)
Lemma afterTag_run imageName name tag w :
  disk w !! destOf name tag = None ->
  afterTag imageName name tag w =
    match token hub name with
    | None =>
        (Done tt, w,
         [GetToken name; ErrImage imageName (RequestFailed "https://auth.docker.io/token")])
    | Some tok =>
        match manifestOf name tag tok w with
        | (Done (m, mt), w1, t1) =>
            if isConcrete mt then
              let r := assemble name tok (destOf name tag) m w1 in
              match outcome r with
              | Done _ => (Done tt, final r, GetToken name :: t1 ++ trace r)
              | Threw e =>
                  (Done tt, final r,
                   GetToken name :: t1 ++ trace r ++ [ErrImage imageName e])
              | Exited c => (Exited c, final r, GetToken name :: t1 ++ trace r)
              | OutOfFuel => (OutOfFuel, final r, GetToken name :: t1 ++ trace r)
              end
            else (Done tt, w1, GetToken name :: t1 ++ [ErrUnsupported])
        | (Threw e, w1, t1) => (Done tt, w1, GetToken name :: t1 ++ [ErrImage imageName e])
        | (Exited c, w1, t1) => (Exited c, w1, GetToken name :: t1)
        | (OutOfFuel, w1, t1) => (OutOfFuel, w1, GetToken name :: t1)
        end
    end.
Proof.
  intros Hdisk. unfold bind at 1, gets at 1. rewrite Hdisk.
  unfold tryCatch, bind at 1. rewrite getToken_run.
  destruct (token hub name) as [tok|]; [|done].
  unfold bind at 1.
  destruct (manifestOf name tag tok w) as [[[[m mt]|e|c|] w1] t1]; cbn; try done.
  destruct (isConcrete mt); [|done].
  destruct (assemble name tok _ m w1) as [[[[]|e|c|] w2] t2]; cbn; try done.
  by rewrite <- app_assoc.
Qed.

Lemma tagOf_given name tag w :
  truthy tag = true -> tagOf name (Some tag) w = (Done tag, w, []).
Proof. intros H. cbv beta iota. by rewrite H. Qed.

(** A pull with an explicit tag is, after the directory, what follows the
    tag. *)
Lemma downloadDockerImage_tagged imageName name tag w :
  mkdirs machine dir = true ->
  imageRef imageName = (name, Some tag) ->
  truthy tag = true ->
  let rest := afterTag imageName name tag w in
  pull imageName w =
    (outcome rest, final rest, LogStart imageName :: Mkdirp dir :: trace rest).
Proof.
  intros Hdir Href Htag rest. rewrite downloadDockerImage_run. cbn zeta.
  rewrite Hdir, Href. cbn [fst snd].
  by rewrite (bind_Done _ _ _ _ _ _ (tagOf_given name tag w Htag)).
Qed.

Lemma downloadDockerImage_existing imageName name tag w a :
  mkdirs machine dir = true ->
  imageRef imageName = (name, Some tag) ->
  truthy tag = true ->
  disk w !! destOf name tag = Some a ->
  pull imageName w =
    (Done tt, w,
     [LogStart imageName; Mkdirp dir; LogAlreadyDownloaded (destOf name tag)]).
Proof.
  intros Hdir Href Htag Hdisk.
  rewrite (downloadDockerImage_tagged _ _ _ _ Hdir Href Htag).
  by rewrite (afterTag_existing _ _ _ _ _ Hdisk).
Qed.

(** *** How a pull ends *)

(** How the assembler ends: it returns, or throws the refused
    configuration request or the packer's refusal, or, when the destination
    cannot be opened, the process dies with nothing written. *)
Lemma packImage_outcome name tok p m w :
  let r := assemble name tok p m w in
  (opens machine p = true /\
   (outcome r = Done tt \/
    outcome r = Threw (RequestFailed (blobUrl name (config_digest m))) \/
    outcome r = Threw AlreadyPiping)) \/
  (opens machine p = false /\ outcome r = Exited 1 /\ disk (final r) = disk w /\
   Uncaught (OpenFailed p) ∈ trace r).
Proof.
  intros r. subst r. destruct (opens machine p) eqn:Hopen.
  - left. split; [done|].
    destruct (packImage_opened machine hub name tok p m w Hopen) as (Hout & _).
    rewrite Hout. destruct (blob hub name (config_digest m)); [|by right; left].
    destruct (head _); [|by left]. destruct (tarStream machine); [by right; right|by left].
  - right. rewrite (packImage_unopened machine hub name tok p m w Hopen).
    split_and!; [done|done|done|]. right. left.
Qed.

(** After the tag is known a pull returns normally, unless the process
    dies because the destination cannot be opened. *)
Lemma afterTag_outcome imageName name tag w :
  let r := afterTag imageName name tag w in
  outcome r = Done tt \/
  (outcome r = Exited 1 /\ opens machine (destOf name tag) = false /\
   disk (final r) = disk w /\ Uncaught (OpenFailed (destOf name tag)) ∈ trace r).
Proof.
  intros r. subst r.
  destruct (disk w !! destOf name tag) as [a|] eqn:Hdisk.
  { left. by rewrite (afterTag_existing _ _ _ _ _ Hdisk). }
  rewrite (afterTag_run _ _ _ _ Hdisk).
  destruct (token hub name) as [tok|]; [|by left].
  destruct (fetchManifest_outcome name tag tok w) as [Hw [[[m mt] Hm]|[e Hm]]];
    destruct (manifestOf name tag tok w) as [[o w1] t1];
    cbn [outcome final fst snd] in Hm, Hw; subst o w1; [|by left].
  destruct (isConcrete mt); [|by left]. cbn zeta.
  destruct (packImage_outcome name tok (destOf name tag) m w)
    as [[_ [Hp|[Hp|Hp]]]|(Hopen & Hp & Hd & Hu)];
    cbn zeta in *; rewrite Hp; try by left.
  right. cbn [outcome final trace fst snd]. split_and!; try done.
  right. apply elem_of_app. by right.
Qed.

Lemma bind_afterTag imageName name (g : Act string) tag t1 w :
  g w = (Done tag, w, t1) ->
  let rest := bind g (afterTag imageName name) w in
  outcome rest = Done tt \/
  (outcome rest = Exited 1 /\ opens machine (destOf name tag) = false /\
   disk (final rest) = disk w /\ Uncaught (OpenFailed (destOf name tag)) ∈ trace rest).
Proof.
  intros Hg rest. subst rest.
  rewrite (bind_Done _ _ _ _ _ _ Hg). cbn [outcome final trace fst snd].
  destruct (afterTag_outcome imageName name tag w) as [H|(H & Hopen & Hd & Hu)];
    [by left|right].
  split_and!; try done. apply elem_of_app. by right.
Qed.

(** How the choice of the tag and what follows it end. *)
Lemma chosen_outcome imageName name given w :
  let rest := bind (tagOf name given) (afterTag imageName name) w in
  outcome rest = Done tt \/
  (outcome rest = Exited 1 /\ (given = None \/ given = Some "") /\ final rest = w /\
   (ErrNoTags ∈ trace rest \/ exists e, ErrTags e ∈ trace rest)) \/
  (outcome rest = Exited 1 /\
   exists tag, opens machine (destOf name tag) = false /\
               (forall t, given = Some t -> truthy t = true -> tag = t) /\
               disk (final rest) = disk w /\
               Uncaught (OpenFailed (destOf name tag)) ∈ trace rest).
Proof.
  intros rest.
  assert (given = None \/ given = Some "" ->
          let rest := bind (pick name) (afterTag imageName name) w in
          outcome rest = Done tt \/
          (outcome rest = Exited 1 /\ (given = None \/ given = Some "") /\
           final rest = w /\
           (ErrNoTags ∈ trace rest \/ exists e, ErrTags e ∈ trace rest)) \/
          (outcome rest = Exited 1 /\
           exists tag, opens machine (destOf name tag) = false /\
               (forall t, given = Some t -> truthy t = true -> tag = t) /\
               disk (final rest) = disk w /\
               Uncaught (OpenFailed (destOf name tag)) ∈ trace rest)) as Hpicked.
  { intros Hgiven rest'. subst rest'.
    destruct (selectTag_ends name w) as (Hw & Hthrow & Hfuel & Hexit).
    destruct (pick name w) as [[[t|e|c|] w1] t1] eqn:Hpick;
      cbn [outcome final trace fst snd] in *.
    - subst w1.
      destruct (bind_afterTag imageName name (pick name) t t1 w Hpick)
        as [H|(H & Hopen & Hd & Hu)]; [by left|].
      right. right. split; [done|]. exists t. split_and!; try done.
      intros t' Ht' Htruthy. destruct Hgiven as [->| ->]; [done|].
      injection Ht' as <-. done.
    - by specialize (Hthrow e).
    - destruct (Hexit c eq_refl) as [-> Hlog]. right. left.
      unfold bind. rewrite Hpick. by split_and!.
    - done. }
  subst rest. destruct given as [t|].
  - destruct (truthy t) eqn:Ht.
    + destruct (bind_afterTag imageName name (ret t) t [] w eq_refl)
        as [H|(H & Hopen & Hd & Hu)]; [by left|].
      right. right. split; [done|]. exists t. split_and!; try done.
      by intros t' [= <-] _.
    + assert (t = "") as -> by (by destruct t).
      apply Hpicked. by right.
  - apply Hpicked. by left.
Qed.

(** How a pull ends, by cases. *)
Lemma downloadDockerImage_outcome imageName w :
  let r := pull imageName w in
  let name := (imageRef imageName).1 in
  let given := (imageRef imageName).2 in
  if mkdirs machine dir then
    outcome r = Done tt \/
    (outcome r = Exited 1 /\ (given = None \/ given = Some "") /\ final r = w /\
     (ErrNoTags ∈ trace r \/ exists e, ErrTags e ∈ trace r)) \/
    (outcome r = Exited 1 /\
     exists tag, opens machine (destOf name tag) = false /\
                 (forall t, given = Some t -> truthy t = true -> tag = t) /\
                 disk (final r) = disk w /\
                 Uncaught (OpenFailed (destOf name tag)) ∈ trace r)
  else r = (Threw (MkdirFailed dir), w, [LogStart imageName; Mkdirp dir]).
Proof.
  intros r name given. subst r. rewrite downloadDockerImage_run. cbn zeta.
  fold name given. destruct (mkdirs machine dir); [|done].
  cbn [outcome final trace fst snd].
  destruct (chosen_outcome imageName name given w)
    as [H|[(H & Hg & Hw & Hlog)|(H & tag & Hopen & Hg & Hd & Hu)]].
  - by left.
  - right. left. split_and!; try done.
    destruct Hlog as [Hlog|[e Hlog]]; [left|right; exists e]; right; right; exact Hlog.
  - right. right. split; [done|]. exists tag. split_and!; try done.
    right. right. exact Hu.
Qed.

Lemma downloadDockerImage_starts imageName w :
  exists rest, trace (pull imageName w) = LogStart imageName :: Mkdirp dir :: rest.
Proof.
  rewrite downloadDockerImage_run. cbn zeta.
  destruct (mkdirs machine dir); by eexists.
Qed.

Lemma downloadDockerImage_has_fuel imageName w :
  outcome (pull imageName w) <> OutOfFuel.
Proof.
  pose proof (downloadDockerImage_outcome imageName w) as H. cbn zeta in H.
  destruct (mkdirs machine dir).
  - destruct H as [H|[(H & _)|(H & _)]]; by rewrite H.
  - by rewrite H.
Qed.

(** How a pull ends.  It begins with its start line and the call of
    [mkdirp].  When the output directory cannot be made it throws, there
    and then: that call is outside the [try].  Otherwise it never throws:
    whatever is refused inside the [try] is caught and reported.  The
    process ends inside a pull in two ways only, both with status 1: in
    [selectTag], when the reference has no tag, and by the uncaught error of
    the write stream, when the destination cannot be opened; in both
    nothing is written.  With the directory made, a tag in the reference
    and a destination that opens, a pull always returns. *)
Theorem downloadDockerImage_ends imageName w :
  let r := pull imageName w in
  let name := (imageRef imageName).1 in
  let given := (imageRef imageName).2 in
  (exists rest, trace r = LogStart imageName :: Mkdirp dir :: rest) /\
  outcome r <> OutOfFuel /\
  (mkdirs machine dir = false ->
   r = (Threw (MkdirFailed dir), w, [LogStart imageName; Mkdirp dir])) /\
  (forall e, outcome r = Threw e -> e = MkdirFailed dir /\ mkdirs machine dir = false) /\
  (forall c, outcome r = Exited c ->
     c = 1%Z /\ disk (final r) = disk w /\
     (((given = None \/ given = Some "") /\
       (ErrNoTags ∈ trace r \/ exists e, ErrTags e ∈ trace r)) \/
      (exists tag, opens machine (destOf name tag) = false /\
                   Uncaught (OpenFailed (destOf name tag)) ∈ trace r))) /\
  (forall tag, mkdirs machine dir = true -> given = Some tag -> truthy tag = true ->
               opens machine (destOf name tag) = true -> outcome r = Done tt).
Proof.
  intros r name given.
  pose proof (downloadDockerImage_outcome imageName w) as Hout.
  cbn zeta in Hout. fold r name given in Hout.
  split; [apply downloadDockerImage_starts|].
  split; [apply downloadDockerImage_has_fuel|].
  destruct (mkdirs machine dir) eqn:Hdir.
  - split; [done|]. split_and!.
    + intros e He. destruct Hout as [H|[(H & _)|(H & _)]]; congruence.
    + intros c Hc.
      destruct Hout as [H|[(H & Hg & Hw & Hlog)|(H & tag & Hopen & _ & Hd & Hu)]];
        rewrite H in Hc; [done| |]; injection Hc as <-.
      * split; [done|]. split; [by rewrite Hw|]. left. by split.
      * split; [done|]. split; [done|]. right. by exists tag.
    + intros tag _ Hgiven Htruthy Hopen.
      destruct Hout as [H|[(H & [Hg|Hg] & _)|(H & tag' & Hopen' & Hg & _)]];
        [done|congruence| |].
      * rewrite Hgiven in Hg. injection Hg as ->. done.
      * rewrite (Hg tag Hgiven Htruthy) in Hopen'. congruence.
  - split; [by intros _|]. rewrite Hout. cbn [outcome fst]. split_and!.
    + by intros e [= <-].
    + done.
    + done.
Qed.

(** *** The batch *)

(** One image whose requests fail does not stop the batch.  The loop over
    the requested images throws only when the output directory cannot be
    made; the process ends in it only with status 1; and when the
    directory is made, every reference carries a tag and every destination
    opens, the loop returns normally and every image was started, whatever
    the registry refused. *)
Theorem downloadImages_isolated imageNames w :
  let r := pullAll imageNames w in
  outcome r <> OutOfFuel /\
  (forall e, outcome r = Threw e -> e = MkdirFailed dir /\ mkdirs machine dir = false) /\
  (forall c, outcome r = Exited c -> c = 1%Z) /\
  (mkdirs machine dir = true ->
   (forall n, n ∈ imageNames ->
      exists t, (imageRef n).2 = Some t /\ truthy t = true /\
                opens machine (destOf (imageRef n).1 t) = true) ->
   outcome r = Done tt /\ forall n, n ∈ imageNames -> LogStart n ∈ trace r).
Proof.
  intros r. split_and!.
  - apply (forEach_has_fuel (fun _ => True)); [|done].
    intros n s _. split; [apply downloadDockerImage_has_fuel|done].
  - intros e He. apply forEach_Threw_inv in He as (n & s & _ & Hn).
    destruct (downloadDockerImage_ends n s) as (_ & _ & _ & Hthrow & _).
    by apply Hthrow.
  - intros c Hc. apply forEach_Exited_inv in Hc as (n & s & _ & Hn).
    destruct (downloadDockerImage_ends n s) as (_ & _ & _ & _ & Hexit & _).
    by destruct (Hexit c Hn).
  - intros Hdir Htags.
    assert (outcome r = Done tt) as Hdone.
    { apply forEach_all_Done. intros n s Hn.
      destruct (Htags n Hn) as (t & Ht & Htruthy & Hopen).
      destruct (downloadDockerImage_ends n s) as (_ & _ & _ & _ & _ & Hret).
      by apply (Hret t). }
    split; [done|]. intros n Hn.
    destruct (forEach_Done_inv _ _ _ Hdone n Hn) as (s & t1 & t2 & _ & Ht).
    destruct (downloadDockerImage_starts n s) as [rest Hrest].
    subst r. unfold downloadImages. rewrite Ht, Hrest.
    apply elem_of_app. right. left.
Qed.

(** *** What a pull leaves on disk *)

Lemma fetchManifest_no_blob name tag tok w :
  blobRequests (trace (manifestOf name tag tok w)) = [].
Proof.
  rewrite fetchManifest_run. cbn zeta.
  destruct (manifest hub name tag) as [m|]; [|done].
  destruct (isIndex _); [|done].
  destruct (manifests m !! _) as [selected|]; [|done].
  by destruct (manifest hub name (digest selected)).
Qed.

Lemma blobRequests_app t1 t2 :
  blobRequests (t1 ++ t2) = blobRequests t1 ++ blobRequests t2.
Proof. apply omap_app. Qed.

(** The events of the manifest requests and of the layer loop: neither
    the completion line nor the error line of the image. *)
Local Abbreviation inner e :=
  (match e with
   | LogComplete _ | ErrImage _ _ | Uncaught _ => False
   | _ => True
   end).

Lemma fetchManifest_inner name tag tok w :
  Forall (fun e => inner e) (trace (manifestOf name tag tok w)).
Proof.
  rewrite fetchManifest_run. cbn zeta.
  destruct (manifest hub name tag) as [m|]; [|by repeat constructor].
  destruct (isIndex _); [|by repeat constructor].
  destruct (manifests m !! _) as [selected|]; [|by repeat constructor].
  destruct (manifest hub name (digest selected)); by repeat constructor.
Qed.

Lemma layers_loop_inner name tok p ds w :
  Forall (fun e => inner e) (trace (forEach ds (addLayer machine hub name tok p) w)).
Proof.
  apply (emitsOnly_forEach (fun e => inner e)). intros d _ s.
  rewrite addLayer_run. destruct (blob hub name d); [|by repeat constructor].
  destruct (piping (pack s)); [|by repeat constructor].
  destruct (tarStream machine); by repeat constructor.
Qed.

Lemma packImage_blobs name tok p m w :
  opens machine p = true ->
  blobRequests (trace (assemble name tok p m w)) = layers m ++ [config_digest m].
Proof.
  intros Hopen.
  destruct (packImage_opened machine hub name tok p m w Hopen) as (_ & Htrace & _).
  destruct (layers_loop_requests machine hub name tok p (layers m)
              (createFile p (setPack newPack w))) as (_ & Hb & _).
  rewrite Htrace, blobRequests_app, Hb. f_equal.
  by destruct (outcome (assemble name tok p m w)).
Qed.


(** When the configuration blob is refused the pull is reported as failed
    and returns, but the file it had opened stays on disk: it holds the
    header of the first layer that arrived, if any, and nothing else, and
    it is not finalized.  The next pull of the same image finds the path
    taken: it requests nothing and leaves the file as it is. *)
Theorem config_failure_leaves_archive imageName name tag tok w m mt t1 :
  mkdirs machine dir = true ->
  imageRef imageName = (name, Some tag) ->
  truthy tag = true ->
  disk w !! destOf name tag = None ->
  token hub name = Some tok ->
  manifestOf name tag tok w = (Done (m, mt), w, t1) ->
  isConcrete mt = true ->
  opens machine (destOf name tag) = true ->
  blob hub name (config_digest m) = false ->
  let r := pull imageName w in
  outcome r = Done tt /\
  ErrImage imageName (RequestFailed (blobUrl name (config_digest m))) ∈ trace r /\
  disk (final r) !! destOf name tag =
    Some {| entries := map emptyEntry (take 1 (layerNames hub name (layers m)));
            finalized := false |} /\
  pull imageName (final r) =
    (Done tt, final r,
     [LogStart imageName; Mkdirp dir; LogAlreadyDownloaded (destOf name tag)]).
Proof.
  intros Hdir Href Htag Hdisk Htok Hm Hmt Hopen Hcfg r.
  destruct (packImage_opened machine hub name tok (destOf name tag) m w Hopen)
    as (Hout & _ & _ & Hfile & _).
  rewrite Hcfg in Hout. unfold entryNames in Hfile. rewrite Hcfg, app_nil_r in Hfile.
  assert (exists w2 t2,
    r = (Done tt, w2,
         LogStart imageName :: Mkdirp dir :: GetToken name :: t1 ++ t2 ++
         [ErrImage imageName (RequestFailed (blobUrl name (config_digest m)))]) /\
    disk w2 !! destOf name tag =
      Some {| entries := map emptyEntry (take 1 (layerNames hub name (layers m)));
              finalized := false |})
    as (w2 & t2 & Hr & Hd).
  { subst r. rewrite (downloadDockerImage_tagged _ _ _ _ Hdir Href Htag). cbn zeta.
    rewrite (afterTag_run _ _ _ _ Hdisk), Htok, Hm, Hmt. cbn zeta. rewrite Hout.
    by eexists _, _. }
  rewrite Hr. cbn [outcome final trace fst snd]. split_and!; [done| |done|].
  - do 3 right. do 2 (apply elem_of_app; right). left.
  - by apply (downloadDockerImage_existing imageName name tag w2 _ Hdir Href Htag Hd).
Qed.

(** A pull in which every blob arrives.  The blobs requested are exactly
    the layers, in manifest order, and then the configuration, and the pull
    returns; but the file holds one header, that of the first entry, with
    no content, and is not finalized.  With release 3 of the packer, or
    when the manifest has no layer, the completion line is printed all the
    same and no error is; with release 2 and at least one layer the pull is
    reported as failed: the second entry finds the packer busy. *)
Theorem complete_pull imageName name tag tok w m mt t1 :
  mkdirs machine dir = true ->
  imageRef imageName = (name, Some tag) ->
  truthy tag = true ->
  disk w !! destOf name tag = None ->
  token hub name = Some tok ->
  manifestOf name tag tok w = (Done (m, mt), w, t1) ->
  isConcrete mt = true ->
  opens machine (destOf name tag) = true ->
  (forall d, d ∈ layers m -> blob hub name d = true) ->
  blob hub name (config_digest m) = true ->
  let r := pull imageName w in
  outcome r = Done tt /\
  blobRequests (trace r) = layers m ++ [config_digest m] /\
  disk (final r) !! destOf name tag =
    Some {| entries := [emptyEntry (List.hd "config.json" (map layerEntryName (layers m)))];
            finalized := false |} /\
  (tarStream machine = TarStream3 \/ layers m = [] ->
   LogComplete (destOf name tag) ∈ trace r /\
   forall e, ErrImage imageName e ∉ trace r) /\
  (tarStream machine = TarStream2 -> layers m <> [] ->
   ErrImage imageName AlreadyPiping ∈ trace r /\
   LogComplete (destOf name tag) ∉ trace r).
Proof.
  intros Hdir Href Htag Hdisk Htok Hm Hmt Hopen Hall Hcfg r.
  set (p := destOf name tag).
  destruct (packImage_opened machine hub name tok p m w Hopen)
    as (Hout & Htrace & _ & Hfile & _).
  pose proof (packImage_blobs name tok p m w Hopen) as Hblobs.
  pose proof (layers_loop_inner name tok p (layers m) (createFile p (setPack newPack w)))
    as Hloop.
  assert (layerNames hub name (layers m) = map layerEntryName (layers m)) as Hnames.
  { unfold layerNames. f_equal. clear -Hall.
    induction (layers m) as [|d l IH]; [done|]. cbn.
    rewrite (Hall d) by left. f_equal. apply IH. intros d' Hd'. apply Hall. by right. }
  rewrite Hcfg, Hnames in Hout. unfold entryNames in Hfile. rewrite Hcfg, Hnames in Hfile.
  assert (blobRequests t1 = [] /\ Forall (fun e => inner e) t1) as [Hnb Ht1].
  { pose proof (fetchManifest_no_blob name tag tok w) as H.
    pose proof (fetchManifest_inner name tag tok w) as H'.
    by rewrite Hm in H, H'. }
  subst r. rewrite (downloadDockerImage_tagged _ _ _ _ Hdir Href Htag). cbn zeta.
  rewrite (afterTag_run _ _ _ _ Hdisk), Htok, Hm, Hmt. cbn zeta. fold p.
  set (r := assemble name tok p m w) in *.
  rewrite Forall_forall in Ht1, Hloop.
  assert (take 1 (map layerEntryName (layers m) ++ ["config.json"]) =
          [List.hd "config.json" (map layerEntryName (layers m))]) as Htake.
  { by destruct (layers m). }
  rewrite Htake in Hfile.
  destruct (layers m) as [|d ds] eqn:Hlayers.
  - cbn [map head] in Hout. rewrite Hout in Htrace |- *.
    cbn [outcome final trace fst snd]. split_and!; [done| |done| |].
    + cbn. by rewrite blobRequests_app, Hnb, Hblobs.
    + intros _. split.
      * do 3 right. apply elem_of_app. right. rewrite Htrace.
        apply elem_of_app. right. right. left.
      * intros e [[=]|[[=]|[[=]|Hin]%elem_of_cons]%elem_of_cons]%elem_of_cons.
        apply elem_of_app in Hin as [Hin|Hin]; [by apply Ht1 in Hin|].
        rewrite Htrace in Hin. apply elem_of_app in Hin as [Hin|Hin];
          [by apply Hloop in Hin|].
        apply elem_of_cons in Hin as [[=]|Hin].
        by apply list_elem_of_singleton in Hin.
    + by intros _ Hne.
  - cbn [map head] in Hout.
    destruct (tarStream machine) eqn:Hrel; rewrite Hout in Htrace |- *;
      cbn [outcome final trace fst snd]; (split_and!; [done| |done| |]).
    + cbn. rewrite !blobRequests_app, Hnb, Hblobs. cbn. by rewrite app_nil_r.
    + by intros [[=]|[=]].
    + intros _ _. split.
      * do 3 right. do 2 (apply elem_of_app; right). left.
      * intros [[=]|[[=]|[[=]|Hin]%elem_of_cons]%elem_of_cons]%elem_of_cons.
        apply elem_of_app in Hin as [Hin|Hin]; [by apply Ht1 in Hin|].
        apply elem_of_app in Hin as [Hin|Hin];
          [|by apply list_elem_of_singleton in Hin].
        rewrite Htrace in Hin. apply elem_of_app in Hin as [Hin|Hin];
          [by apply Hloop in Hin|].
        by apply list_elem_of_singleton in Hin.
    + cbn. by rewrite blobRequests_app, Hnb, Hblobs.
    + intros _. split.
      * do 3 right. apply elem_of_app. right. rewrite Htrace.
        apply elem_of_app. right. right. left.
      * intros e [[=]|[[=]|[[=]|Hin]%elem_of_cons]%elem_of_cons]%elem_of_cons.
        apply elem_of_app in Hin as [Hin|Hin]; [by apply Ht1 in Hin|].
        rewrite Htrace in Hin. apply elem_of_app in Hin as [Hin|Hin];
          [by apply Hloop in Hin|].
        apply elem_of_cons in Hin as [[=]|Hin].
        by apply list_elem_of_singleton in Hin.
    + by intros [=].
Qed.

(** *** Requests stay within the repository *)

Lemma selectTag_scoped name : emitsOnly (scopedTo hub name) (pick name).
Proof.
  intros w. rewrite selectTag_run.
  destruct (token hub name) as [tok|] eqn:Htok; [|by repeat constructor].
  destruct (tagsList hub name) as [[[|t l]|]|]; by repeat constructor.
Qed.

Lemma fetchManifest_scoped name tag tok :
  token hub name = Some tok -> emitsOnly (scopedTo hub name) (manifestOf name tag tok).
Proof.
  intros Htok w. rewrite fetchManifest_run. cbn zeta.
  destruct (manifest hub name tag) as [m|]; [|by repeat constructor].
  destruct (isIndex _); [|by repeat constructor].
  destruct (manifests m !! _) as [selected|]; [|by repeat constructor].
  destruct (manifest hub name (digest selected)); by repeat constructor.
Qed.

Lemma packImage_scoped name tok p m :
  token hub name = Some tok -> emitsOnly (scopedTo hub name) (assemble name tok p m).
Proof.
  intros Htok w. destruct (opens machine p) eqn:Hopen.
  - destruct (packImage_opened machine hub name tok p m w Hopen) as (_ & -> & _).
    apply Forall_app. split.
    + apply (emitsOnly_forEach (scopedTo hub name)). intros d _ s.
      rewrite addLayer_run. destruct (blob hub name d); [|by repeat constructor].
      destruct (piping (pack s)); [|by repeat constructor].
      destruct (tarStream machine); by repeat constructor.
    + destruct (outcome (assemble name tok p m w)); by repeat constructor.
  - rewrite (packImage_unopened machine hub name tok p m w Hopen). by repeat constructor.
Qed.

Lemma afterTag_scoped imageName name tag :
  emitsOnly (scopedTo hub name) (afterTag imageName name tag).
Proof.
  apply emitsOnly_bind; [by apply emitsOnly_silent|]. intros files.
  destruct (files !! destOf name tag); [by apply emitsOnly_emit|].
  apply emitsOnly_tryCatch; [|intros e; by apply emitsOnly_emit].
  apply emitsOnly_bind_Done.
  { intros w. rewrite getToken_run. destruct (token hub name); by repeat constructor. }
  intros w tok. rewrite getToken_run.
  destruct (token hub name) as [tok'|] eqn:Htok; [|done].
  intros [= <-]. cbn [final fst snd].
  apply (emitsOnly_bind (scopedTo hub name) (manifestOf name tag tok')).
  { by apply fetchManifest_scoped. }
  intros [m mt]. destruct (isConcrete mt); [by apply packImage_scoped|].
  by apply emitsOnly_emit.
Qed.

(** A pull talks about one repository only, the one its reference names
    after normalization: the token is asked for that repository, every tag,
    manifest and blob request names it, and each of those requests carries
    a token that the token service issued for it. *)
Theorem downloadDockerImage_scoped imageName w :
  let name := (imageRef imageName).1 in
  forall e, e ∈ trace (pull imageName w) ->
    match e with
    | GetToken n => n = name
    | GetTags n t | GetManifest n _ t _ | GetBlob n _ t =>
        n = name /\ token hub name = Some t
    | _ => True
    end.
Proof.
  intros name e He.
  assert (Forall (scopedTo hub name) (trace (pull imageName w))) as Hall.
  { rewrite downloadDockerImage_run. cbn zeta. fold name.
    destruct (mkdirs machine dir); [|by repeat constructor].
    cbn [trace snd]. apply Forall_cons. split; [done|].
    apply Forall_cons. split; [done|].
    apply (emitsOnly_bind (scopedTo hub name)).
    - destruct ((imageRef imageName).2) as [t|]; [|apply selectTag_scoped].
      destruct (truthy t); [by apply emitsOnly_silent|apply selectTag_scoped].
    - intros tag. apply afterTag_scoped. }
  rewrite Forall_forall in Hall. exact (Hall e He).
Qed.

(** *** Archives that are on disk *)

Lemma packImage_elsewhere name tok p m w q :
  q <> p -> disk (final (assemble name tok p m w)) !! q = disk w !! q.
Proof.
  intros Hq. destruct (opens machine p) eqn:Hopen.
  - destruct (packImage_opened machine hub name tok p m w Hopen) as (_ & _ & H & _).
    by apply H.
  - by rewrite (packImage_unopened machine hub name tok p m w Hopen).
Qed.

Lemma afterTag_keeps imageName name tag w :
  disk w ⊆ disk (final (afterTag imageName name tag w)).
Proof.
  destruct (disk w !! destOf name tag) as [a|] eqn:Hdest.
  { by rewrite (afterTag_existing _ _ _ _ _ Hdest). }
  rewrite (afterTag_run _ _ _ _ Hdest).
  destruct (token hub name) as [tok|]; [|done].
  destruct (fetchManifest_outcome name tag tok w) as [Hw _].
  destruct (manifestOf name tag tok w) as [[[[m mt]|e|c|] w1] t1];
    cbn [final fst snd] in Hw; subst w1; try done.
  destruct (isConcrete mt); [|done]. cbn zeta.
  assert (disk w ⊆ disk (final (assemble name tok (destOf name tag) m w))) as Hp.
  { apply map_subseteq_spec. intros q a Hq.
    rewrite packImage_elsewhere; [done|]. intros ->. congruence. }
  by destruct (outcome (assemble name tok (destOf name tag) m w)).
Qed.

Lemma tagOf_final name given w : final (tagOf name given w) = w.
Proof.
  destruct (selectTag_ends name w) as [Hw _].
  destruct given as [t|]; [|done]. by destruct (truthy t).
Qed.

Lemma downloadDockerImage_keeps imageName :
  respects (fun w w' _ => disk w ⊆ disk w') (pull imageName).
Proof.
  intros w. rewrite downloadDockerImage_run. cbn zeta.
  destruct (mkdirs machine dir); [|done]. cbn [final fst snd].
  pose proof (tagOf_final (imageRef imageName).1 (imageRef imageName).2 w) as Hw.
  unfold bind at 1.
  destruct (tagOf _ _ w) as [[[t|e|c|] w1] t1]; cbn [final fst snd] in Hw |- *;
    subst w1; try done.
  pose proof (afterTag_keeps imageName (imageRef imageName).1 t w) as Hk.
  cbn beta in *. by destruct (bind (gets disk) _ w) as [[o w2] t2].
Qed.

(** No pull changes an archive that is on disk: whatever the batch does,
    each file that was there before it, finalized or not, is there after it
    with the same entries. *)
Theorem downloadImages_keeps_archives imageNames w q a :
  disk w !! q = Some a ->
  disk (final (pullAll imageNames w)) !! q = Some a.
Proof.
  intros Hq.
  assert (respects (fun w w' _ => disk w ⊆ disk w') (pullAll imageNames)) as Hall.
  { apply respects_forEach; [done|by intros; etrans|].
    intros n _. apply downloadDockerImage_keeps. }
  eapply lookup_weaken; [exact Hq|apply Hall].
Qed.

End DockerMore.

(** ** References and names *)

Section Names.
Import Docker.

Lemma includes_app c a b : includes c (a +:+ b) = includes c a || includes c b.
Proof.
  induction a as [|x a IH]; [done|].
  change (String x a +:+ b) with (String x (a +:+ b)). cbn.
  rewrite IH. by rewrite orb_assoc.
Qed.

Lemma split_cons c s : exists h t, split c s = h :: t.
Proof.
  induction s as [|x s (h & t & IH)]; [by eexists _, _|]. cbn.
  destruct (Ascii.eqb x c); [by eexists _, _|]. rewrite IH. by eexists _, _.
Qed.

(** A string without the separator is its own single part. *)
Lemma split_plain c s : includes c s = false -> split c s = [s].
Proof.
  induction s as [|x s IH]; [done|]. cbn.
  destruct (Ascii.eqb x c); [done|]. cbn. intros Hs. by rewrite (IH Hs).
Qed.

(** The first part ends at the first separator. *)
Lemma split_at c a b :
  includes c a = false -> split c (a +:+ String c b) = a :: split c b.
Proof.
  induction a as [|x a IH].
  - intros _. change ("" +:+ String c b) with (String c b). cbn [split].
    by rewrite Ascii.eqb_refl.
  - change (String x a +:+ String c b) with (String x (a +:+ String c b)).
    cbn [split includes].
    destruct (Ascii.eqb x c); [done|]. cbn [orb]. intros Ha. by rewrite (IH Ha).
Qed.

(** No part contains the separator. *)
Lemma split_parts c s p : p ∈ split c s -> includes c p = false.
Proof.
  revert p. induction s as [|x s IH]; intros p; cbn.
  - intros Hp. by apply list_elem_of_singleton in Hp as ->.
  - destruct (Ascii.eqb x c) eqn:Hx.
    + intros [->|Hp]%elem_of_cons; [done|by apply IH].
    + destruct (split_cons c s) as (h & t & Hs). rewrite Hs in *.
      intros [->|Hp]%elem_of_cons.
      * cbn. rewrite Hx. apply IH. left.
      * apply IH. by right.
Qed.

Lemma includes_replaceAll c cs by_ s :
  c ∈ cs -> c <> by_ -> includes c (replaceAll cs by_ s) = false.
Proof.
  intros Hc Hby. induction s as [|x s IH]; [done|]. cbn. rewrite IH, orb_false_r.
  destruct (existsb (Ascii.eqb x) cs) eqn:Hx.
  - apply Ascii.eqb_neq. congruence.
  - apply Ascii.eqb_neq. intros ->.
    assert (existsb (Ascii.eqb c) cs = true) as Hex; [|congruence].
    apply existsb_exists. exists c. split; [by apply list_elem_of_In|].
    apply Ascii.eqb_refl.
Qed.

(** How an image reference is read.  The repository always ends up in a
    namespace: a name without a slash goes under [library/].  A reference
    [repo:tag] gives the repository and the tag back; a reference without a
    colon has no tag (and the puller will ask for one); and everything
    from a second colon on is dropped, so that in a reference that names a
    registry with a port the text after the port's colon is taken for the
    tag. *)
Theorem imageRef_parse :
  let normal repo := if includes "/"%char repo then repo else "library/" +:+ repo in
  (forall s, includes "/"%char (imageRef s).1 = true) /\
  (forall s, includes ":"%char (imageRef s).1 = false) /\
  (forall s, includes ":"%char s = false -> imageRef s = (normal s, None)) /\
  (forall repo tag,
     includes ":"%char repo = false -> includes ":"%char tag = false ->
     imageRef (repo +:+ ":" +:+ tag) = (normal repo, Some tag)) /\
  (forall repo tag more,
     includes ":"%char repo = false -> includes ":"%char tag = false ->
     imageRef (repo +:+ ":" +:+ tag +:+ ":" +:+ more) = (normal repo, Some tag)).
Proof.
  intros normal. split_and!.
  - intros s. unfold imageRef. cbn [fst].
    destruct (includes "/"%char (default "" (split ":"%char s !! 0))) eqn:Hs; [done|].
    done.
  - intros s. unfold imageRef. cbn [fst].
    destruct (split_cons ":"%char s) as (h & t & Hs).
    pose proof (split_parts ":"%char s h) as Hh. rewrite Hs in *. cbn.
    specialize (Hh ltac:(left)).
    destruct (includes "/"%char h); [done|].
    rewrite includes_app. by rewrite Hh.
  - intros s Hs. unfold imageRef. by rewrite (split_plain _ _ Hs).
  - intros repo tag Hrepo Htag. unfold imageRef.
    change (repo +:+ ":" +:+ tag) with (repo +:+ String ":"%char tag).
    by rewrite (split_at _ _ _ Hrepo), (split_plain _ _ Htag).
  - intros repo tag more Hrepo Htag. unfold imageRef.
    change (repo +:+ ":" +:+ tag +:+ ":" +:+ more)
      with (repo +:+ String ":"%char (tag +:+ String ":"%char more)).
    by rewrite (split_at _ _ _ Hrepo), (split_at _ _ _ Htag).
Qed.

(** What ends up in file names.  A layer's entry name contains neither a
    colon nor a slash, whatever the digest.  In the archive's file name the
    repository's slashes are replaced but the tag is copied as it is: the
    file name contains a slash exactly when the tag does. *)
Theorem names_sanitized :
  (forall dgst,
     includes ":"%char (layerEntryName dgst) = false /\
     includes "/"%char (layerEntryName dgst) = false) /\
  (forall name tag,
     includes "/"%char (replaceAll ["/"%char] "_"%char name +:+ "_" +:+ tag +:+ ".tar")
     = includes "/"%char tag).
Proof.
  split.
  - intros dgst. unfold layerEntryName. rewrite !includes_app.
    rewrite !includes_replaceAll; [done| |done| |done]; compute_done.
  - intros name tag. rewrite !includes_app.
    rewrite includes_replaceAll; [|compute_done|done].
    cbn. by rewrite orb_false_r.
Qed.
End Names.

(** ** The command loops *)

Section SessionFacts.
Import Session.
Context {St Ev E : Type}.
Variable processItem : string -> M St Ev E unit.
Variable splitWords : string -> list string.
Variable askName : nat -> string.
Variable askAgain : nat -> bool.

Local Abbreviation loop := (rounds processItem splitWords askName askAgain).
Local Abbreviation items names := (forEach names (fun name => lift (processItem name))).

Lemma work_app (t1 t2 : list (Event Ev E)) : work (t1 ++ t2) = work t1 ++ work t2.
Proof. apply omap_app. Qed.

Lemma work_Work (t : list Ev) : work (map (@Work Ev E) t) = t.
Proof. induction t as [|e t IH]; [done|]. cbn. f_equal. exact IH. Qed.

Lemma lift_run {A} (m : M St Ev E A) s :
  lift m s = (outcome (m s), final (m s), map Work (trace (m s))).
Proof. unfold lift. by destruct (m s) as [[o s1] t1]. Qed.

(** The loop over the names of a round is the program's batch. *)
Lemma items_run names s :
  items names s =
    (outcome (forEach names processItem s), final (forEach names processItem s),
     map Work (trace (forEach names processItem s))).
Proof.
  revert s. induction names as [|n names IH]; intros s; [done|].
  rewrite !forEach_cons. unfold bind. rewrite lift_run.
  destruct (processItem n s) as [[[[]|e|c|] s1] t1]; cbn; try done.
  rewrite IH. destruct (forEach names processItem s1) as [[o s2] t2]. cbn.
  by rewrite map_app.
Qed.

(** One round, from the list it starts with. *)
Lemma rounds_named fuel round n names s :
  loop (S fuel) round (n :: names) s =
    (items (n :: names) ;;;
     emit PromptContinue ;;;
     if askAgain round then loop fuel (S round) [] else emit LogBye) s.
Proof. cbn [rounds]. by rewrite bind_ret_l. Qed.

Lemma rounds_prompted fuel round s :
  loop (S fuel) round [] s =
    if String.eqb (askName round) ":q"
    then (Exited 0, s, [PromptName; LogBye])
    else
      match (items (splitWords (askName round)) ;;;
             emit PromptContinue ;;;
             if askAgain round then loop fuel (S round) [] else emit LogBye) s with
      | (o, s', t) => (o, s', PromptName :: t)
      end.
Proof.
  cbn [rounds]. unfold bind at 1, bind at 1, emit at 1.
  destruct (String.eqb (askName round) ":q"); [done|].
  unfold ret at 1. cbn.
  by destruct (bind (items _) _ s) as [[o s'] t].
Qed.

(** *** What the rounds keep *)

Section Kept.
Variable R : St -> St -> list Ev -> Prop.
Hypothesis R_refl : forall s, R s s [].
Hypothesis R_trans : forall s1 s2 s3 t1 t2,
  R s1 s2 t1 -> R s2 s3 t2 -> R s1 s3 (t1 ++ t2).
Hypothesis R_item : forall name, respects R (processItem name).

Local Abbreviation R' := (fun s s' (t : list (Event Ev E)) => R s s' (work t)).

Lemma kept_refl s : R' s s [].
Proof. apply R_refl. Qed.

Lemma kept_trans s1 s2 s3 t1 t2 : R' s1 s2 t1 -> R' s2 s3 t2 -> R' s1 s3 (t1 ++ t2).
Proof. cbn beta. intros H1 H2. rewrite work_app. by eapply R_trans. Qed.

Lemma lift_kept name : respects R' (lift (processItem name)).
Proof.
  intros s. rewrite lift_run. cbn beta. cbn [final trace fst snd].
  rewrite work_Work. apply R_item.
Qed.

Lemma rounds_kept fuel round names : respects R' (loop fuel round names).
Proof.
  revert round names. induction fuel as [|fuel IH]; intros round names.
  { intros s. apply R_refl. }
  cbn [rounds].
  apply respects_bind; [apply kept_trans| |].
  - destruct names as [|n names0].
    + apply respects_bind; [apply kept_trans|intros s; apply R_refl|]. intros _.
      destruct (String.eqb _ _).
      * apply respects_bind; [apply kept_trans|intros s; apply R_refl|].
        intros _ s. apply R_refl.
      * intros s. apply R_refl.
    + intros s. apply R_refl.
  - intros names'. apply respects_bind; [apply kept_trans| |].
    + apply respects_forEach; [apply kept_refl|apply kept_trans|].
      intros n _. apply lift_kept.
    + intros _. apply respects_bind; [apply kept_trans|intros s; apply R_refl|].
      intros _. destruct (askAgain round); [apply IH|intros s; apply R_refl].
Qed.

Lemma main_kept fuel argv :
  respects R' (main processItem splitWords askName askAgain fuel argv).
Proof.
  apply respects_tryCatch; [apply kept_trans|apply rounds_kept|].
  intros e s. apply R_refl.
Qed.
End Kept.

(** *** How the rounds end *)

Lemma main_not_Threw fuel argv s e :
  outcome (main processItem splitWords askName askAgain fuel argv s) <> Threw e.
Proof. by apply tryCatch_not_Threw. Qed.

Lemma items_has_fuel names s :
  (forall n s, outcome (processItem n s) <> OutOfFuel) ->
  outcome (items names s) <> OutOfFuel.
Proof.
  intros Hitem. rewrite items_run. cbn.
  apply (forEach_has_fuel (fun _ => True)); [|done].
  intros n s' _. by split.
Qed.

(** The loop ends in the first round whose confirmation is declined, if
    not before. *)
Lemma rounds_end fuel round names s i :
  (forall n s, outcome (processItem n s) <> OutOfFuel) ->
  askAgain (round + i) = false ->
  i < fuel ->
  outcome (loop fuel round names s) <> OutOfFuel.
Proof.
  intros Hitem. revert fuel round names s.
  induction i as [|i IH]; intros fuel round names s Hno Hfuel;
    (destruct fuel as [|fuel]; [lia|]).
  - rewrite Nat.add_0_r in Hno.
    assert (forall l s, outcome ((items l ;;; emit PromptContinue ;;;
              if askAgain round then loop fuel (S round) [] else emit LogBye) s)
            <> OutOfFuel) as Hrest.
    { intros l s'. apply bind_has_fuel; [by apply items_has_fuel|]. intros _ _.
      apply bind_has_fuel; [done|]. intros _ _. by rewrite Hno. }
    destruct names as [|n names].
    + rewrite rounds_prompted. destruct (String.eqb _ _); [done|].
      specialize (Hrest (splitWords (askName round)) s).
      by destruct (bind (items _) _ s) as [[[]]].
    + rewrite rounds_named. apply Hrest.
  - assert (forall l s, outcome ((items l ;;; emit PromptContinue ;;;
              if askAgain round then loop fuel (S round) [] else emit LogBye) s)
            <> OutOfFuel) as Hrest.
    { intros l s'. apply bind_has_fuel; [by apply items_has_fuel|]. intros _ _.
      apply bind_has_fuel; [done|]. intros _ _.
      destruct (askAgain round); [|done].
      apply IH; [|lia]. by rewrite <- Nat.add_succ_comm in Hno. }
    destruct names as [|n names].
    + rewrite rounds_prompted. destruct (String.eqb _ _); [done|].
      specialize (Hrest (splitWords (askName round)) s).
      by destruct (bind (items _) _ s) as [[[]]].
    + rewrite rounds_named. apply Hrest.
Qed.

(** The loop ends the process only where the program's function does, or
    with status 0 at the name prompt. *)
Lemma rounds_Exited fuel round names s c :
  outcome (loop fuel round names s) = Exited c ->
  c = 0%Z \/ exists n s', outcome (processItem n s') = Exited c.
Proof.
  revert round names s. induction fuel as [|fuel IH]; intros round names s; [done|].
  assert (forall l s,
            outcome ((items l ;;; emit PromptContinue ;;;
              if askAgain round then loop fuel (S round) [] else emit LogBye) s)
            = Exited c ->
            c = 0%Z \/ exists n s', outcome (processItem n s') = Exited c) as Hrest.
  { intros l s'. unfold bind at 1. rewrite items_run.
    destruct (outcome (forEach l processItem s')) as [[]|e|c'|] eqn:Hl; try done.
    - unfold bind, emit. cbn.
      destruct (askAgain round).
      + pose proof (IH (S round) [] (final (forEach l processItem s'))) as Hnext.
        destruct (loop fuel (S round) [] _) as [[o s2] t2]. cbn in *. exact Hnext.
      + done.
    - cbn. intros [= ->]. right.
      apply forEach_Exited_inv in Hl as (n & s2 & _ & Hn). by exists n, s2. }
  destruct names as [|n names].
  - rewrite rounds_prompted. destruct (String.eqb _ _); [intros [= <-]; by left|].
    specialize (Hrest (splitWords (askName round)) s).
    by destruct (bind (items _) _ s) as [[o s1] t1].
  - rewrite rounds_named. apply Hrest.
Qed.
(** When the process ends inside the loop with a status other than 0, it
    ends inside the function called on a name, and what that function
    printed on its way out is in the trace. *)
Lemma rounds_Exited_work (P : Ev -> Prop) fuel round names s c :
  (forall n s', outcome (processItem n s') = Exited c ->
                exists e, P e /\ e ∈ trace (processItem n s')) ->
  outcome (loop fuel round names s) = Exited c ->
  c = 0%Z \/ exists e, P e /\ Work e ∈ trace (loop fuel round names s).
Proof.
  intros Hitem. revert round names s.
  induction fuel as [|fuel IH]; intros round names s; [done|].
  assert (forall l s,
            let r := (items l ;;; emit PromptContinue ;;;
                      if askAgain round then loop fuel (S round) [] else emit LogBye) s in
            outcome r = Exited c ->
            c = 0%Z \/ exists e, P e /\ Work e ∈ trace r) as Hrest.
  { intros l s' r. subst r. unfold bind at 1 3. rewrite items_run.
    destruct (outcome (forEach l processItem s')) as [[]|e|c'|] eqn:Hl; try done.
    - unfold bind, emit. cbn.
      destruct (askAgain round); [|done].
      pose proof (IH (S round) [] (final (forEach l processItem s'))) as Hnext.
      destruct (loop fuel (S round) [] _) as [[o s2] t2]. cbn in *.
      intros Ho. destruct (Hnext Ho) as [H0|(e & He & Hin)]; [by left|right].
      exists e. split; [done|]. apply elem_of_app. right. by right.
    - cbn. intros [= ->]. right.
      apply forEach_Exited_trace in Hl as (n & s2 & t1 & _ & Hn & Ht).
      destruct (Hitem n s2 Hn) as (e & He & Hin). exists e. split; [done|].
      rewrite Ht, map_app. apply elem_of_app. right.
      apply list_elem_of_In, in_map, list_elem_of_In, Hin. }
  destruct names as [|n names].
  - rewrite rounds_prompted. destruct (String.eqb _ _); [intros [= <-]; by left|].
    specialize (Hrest (splitWords (askName round)) s). cbn zeta in Hrest.
    destruct (bind (items _) _ s) as [[o s1] t1]. cbn in *.
    intros Ho. destruct (Hrest Ho) as [H0|(e & He & Hin)]; [by left|right].
    exists e. split; [done|]. by right.
  - rewrite rounds_named. apply Hrest.
Qed.

End SessionFacts.

Section MainFacts.
Import Session.

Lemma tryCatch_emit_outcome {St Ev E} (m : M St Ev E unit) (f : E -> Ev) s :
  outcome (tryCatch m (fun e => emit (f e)) s) =
    match outcome (m s) with
    | Threw _ => Done tt
    | o => o
    end.
Proof. unfold tryCatch. by destruct (m s) as [[[[]|e|c|] s1] t1]. Qed.

Lemma tryCatch_emit_trace {St Ev E} (m : M St Ev E unit) (f : E -> Ev) s :
  exists rest, trace (tryCatch m (fun e => emit (f e)) s) = trace (m s) ++ rest.
Proof.
  unfold tryCatch. destruct (m s) as [[[[]|e|c|] s1] t1]; cbn;
    try (exists []; by rewrite app_nil_r). by eexists.
Qed.

(** *** The package program *)

Section NpmMain.
Import Npm.
Variable reg : Registry.
Variable maxSatisfying : list string -> string -> option string.
Variable basename : string -> string.
Variable path_join : string -> string -> string.
Variable promptForVersion : string -> list string -> string.
Variable splitWords : string -> list string.
Variable askName : nat -> string.
Variable askAgain : nat -> bool.

Local Abbreviation top :=
  (processPackage reg maxSatisfying basename path_join promptForVersion).
Local Abbreviation batch :=
  (processPackages reg maxSatisfying basename path_join promptForVersion).
Local Abbreviation session :=
  (npmMain reg maxSatisfying basename path_join promptForVersion
     splitWords askName askAgain).

(** The set of downloaded identities lives as long as the process: over
    all the rounds of a session, whatever is asked for in them, the version
    document and the tarball of an identity are requested at most once, and
    no file that was on disk when the session began is changed. *)
Theorem npmMain_at_most_once walkFuel fuel argv w :
  let r := session walkFuel fuel argv w in
  downloadedPackages w ⊆ downloadedPackages (final r) /\
  (forall p f, disk w !! p = Some f -> disk (final r) !! p = Some f) /\
  NoDup (versionDocKeys (work (trace r))) /\
  NoDup (tarballKeys (work (trace r))).
Proof.
  intros r.
  pose proof (main_kept (top walkFuel) splitWords askName askAgain
                (grows (destPathOf basename path_join))
                (grows_refl basename path_join) (grows_trans basename path_join)
                (processPackage_grows reg maxSatisfying basename path_join
                   promptForVersion walkFuel) fuel argv w) as Hg.
  cbn beta in Hg. fold (session walkFuel fuel argv w) in Hg. fold r in Hg.
  split_and!.
  - apply (grows_seen _ _ _ _ Hg).
  - intros p f Hf. eapply lookup_weaken; [exact Hf|]. apply (grows_disk _ _ _ _ Hg).
  - apply (grows_vnodup _ _ _ _ Hg).
  - apply (grows_tnodup _ _ _ _ Hg).
Qed.

(** How the package program ends.  It never ends with an exception, and it
    ends the process only at the name prompt, with status 0.  Names given on
    the command line are processed first, before any prompt; with none, the
    first thing is the name prompt, and [:q] there ends the process before
    anything is requested.  On a registry with finitely many identities, and
    walks given more fuel than that, the loop ends in the first round whose
    confirmation is declined, if not at a prompt before. *)
Theorem npmMain_ends walkFuel fuel argv w :
  let r := session walkFuel (S fuel) argv w in
  (forall e, outcome r <> Threw e) /\
  (forall c, outcome r = Exited c -> c = 0%Z) /\
  (argv = [] -> askName 0 = ":q" -> r = (Exited 0, w, [PromptName; LogBye])) /\
  (argv <> [] ->
   exists rest, trace r = map Work (trace (batch walkFuel argv w)) ++ rest) /\
  (forall (U : gset string) i,
     (forall n v d, versionDoc reg n v = Some d -> pkgSpecOf n v ∈ U) ->
     size U < walkFuel ->
     askAgain i = false -> i <= fuel ->
     outcome r = Done tt \/ outcome r = Exited 0).
Proof.
  intros r.
  assert (forall c, outcome r = Exited c -> c = 0%Z) as Hexit.
  { intros c Hc. subst r. unfold npmMain, main in Hc.
    rewrite tryCatch_emit_outcome in Hc.
    destruct (outcome (rounds _ _ _ _ _ _ _ w)) as [[]|e|c'|] eqn:Hr; try done.
    injection Hc as ->.
    apply rounds_Exited in Hr as [->|(n & w' & Hn)]; [done|].
    by apply processPackage_not_Exited in Hn. }
  split_and!.
  - intros e. apply main_not_Threw.
  - exact Hexit.
  - intros -> Hq. subst r. unfold npmMain, main, tryCatch.
    by rewrite rounds_prompted, Hq.
  - intros Hargv. destruct argv as [|n names]; [done|].
    subst r. unfold npmMain, main.
    destruct (tryCatch_emit_trace
                (rounds (top walkFuel) splitWords askName askAgain (S fuel) 0 (n :: names))
                (fun e => ErrMain e) w) as [rest ->].
    rewrite rounds_named. unfold bind at 1. rewrite items_run.
    unfold processPackages.
    destruct (outcome (forEach (n :: names) (top walkFuel) w)) as [[]|e|c|];
      cbn [trace snd]; try by eexists.
    destruct (bind _ _ _) as [[o w2] t2]. cbn [trace snd].
    eexists. by rewrite <- app_assoc.
  - intros U i HU Hfuel Hno Hi.
    assert (outcome r <> OutOfFuel) as Hout.
    { subst r. unfold npmMain, main. rewrite tryCatch_emit_outcome.
      pose proof (rounds_end (top walkFuel) splitWords askName askAgain
                    (S fuel) 0 argv w i) as Hend.
      destruct (outcome (rounds _ _ _ _ _ _ _ w)) as [[]|e|c'|]; try done.
      apply Hend; [|done|lia].
      intros n w'. apply (processPackage_enough_fuel _ _ _ _ _ U); [done|].
      eapply Nat.le_lt_trans; [|exact Hfuel]. apply subseteq_size. set_solver. }
    pose proof (main_not_Threw (top walkFuel) splitWords askName askAgain
                  (S fuel) argv w) as Hthrow.
    fold (session walkFuel (S fuel) argv w) in Hthrow. fold r in Hthrow.
    destruct (outcome r) as [[]|e|c|] eqn:Hr.
    + by left.
    + by specialize (Hthrow e).
    + right. by rewrite (Hexit c).
    + done.
Qed.
End NpmMain.

(** *** The image program *)

Section DockerMain.
Import Docker.
Variable machine : Machine.
Variable hub : Hub.
Variable path_join : string -> string -> string.
Variable sortTags : list string -> list string.
Variable chooseTag : list string -> string.
Variable choosePlatform : list (string * nat) -> nat.
Variable splitWords : string -> list string.
Variable askName : nat -> string.
Variable askAgain : nat -> bool.

Local Abbreviation pull :=
  (downloadDockerImage machine hub path_join sortTags chooseTag choosePlatform).
Local Abbreviation session :=
  (dockerMain machine hub path_join sortTags chooseTag choosePlatform
     splitWords askName askAgain).
Local Abbreviation dir := (outputDir path_join).

(** What a pull prints before the process ends in it. *)
Local Abbreviation fatal e :=
  (e = ErrNoTags \/ (exists x, e = ErrTags x) \/ (exists x, e = Uncaught x)).

(** How the image program ends.  The promise of [main] never rejects: all
    of its body is inside a [try], so a rejected [mkdirp] is printed by the
    [catch] of [main], and that ends the session at once, images left over
    and prompts included.  The process ends with status 0 at the name
    prompt ([:q], before anything is requested when no name was given), or
    with status 1 inside a pull, after the error line of [selectTag] or the
    uncaught error of a write stream, which is outside every [try].
    Otherwise the loop ends in the first round whose confirmation is
    declined.  Over all the rounds no archive that was on disk when the
    session began is changed. *)
Theorem dockerMain_ends fuel argv w :
  let r := session (S fuel) argv w in
  (forall e, outcome r <> Threw e) /\
  (forall c, outcome r = Exited c ->
     c = 0%Z \/ (c = 1%Z /\ exists e, fatal e /\ Work e ∈ trace r)) /\
  (argv = [] -> askName 0 = ":q" -> r = (Exited 0, w, [PromptName; LogBye])) /\
  (forall n rest, argv = n :: rest -> mkdirs machine dir = false ->
     r = (Done tt, w,
          [Work (LogStart n); Work (Mkdirp dir); ErrMain (MkdirFailed dir)])) /\
  (forall i, askAgain i = false -> i <= fuel -> outcome r <> OutOfFuel) /\
  (forall q a, disk w !! q = Some a -> disk (final r) !! q = Some a).
Proof.
  intros r. split_and!.
  - intros e. apply main_not_Threw.
  - intros c Hc. subst r. unfold dockerMain, main in *.
    destruct (tryCatch_emit_trace (rounds pull splitWords askName askAgain (S fuel) 0 argv)
                (@ErrMain Event Error) w) as [rest Hrest].
    rewrite Hrest. rewrite tryCatch_emit_outcome in Hc.
    destruct (outcome (rounds _ _ _ _ _ _ _ w)) as [[]|e|c'|] eqn:Hr; try done.
    injection Hc as ->.
    assert (forall n s', outcome (pull n s') = Exited c -> c = 1%Z /\
              exists e, fatal e /\ e ∈ trace (pull n s')) as Hitem.
    { intros n s' Hn.
      destruct (downloadDockerImage_ends machine hub path_join sortTags chooseTag
                  choosePlatform n s') as (_ & _ & _ & _ & Hexit & _).
      destruct (Hexit c Hn) as (-> & _ & [[_ [Hlog|[x Hlog]]]|(tag & _ & Hlog)]);
        (split; [done|]); eexists; (split; [|exact Hlog]); eauto. }
    pose proof (rounds_Exited _ _ _ _ _ _ _ _ _ Hr) as [->|(n & s' & Hn)]; [by left|].
    destruct (Hitem n s' Hn) as [-> _]. right. split; [done|].
    destruct (rounds_Exited_work pull splitWords askName askAgain (fun e => fatal e)
                (S fuel) 0 argv w 1%Z) as [H0|(e & He & Hin)]; [|done|done|].
    { intros n' s'' Hn'. by destruct (Hitem n' s'' Hn'). }
    exists e. split; [done|]. apply elem_of_app. by left.
  - intros -> Hq. subst r. unfold dockerMain, main, tryCatch.
    by rewrite rounds_prompted, Hq.
  - intros n rest -> Hdir. subst r. unfold dockerMain, main, tryCatch.
    rewrite rounds_named. unfold bind at 1. rewrite forEach_cons.
    unfold bind at 1. rewrite lift_run.
    destruct (downloadDockerImage_ends machine hub path_join sortTags chooseTag
                choosePlatform n w) as (_ & _ & Hthrow & _).
    by rewrite (Hthrow Hdir).
  - intros i Hno Hi. subst r. unfold dockerMain, main.
    rewrite tryCatch_emit_outcome.
    pose proof (rounds_end pull splitWords askName askAgain (S fuel) 0 argv w i) as Hend.
    destruct (outcome (rounds _ _ _ _ _ _ _ w)) as [[]|e|c'|]; try done.
    apply Hend; [|done|lia].
    intros n w'. apply downloadDockerImage_has_fuel.
  - intros q a Hq.
    pose proof (main_kept pull splitWords askName askAgain
                  (fun w w' _ => disk w ⊆ disk w')
                  (fun _ => reflexivity _)
                  (fun _ _ _ _ _ H1 H2 => transitivity H1 H2)
                  (downloadDockerImage_keeps machine hub path_join sortTags chooseTag
                     choosePlatform) (S fuel) argv w) as Hk.
    cbn beta in Hk. eapply lookup_weaken; [exact Hq|exact Hk].
Qed.
End DockerMain.

End MainFacts.

(** ** The further properties on the concrete registries *)

Section MorePackageChecks.
Import Npm Scenario Scenario.Packages.

Local Abbreviation walkOn reg := (downloadTarball reg exactVersion lastSegment join).
Local Abbreviation batchOn reg :=
  (processPackages reg exactVersion lastSegment join firstChoice).

Lemma processPackages_isolated_witness :
  let r := batchOn flaky 3 ["P"; "Y"] empty in
  outcome r = Done tt /\
  ErrPackage "P" ∈ trace r /\
  GetPackageDoc "Y" ∈ trace r /\
  (LogPackageDone "Y" ∈ trace r \/ ErrPackage "Y" ∈ trace r).
Proof.
  destruct (processPackages_isolated flaky exactVersion lastSegment join firstChoice
              3 ["P"; "Y"] empty) as (_ & _ & Hall).
  assert (outcome (batchOn flaky 3 ["P"; "Y"] empty) = Done tt) as Hdone by reflexivity.
  assert ("Y" ∈ ["P"; "Y"]) as HY by compute_done.
  split; [exact Hdone|]. split; [compute_done|].
  exact (Hall Hdone "Y" HY).
Defined.

Lemma processPackages_at_most_once_witness :
  let r := batchOn cycle 3 ["B"; "A"] leftover in
  NoDup (versionDocKeys (trace r)) /\
  NoDup (tarballKeys (trace r)) /\
  disk (final r) !! "downloads/npm-packages/P-1.0.0.tgz" = Some Partial.
Proof.
  destruct (processPackages_at_most_once cycle exactVersion lastSegment join firstChoice
              3 ["B"; "A"] leftover) as (_ & Hdisk & Hv & Ht & _).
  split; [exact Hv|]. split; [exact Ht|].
  apply Hdisk. vm_compute. reflexivity.
Defined.

Lemma processPackages_terminates_witness :
  exists fuel,
    let r := batchOn cycle fuel ["A"; "B"; "C"] empty in
    outcome r = Done tt /\
    forall fuel', fuel <= fuel' -> batchOn cycle fuel' ["A"; "B"; "C"] empty = r.
Proof.
  apply (processPackages_terminates cycle exactVersion lastSegment join firstChoice
           cycleIds).
  exact cycleIds_closed.
Defined.

Lemma tarball_requests_announced_witness :
  exists n v d,
    "B@1.0.0" = pkgSpecOf n v /\ versionDoc cycle n v = Some d /\
    "https://r/B/-/B-1.0.0.tgz" = dist_tarball d.
Proof.
  destruct (tarball_requests_announced cycle exactVersion lastSegment join
              3 "A" "1.0.0" empty) as [Hreq _].
  apply Hreq. compute_done.
Defined.

Lemma downloadTarball_delivers_witness :
  let r := walkOn flaky 3 "Q" "1.0.0" empty in
  (exists d, versionDoc flaky "Y" "1.0.0" = Some d /\
             is_Some (disk (final r) !! destPathOf lastSegment join (dist_tarball d))) /\
  (exists d, versionDoc flaky "Q" "1.0.0" = Some d /\
             is_Some (disk (final r) !! destPathOf lastSegment join (dist_tarball d))).
Proof.
  destruct (downloadTarball_delivers flaky exactVersion lastSegment join
              3 "Q" "1.0.0" empty eq_refl) as (Hfiles & _ & Hown).
  split.
  - apply Hfiles. compute_done.
  - apply Hown. compute_done.
Defined.

Lemma broken_transfer_never_repaired_witness :
  let r := walkOn broken 3 "P" "1.0.0" empty in
  let fresh := {| downloadedPackages := ∅; disk := disk (final r) |} in
  let r' := walkOn mended 3 "P" "1.0.0" fresh in
  outcome r = Threw (StreamError "https://r/P/-/P-1.0.0.tgz") /\
  tarball mended "https://r/P/-/P-1.0.0.tgz" = Completed /\
  outcome r' = Done tt /\
  ("https://r/P/-/P-1.0.0.tgz" ∉ tarballUrls (trace r')) /\
  disk (final r') !! "downloads/npm-packages/P-1.0.0.tgz" = Some Partial.
Proof.
  destruct (broken_transfer_never_repaired lastSegment join broken exactVersion
              2 "P" "1.0.0" empty (doc [] "https://r/P/-/P-1.0.0.tgz"))
    as (Hthrew & _ & Hlater).
  - compute_done.
  - reflexivity.
  - reflexivity.
  - reflexivity.
  - destruct (Hlater mended exactVersion 3 "P" "1.0.0"
                {| downloadedPackages := ∅;
                   disk := disk (final (walkOn broken 3 "P" "1.0.0" empty)) |}
                (reflexivity _)) as [Hno Hkept].
    split; [exact Hthrew|]. split; [reflexivity|]. split; [reflexivity|].
    split; [exact (Hno _ eq_refl)|exact Hkept].
Defined.

Lemma same_file_name_not_fetched_witness :
  let r := walkOn twins 3 "@a/foo" "1.0.0" empty in
  versionDoc twins "@b/foo" "1.0.0" = Some (doc [] "https://r/@b/foo/-/foo-1.0.0.tgz") /\
  ("@b/foo@1.0.0" ∉ downloadedPackages (final r)) /\
  ("https://r/@b/foo/-/foo-1.0.0.tgz"
     ∉ tarballUrls (trace (walkOn twins 3 "@b/foo" "1.0.0" (final r)))).
Proof.
  split; [reflexivity|]. split; [compute_done|].
  apply (same_file_name_not_fetched lastSegment join twins exactVersion
           3 "@a/foo" "1.0.0" empty (doc [] "https://r/@a/foo/-/foo-1.0.0.tgz")).
  - compute_done.
  - reflexivity.
  - reflexivity.
  - reflexivity.
  - reflexivity.
Defined.

Lemma processPackage_version_choice_witness :
  let pick reg name := processPackage reg exactVersion lastSegment join firstChoice 3 name empty in
  (PromptVersion "M" ["2.0.0"; "1.0.0"] ∈ trace (pick shelf "M") /\
   "M@2.0.0" ∈ downloadedPackages (final (pick shelf "M"))) /\
  ((forall n choices, PromptVersion n choices ∉ trace (pick shelf "S")) /\
   "S@1.0.0" ∈ downloadedPackages (final (pick shelf "S"))) /\
  ("E@undefined" ∈ downloadedPackages (final (pick shelf "E")) /\
   GetVersionDoc "E" "undefined" ∈ trace (pick shelf "E")).
Proof.
  destruct (processPackage_version_choice shelf exactVersion lastSegment join firstChoice
              2 "M" ["1.0.0"; "2.0.0"] empty eq_refl) as (Hmany & _ & _).
  destruct (processPackage_version_choice shelf exactVersion lastSegment join firstChoice
              2 "S" ["1.0.0"] empty eq_refl) as (_ & Hone & _).
  destruct (processPackage_version_choice shelf exactVersion lastSegment join firstChoice
              2 "E" [] empty eq_refl) as (_ & _ & Hnone).
  split; [|split].
  - apply Hmany. cbn. lia.
  - exact (Hone "1.0.0" eq_refl).
  - destruct (Hnone eq_refl) as (_ & Hwalked & Hreq).
    split; [exact Hwalked|]. apply Hreq. compute_done.
Defined.
End MorePackageChecks.

Section MoreImageChecks.
Import Docker Scenario Scenario.Images.

Local Abbreviation pullOn mc h := (downloadDockerImage mc h join sorted anyTag second).
Local Abbreviation pullAllOn mc h := (downloadImages mc h join sorted anyTag second).

Lemma selectTag_returns_or_exits_witness :
  let r := selectTag hub sorted anyTag "library/alpine" empty in
  outcome r = Exited 1 /\ (ErrNoTags ∈ trace r \/ exists e, ErrTags e ∈ trace r).
Proof.
  destruct (selectTag_returns_or_exits hub sorted anyTag "library/alpine" empty)
    as (_ & _ & _ & Hexit & _).
  split; [reflexivity|]. exact (proj2 (Hexit 1%Z eq_refl)).
Defined.

(** A reference that names a registry with a port, on a machine with the
    output directory alone: the tag is [5000/app], the destination lies in
    a directory that does not exist, and the process dies with the first
    blob request under way.  On a machine where nothing can be written the
    pull throws at [mkdirp]. *)
Lemma downloadDockerImage_ends_witness :
  pullOn flat anyRepo "localhost:5000/app:1.0" empty =
    (Exited 1, empty,
     [LogStart "localhost:5000/app:1.0"; Mkdirp "downloads/docker-images";
      GetToken "library/localhost";
      GetManifest "library/localhost" "5000/app" "tok" acceptAny;
      GetBlob "library/localhost" "sha256:l1" "tok";
      Uncaught (OpenFailed "downloads/docker-images/library_localhost_5000/app.tar")]) /\
  pullOn readOnly anyRepo "alpine:3.18" empty =
    (Threw (MkdirFailed "downloads/docker-images"), empty,
     [LogStart "alpine:3.18"; Mkdirp "downloads/docker-images"]) /\
  outcome (pullOn sound3 anyRepo "localhost:5000/app:1.0" empty) = Done tt.
Proof.
  destruct (downloadDockerImage_ends readOnly anyRepo join sorted anyTag second
              "alpine:3.18" empty) as (_ & _ & Hdir & _).
  destruct (downloadDockerImage_ends sound3 anyRepo join sorted anyTag second
              "localhost:5000/app:1.0" empty) as (_ & _ & _ & _ & _ & Hret).
  split; [reflexivity|]. split.
  - exact (Hdir eq_refl).
  - exact (Hret "5000/app" eq_refl eq_refl eq_refl eq_refl).
Defined.

Lemma downloadImages_isolated_witness :
  let r := pullAllOn sound3 hub ["nginx:1.25"; "alpine:3.18"] empty in
  outcome r = Done tt /\
  LogStart "nginx:1.25" ∈ trace r /\ LogStart "alpine:3.18" ∈ trace r /\
  ErrImage "nginx:1.25" (RequestFailed "https://auth.docker.io/token") ∈ trace r.
Proof.
  destruct (downloadImages_isolated sound3 hub join sorted anyTag second
              ["nginx:1.25"; "alpine:3.18"] empty) as (_ & _ & _ & Htagged).
  assert (forall n, n ∈ ["nginx:1.25"; "alpine:3.18"] ->
            exists t, (imageRef n).2 = Some t /\ truthy t = true /\
                      opens sound3 (destPathOf join (imageRef n).1 t) = true) as Htags.
  { intros n Hn. apply elem_of_cons in Hn as [->|Hn]; [by exists "1.25"|].
    apply list_elem_of_singleton in Hn as ->. by exists "3.18". }
  destruct (Htagged eq_refl Htags) as [Hdone Hstarted].
  split; [exact Hdone|]. split; [|split].
  - apply Hstarted. compute_done.
  - apply Hstarted. compute_done.
  - compute_done.
Defined.


Lemma config_failure_leaves_archive_witness :
  let r := pullOn sound3 noConfig "alpine:3.18" empty in
  outcome r = Done tt /\
  disk (final r) !! "downloads/docker-images/library_alpine_3.18.tar" =
    Some {| entries := [emptyEntry "layer-sha256_l1.tar.gz"]; finalized := false |} /\
  pullOn sound3 healthy "alpine:3.18" (final r) =
    (Done tt, final r,
     [LogStart "alpine:3.18"; Mkdirp "downloads/docker-images";
      LogAlreadyDownloaded "downloads/docker-images/library_alpine_3.18.tar"]).
Proof.
  destruct (config_failure_leaves_archive sound3 noConfig join sorted anyTag second
              "alpine:3.18" "library/alpine" "3.18" "tok" empty concrete
              (Some mtDockerManifest)
              [GetManifest "library/alpine" "3.18" "tok" acceptAny;
               PromptPlatform [("linux/amd64", 0); ("linux/arm64 (v8)", 1)];
               GetManifest "library/alpine" "sha256:bbb" "tok" acceptConcrete])
    as (Hdone & _ & Hdisk & _).
  - reflexivity.
  - reflexivity.
  - reflexivity.
  - vm_compute. reflexivity.
  - reflexivity.
  - reflexivity.
  - reflexivity.
  - reflexivity.
  - reflexivity.
  - split; [exact Hdone|]. split; [exact Hdisk|]. vm_compute. reflexivity.
Defined.

Lemma complete_pull_witness :
  let r := pullOn sound3 healthy "alpine:3.18" empty in
  let r2 := pullOn sound2 healthy "alpine:3.18" empty in
  let p := "downloads/docker-images/library_alpine_3.18.tar" in
  blobRequests (trace r) = ["sha256:l1"; "sha256:l2"; "sha256:l3"; "sha256:cfg"] /\
  disk (final r) !! p =
    Some {| entries := [emptyEntry "layer-sha256_l1.tar.gz"]; finalized := false |} /\
  LogComplete p ∈ trace r /\
  disk (final r2) !! p =
    Some {| entries := [emptyEntry "layer-sha256_l1.tar.gz"]; finalized := false |} /\
  ErrImage "alpine:3.18" AlreadyPiping ∈ trace r2 /\
  LogComplete p ∉ trace r2.
Proof.
  pose (t1 := [GetManifest "library/alpine" "3.18" "tok" acceptAny;
               PromptPlatform [("linux/amd64", 0); ("linux/arm64 (v8)", 1)];
               GetManifest "library/alpine" "sha256:bbb" "tok" acceptConcrete]).
  assert (forall d, d ∈ layers concrete -> blob healthy "library/alpine" d = true)
    as Hall by done.
  assert (disk empty !! destPathOf join "library/alpine" "3.18" = None) as Hfree.
  { vm_compute. reflexivity. }
  destruct (complete_pull sound3 healthy join sorted anyTag second
              "alpine:3.18" "library/alpine" "3.18" "tok" empty concrete
              (Some mtDockerManifest) t1
              eq_refl eq_refl eq_refl Hfree eq_refl eq_refl eq_refl eq_refl Hall eq_refl)
    as (_ & Hblobs & Hdisk & Hthree & _).
  destruct (complete_pull sound2 healthy join sorted anyTag second
              "alpine:3.18" "library/alpine" "3.18" "tok" empty concrete
              (Some mtDockerManifest) t1
              eq_refl eq_refl eq_refl Hfree eq_refl eq_refl eq_refl eq_refl Hall eq_refl)
    as (_ & _ & Hdisk2 & _ & Htwo).
  destruct (Hthree (or_introl eq_refl)) as [Hcomplete _].
  destruct (Htwo eq_refl ltac:(discriminate)) as [Hfailed Hsilent].
  split_and!.
  - exact Hblobs.
  - exact Hdisk.
  - exact Hcomplete.
  - exact Hdisk2.
  - exact Hfailed.
  - exact Hsilent.
Defined.

Lemma downloadDockerImage_scoped_witness :
  "library/alpine" = (imageRef "alpine:3.18").1 /\
  token hub (imageRef "alpine:3.18").1 = Some "tok".
Proof.
  apply (downloadDockerImage_scoped sound3 hub join sorted anyTag second "alpine:3.18" empty
           (GetBlob "library/alpine" "sha256:l3" "tok")).
  compute_done.
Defined.

Lemma downloadImages_keeps_archives_witness :
  disk (final (pullAllOn sound3 hub ["alpine:3.18"; "busybox:1.36"] other))
    !! "downloads/docker-images/library_busybox_1.36.tar" =
    Some {| entries := [{| entry_name := "layer-sha256_b1.tar.gz";
                           entry_blob := Some "sha256:b1" |}];
            finalized := false |}.
Proof.
  apply (downloadImages_keeps_archives sound3 hub join sorted anyTag second).
  vm_compute. reflexivity.
Defined.

Lemma imageRef_parse_witness :
  imageRef "alpine" = ("library/alpine", None) /\
  imageRef ("bitnami/redis" +:+ ":" +:+ "7.2") = ("bitnami/redis", Some "7.2") /\
  imageRef ("localhost" +:+ ":" +:+ "5000/app" +:+ ":" +:+ "1.0")
    = ("library/localhost", Some "5000/app").
Proof.
  destruct imageRef_parse as (_ & _ & Hplain & Htagged & Hmore).
  split; [|split].
  - exact (Hplain "alpine" eq_refl).
  - exact (Htagged "bitnami/redis" "7.2" eq_refl eq_refl).
  - exact (Hmore "localhost" "5000/app" "1.0" eq_refl eq_refl).
Defined.
End MoreImageChecks.

Section MainChecks.
Import Scenario Session.

Lemma npmMain_at_most_once_witness :
  let r := npmMain Packages.cycle exactVersion lastSegment join firstChoice oneWord
             (fun i => if Nat.eqb i 1 then "B" else ":q") (fun i => Nat.eqb i 0)
             3 5 ["A"] Packages.empty in
  outcome r = Done tt /\
  Npm.GetPackageDoc "B" ∈ work (trace r) /\
  NoDup (Npm.versionDocKeys (work (trace r))) /\
  NoDup (Npm.tarballKeys (work (trace r))).
Proof.
  destruct (npmMain_at_most_once Packages.cycle exactVersion lastSegment join firstChoice
              oneWord (fun i => if Nat.eqb i 1 then "B" else ":q") (fun i => Nat.eqb i 0)
              3 5 ["A"] Packages.empty) as (_ & _ & Hv & Ht).
  split; [reflexivity|]. split; [compute_done|]. split; [exact Hv|exact Ht].
Defined.

Lemma npmMain_ends_witness :
  let session := npmMain Packages.cycle exactVersion lastSegment join firstChoice oneWord
                   (fun _ => ":q") (fun _ => false) 3 in
  session 1 [] Packages.empty = (Exited 0, Packages.empty, [PromptName; LogBye]) /\
  (outcome (session 1 ["A"] Packages.empty) = Done tt \/
   outcome (session 1 ["A"] Packages.empty) = Exited 0).
Proof.
  destruct (npmMain_ends Packages.cycle exactVersion lastSegment join firstChoice oneWord
              (fun _ => ":q") (fun _ => false) 3 0 [] Packages.empty)
    as (_ & _ & Hquit & _).
  destruct (npmMain_ends Packages.cycle exactVersion lastSegment join firstChoice oneWord
              (fun _ => ":q") (fun _ => false) 3 0 ["A"] Packages.empty)
    as (_ & _ & _ & _ & Hend).
  split.
  - exact (Hquit eq_refl eq_refl).
  - apply (Hend Packages.cycleIds 0).
    + exact cycleIds_closed.
    + vm_compute. lia.
    + reflexivity.
    + lia.
Defined.

Lemma dockerMain_ends_witness :
  let session := dockerMain Images.sound3 Images.hub join Images.sorted Images.anyTag
                   Images.second oneWord (fun _ => ":q") (fun _ => false) in
  session 1 [] Images.other = (Exited 0, Images.other, [PromptName; LogBye]) /\
  dockerMain Images.readOnly Images.hub join Images.sorted Images.anyTag Images.second
    oneWord (fun _ => ":q") (fun _ => false) 1 ["alpine:3.18"; "busybox:1.36"] Images.other =
    (Done tt, Images.other,
     [Work (Docker.LogStart "alpine:3.18"); Work (Docker.Mkdirp "downloads/docker-images");
      ErrMain (Docker.MkdirFailed "downloads/docker-images")]) /\
  outcome (session 1 ["alpine:3.18"] Images.other) <> OutOfFuel /\
  Docker.disk (final (session 1 ["alpine:3.18"] Images.other))
    !! "downloads/docker-images/library_busybox_1.36.tar" =
    Some {| Docker.entries := [{| Docker.entry_name := "layer-sha256_b1.tar.gz";
                                  Docker.entry_blob := Some "sha256:b1" |}];
            Docker.finalized := false |}.
Proof.
  destruct (dockerMain_ends Images.sound3 Images.hub join Images.sorted Images.anyTag
              Images.second oneWord (fun _ => ":q") (fun _ => false) 0 [] Images.other)
    as (_ & _ & Hquit & _).
  destruct (dockerMain_ends Images.readOnly Images.hub join Images.sorted Images.anyTag
              Images.second oneWord (fun _ => ":q") (fun _ => false) 0
              ["alpine:3.18"; "busybox:1.36"] Images.other)
    as (_ & _ & _ & Hdir & _).
  destruct (dockerMain_ends Images.sound3 Images.hub join Images.sorted Images.anyTag
              Images.second oneWord (fun _ => ":q") (fun _ => false) 0 ["alpine:3.18"]
              Images.other)
    as (_ & _ & _ & _ & Hend & Hkept).
  split; [exact (Hquit eq_refl eq_refl)|]. split; [|split].
  - exact (Hdir "alpine:3.18" ["busybox:1.36"] eq_refl eq_refl).
  - apply (Hend 0); [reflexivity|lia].
  - apply Hkept. vm_compute. reflexivity.
Defined.
End MainChecks.
